(** * Halide generator driver (src/Generator.cpp): a shallow embedding

    Definitions come first, in the order of the translation unit:

    - [NameValidator]   : [is_alpha], [is_alnum], [is_valid_name];
    - [Halide]          : [Target], [EmitOptions], [Outputs];
    - [ArtifactPlanner] : [get_extension], [compute_outputs];
    - [Generator]       : the state of a [GeneratorBase] object and its
                          methods [build_params], [rebuild_params],
                          [get_filter_arguments],
                          [get_generator_param_values],
                          [set_generator_param_values],
                          [get_filter_output_types] and [build_module],
                          written in a state-and-exception monad;
    - [Driver]          : [compute_base_path], [emit_filter], the registry
                          and [generate_filter_main];
    - [Sample], [SampleDriver] : a concrete generator family, platform and
                          registry;
    - [PlannerTerms], [GeneratorTerms], [DriverTerms] : further vocabulary
                          of the statements.

    The properties follow in [NameFacts], [PlannerFacts], [GeneratorFacts]
    and [DriverFacts]; further properties of the same functions follow in
    [NameExtras], [PlannerExtras], [GeneratorExtras], [RegistryExtras] and
    [DriverExtras]; [BuildModuleFacts] and [RunFacts] build on both.  The
    properties are applied to the samples in [Instances] and
    [ExtraInstances].

    C++ [std::string] is [string] (a list of 8-bit characters).  A
    [std::map] with string keys is a [gmap string _]; where the code
    iterates over it, the entries are taken by increasing key
    ([in_order]).  A pointer to a member object of a generator instance is
    the position of the object among the members of its category. *)

From stdpp Require Import gmap strings list fin_maps sorting.
From Stdlib Require Import Ascii NArith.
From Stdlib Require DecimalString DecimalFacts DecimalNat.

(* ===================================================================== *)
(** ** Name validation *)
(* ===================================================================== *)

Module NameValidator.

(** The numeric value of a [char].  The C++ comparisons below are against
    literals in the ASCII range, so a byte above 127 fails every range test
    whether [char] is signed or not; comparing the unsigned codes gives the
    same answers. *)
Definition code (c : ascii) : N := N_of_ascii c.

Definition char_ge (c d : ascii) : bool := (code d <=? code c)%N.
Definition char_le (c d : ascii) : bool := (code c <=? code d)%N.

(** [bool is_alpha(char c)] *)
Definition is_alpha (c : ascii) : bool :=
  (char_ge c "A" && char_le c "Z") || (char_ge c "a" && char_le c "z").

(** [bool is_alnum(char c)]; note that this includes ['_']. *)
Definition is_alnum (c : ascii) : bool :=
  is_alpha c || Ascii.eqb c "_" || (char_ge c "0" && char_le c "9").

(** The body of the [for (i = 1; i < n.size(); ++i)] loop of
    [is_valid_name]; [prev] is [n[i-1]] and the string is [n[i..]]. *)
Fixpoint valid_from (prev : ascii) (rest : string) : bool :=
  match rest with
  | EmptyString => true
  | String c rest' =>
      if negb (is_alnum c) then false
      else if Ascii.eqb c "_" && Ascii.eqb prev "_" then false
      else valid_from c rest'
  end.

(** [bool is_valid_name(const std::string& n)] *)
Definition is_valid_name (n : string) : bool :=
  match n with
  | EmptyString => false
  | String c0 rest =>
      if negb (is_alpha c0) then false else valid_from c0 rest
  end.

(** *** The rule set in words *)

Definition ascii_letter (c : ascii) : Prop :=
  (65 <= code c <= 90)%N ∨ (97 <= code c <= 122)%N.

Definition ascii_digit (c : ascii) : Prop := (48 <= code c <= 57)%N.

(** A character of the class [[A-Za-z0-9_]]. *)
Definition word_char (c : ascii) : Prop :=
  ascii_letter c ∨ ascii_digit c ∨ c = "_"%char.

(** [s] contains the two-character substring ["__"]. *)
Definition has_double_underscore (s : string) : Prop :=
  ∃ pre post : string, s = pre +:+ "__" +:+ post.

(** The rules of the validator, stated on positions of the string. *)
Record valid_name_rules (s : string) : Prop := {
  rule_nonempty : s ≠ "";
  rule_first : ∀ c, String.get 0 s = Some c → ascii_letter c;
  rule_rest : ∀ i c, 0 < i → String.get i s = Some c → word_char c;
  rule_no_double : ¬ has_double_underscore s
}.

End NameValidator.

(* ===================================================================== *)
(** ** Shared vocabulary: std::map traversal, targets, emit options *)
(* ===================================================================== *)

(** A [std::map<std::string, V>] is a [gmap string V]; a range-based [for]
    over it visits the entries by increasing key, and [std::string]
    compares byte-wise, which is [String.leb]. *)
Definition key_le {V} (x y : string * V) : Prop := String.leb x.1 y.1.

Definition in_order {V} (m : gmap string V) : list (string * V) :=
  merge_sort key_le (map_to_list m).

(** The newline written ["\n"] in the C++ literals. *)
Definition nl : string := String "010"%char EmptyString.

Module Halide.

(** Modelled from the spec: [Target] (Target.h is outside src/) is "operating
    system, architecture, and a set of optional features".  Only the
    enumerators this translation unit names are distinguished; every other
    enumerator is an [Other*] value. *)
Inductive OS := Windows | Linux | OtherOS (id : nat).
Inductive Arch := PNaCl | OtherArch (id : nat).
Inductive Feature := MinGW | OtherFeature (id : nat).

#[global] Instance OS_eq_dec : EqDecision OS.
Proof. solve_decision. Defined.
#[global] Instance Arch_eq_dec : EqDecision Arch.
Proof. solve_decision. Defined.
#[global] Instance Feature_eq_dec : EqDecision Feature.
Proof. solve_decision. Defined.

Record Target := mkTarget {
  os : OS;
  arch : Arch;
  features : list Feature
}.

(** [bool Target::has_feature(Feature f) const] *)
Definition has_feature (t : Target) (f : Feature) : bool :=
  bool_decide (f ∈ features t).

(** Modelled from the spec: [GeneratorBase::EmitOptions] (Generator.h is
    outside src/) is "a set of boolean flags, one per artifact kind, plus an
    extension-override table"; when default-constructed,
    "{static-library, header} = true, all others false". *)
Record EmitOptions := mkEmitOptions {
  emit_o : bool;
  emit_h : bool;
  emit_cpp : bool;
  emit_assembly : bool;
  emit_bitcode : bool;
  emit_stmt : bool;
  emit_stmt_html : bool;
  emit_static_library : bool;
  extensions : gmap string string
}.

Definition EmitOptions_default : EmitOptions :=
  {| emit_o := false; emit_h := true; emit_cpp := false;
     emit_assembly := false; emit_bitcode := false; emit_stmt := false;
     emit_stmt_html := false; emit_static_library := true;
     extensions := ∅ |}.

(** [Outputs] (Outputs.h): one file name per artifact kind, the empty
    string when the kind is not produced. *)
Record Outputs := mkOutputs {
  object_name : string;
  assembly_name : string;
  bitcode_name : string;
  c_header_name : string;
  c_source_name : string;
  stmt_name : string;
  stmt_html_name : string;
  static_library_name : string
}.

Definition Outputs_default : Outputs :=
  {| object_name := ""; assembly_name := ""; bitcode_name := "";
     c_header_name := ""; c_source_name := ""; stmt_name := "";
     stmt_html_name := ""; static_library_name := "" |}.

End Halide.

(* ===================================================================== *)
(** ** Artifact planning *)
(* ===================================================================== *)

Module ArtifactPlanner.
Import Halide.

(** [std::string get_extension(const std::string& def, const EmitOptions&)] *)
Definition get_extension (def : string) (options : EmitOptions) : string :=
  match extensions options !! def with
  | Some replacement => replacement
  | None => def
  end.

(** [Outputs compute_outputs(const Target&, const std::string &base_path,
    const EmitOptions&)].  Each [if (options.emit_x)] assigns one field of
    the default-constructed [output_files]. *)
Definition compute_outputs (target : Target) (base_path : string)
    (options : EmitOptions) : Outputs :=
  let is_windows_coff :=
    bool_decide (os target = Windows) && negb (has_feature target MinGW) in
  {| object_name :=
       if emit_o options then
         if bool_decide (arch target = PNaCl) then
           base_path +:+ get_extension ".bc" options
         else if is_windows_coff then
           base_path +:+ get_extension ".obj" options
         else
           base_path +:+ get_extension ".o" options
       else "";
     assembly_name :=
       if emit_assembly options
       then base_path +:+ get_extension ".s" options else "";
     bitcode_name :=
       if emit_bitcode options
       then base_path +:+ get_extension ".bc" options else "";
     c_header_name :=
       if emit_h options
       then base_path +:+ get_extension ".h" options else "";
     c_source_name :=
       if emit_cpp options
       then base_path +:+ get_extension ".cpp" options else "";
     stmt_name :=
       if emit_stmt options
       then base_path +:+ get_extension ".stmt" options else "";
     stmt_html_name :=
       if emit_stmt_html options
       then base_path +:+ get_extension ".html" options else "";
     static_library_name :=
       if emit_static_library options then
         if is_windows_coff then
           base_path +:+ get_extension ".lib" options
         else
           base_path +:+ get_extension ".a" options
       else "" |}.

(** All eight artifact kinds are requested. *)
Definition emits_all (options : EmitOptions) : Prop :=
  emit_o options = true ∧ emit_h options = true ∧ emit_cpp options = true ∧
  emit_assembly options = true ∧ emit_bitcode options = true ∧
  emit_stmt options = true ∧ emit_stmt_html options = true ∧
  emit_static_library options = true.

(** The options that request every kind, with a given override table. *)
Definition emit_everything (table : gmap string string) : EmitOptions :=
  {| emit_o := true; emit_h := true; emit_cpp := true;
     emit_assembly := true; emit_bitcode := true; emit_stmt := true;
     emit_stmt_html := true; emit_static_library := true;
     extensions := table |}.

End ArtifactPlanner.

(* ===================================================================== *)
(** ** Generator instances *)
(* ===================================================================== *)

Module Generator.
Import Halide NameValidator.

(** *** Values of the surrounding library *)

(** [Halide::Type], as far as this unit constructs it (the entries of
    [get_halide_type_enum_map]). *)
Inductive Type_ := Bool | Int (bits : N) | UInt (bits : N) | Float (bits : N).

(** [const std::map<std::string, Halide::Type> &get_halide_type_enum_map()] *)
Definition get_halide_type_enum_map : gmap string Type_ :=
  list_to_map
    [ ("bool", Bool); ("int8", Int 8); ("int16", Int 16); ("int32", Int 32);
      ("uint8", UInt 8); ("uint16", UInt 16); ("uint32", UInt 32);
      ("float32", Float 32); ("float64", Float 64) ].

(** [Expr] is a handle into the expression IR, which this unit only passes
    around: either the undefined handle [Expr()] or some defined node. *)
Inductive Expr := Expr_undefined | Expr_node (id : nat).

(** [Internal::Parameter] (a reserved word here, hence the underscore),
    built by
    [Parameter(type, is_buffer, dimensions, name, is_explicit_name,
    register_instance)]. *)
Record Parameter_ := mkParameter {
  type : Type_;
  is_buffer : bool;
  dimensions : Z;
  name : string;
  is_explicit_name : bool;
  get_scalar_expr : Expr;
  get_min_value : Expr;
  get_max_value : Expr
}.

Definition Parameter_make (t : Type_) (is_buf : bool) (dims : Z) (n : string)
    (explicit : bool) : Parameter_ :=
  {| type := t; is_buffer := is_buf; dimensions := dims; name := n;
     is_explicit_name := explicit; get_scalar_expr := Expr_undefined;
     get_min_value := Expr_undefined; get_max_value := Expr_undefined |}.

Inductive ArgumentKind := InputScalar | InputBuffer | OutputBuffer.

(** [Halide::Argument(name, kind, type, dimensions, def, min, max)] *)
Record Argument := mkArgument {
  arg_name : string;
  arg_kind : ArgumentKind;
  arg_type : Type_;
  arg_dimensions : Z;
  arg_def : Expr;
  arg_min : Expr;
  arg_max : Expr
}.

(** [Argument to_argument(const Internal::Parameter &param)] *)
Definition to_argument (param : Parameter_) : Argument :=
  let '(def, min, max) :=
    if negb (is_buffer param)
    then (get_scalar_expr param, get_min_value param, get_max_value param)
    else (Expr_undefined, Expr_undefined, Expr_undefined) in
  mkArgument (name param)
    (if is_buffer param then InputBuffer else InputScalar)
    (type param) (dimensions param) def min max.

(** The pair ([expr_], [func_]) of a [GeneratorInputBase] after
    [init_internals]: a buffer input gets [expr_ = Expr()] and a [Func]
    named [name() + "_im"] defined over implicit variables as a call to the
    parameter; a scalar input gets a variable expression and [Func()]. *)
Inductive InputBinding :=
  | Unbound
  | BufferAccess (func_name : string) (implicit_vars : list nat)
      (callee : Parameter_)
  | ScalarVariable (t : Type_) (var_name : string) (param : Parameter_).

(** [GeneratorInputBase].  [type_param] and [dimension_param] are the
    optional overrides tested by [init_internals], read here as the values
    they dereference to. *)
Record GeneratorInputBase := mkInput {
  parameter_ : Parameter_;
  type_param : option Type_;
  dimension_param : option Z;
  binding : InputBinding
}.

(** [GeneratorInputBase::Kind] *)
Inductive InputKind := Scalar | Function.

#[global] Instance InputKind_eq_dec : EqDecision InputKind.
Proof. solve_decision. Defined.

(** [GeneratorInputBase::GeneratorInputBase(const std::string &n, Type t,
    Kind kind, int dimensions)]: the wrapped parameter is explicitly named
    and is a buffer exactly when [kind == Function]. *)
Definition GeneratorInputBase_new (n : string) (t : Type_) (kind : InputKind)
    (dims : Z) : GeneratorInputBase :=
  {| parameter_ := Parameter_make t (bool_decide (kind = Function)) dims n true;
     type_param := None; dimension_param := None; binding := Unbound |}.

(** [GeneratorInputBase::name()] and [GeneratorInputBase::type()] read the
    wrapped parameter. *)
Definition input_name (i : GeneratorInputBase) : string := name (parameter_ i).
Definition input_type (i : GeneratorInputBase) : Type_ := type (parameter_ i).

(** [void GeneratorInputBase::init_internals()] *)
Definition init_internals (i : GeneratorInputBase) : GeneratorInputBase :=
  if is_buffer (parameter_ i) then
    let parameter' :=
      match type_param i, dimension_param i with
      | Some t, Some d => Parameter_make t true d (input_name i) true
      | Some t, None =>
          Parameter_make t true (dimensions (parameter_ i)) (input_name i) true
      | None, Some d => Parameter_make (input_type i) true d (input_name i) true
      | None, None => parameter_ i
      end in
    {| parameter_ := parameter';
       type_param := type_param i;
       dimension_param := dimension_param i;
       binding :=
         BufferAccess (input_name i +:+ "_im")
           (seq 0 (Z.to_nat (dimensions parameter'))) parameter' |}
  else
    {| parameter_ := parameter_ i;
       type_param := type_param i;
       dimension_param := dimension_param i;
       binding := ScalarVariable (input_type i) (input_name i) (parameter_ i) |}.

(** The two error classes raised by [user_assert]/[user_error] and
    [internal_assert]. *)
Inductive error := user_error (msg : string) | internal_error (msg : string).

Definition is_user_error (e : error) : Prop := ∃ msg, e = user_error msg.

Inductive LinkageType := External | Internal.

(** *** What a concrete generator supplies

    [GeneratorParamBase::from_string] and [to_string] are pure virtual; the
    value a configuration parameter holds is whatever its subclass stores.
    [from_string] either yields the new value or raises. *)
Class ParamCodec := {
  GPValue : Type;
  from_string : GPValue → string → error + GPValue;
  to_string : GPValue → string
}.

(** [GeneratorParamBase]: the [const std::string name] member and the state
    of the subclass. *)
Record GeneratorParamBase `{ParamCodec} := mkGeneratorParam {
  gp_name : string;
  gp_value : GPValue
}.

(** [GeneratorBase::build_pipeline] is virtual as well.  It reads the member
    objects of the instance and, as the comment in [build_module] says, "may
    mutate the Params/ImageParams (but not Inputs)": it returns the pipeline
    (or raises) together with the new contents of the [Param] members.
    Members are overwritten in place, never created or destroyed.  The
    [target] member read by [build_module] is a configuration parameter;
    [get_target] decodes it.  [pipeline_outputs] stands for
    [Pipeline::outputs()], each [Func] given by its [output_types()] and
    its [dimensions()]. *)
Class PipelineBuilder `{ParamCodec} := {
  Pipeline : Type;
  build_pipeline :
    list Parameter_ → list GeneratorInputBase → list GeneratorParamBase →
    (error + Pipeline) * list Parameter_;
  get_target : list GeneratorParamBase → Target;
  pipeline_outputs : Pipeline → list (list Type_ * Z);
  build_pipeline_layout : ∀ ps inputs gps,
    length (build_pipeline ps inputs gps).2 = length ps
}.

(** The categories of [ObjectInstanceRegistry] this unit scans for. *)
Inductive Kind := FilterParam | GeneratorInput | GeneratorParam.

(** Calls that leave the instance, in program order. *)
Inductive event :=
  | instances_in_range_call (kind : Kind)
  | build_pipeline_call.

(** [GeneratorParamValues] is [std::map<std::string, std::string>]. *)
Abbreviation GeneratorParamValues := (gmap string string).

Section Instance.
Context `{!ParamCodec} `{!PipelineBuilder}.

(** [Pipeline::compile_to_module(args, fn_name, target, linkage)] yields an
    opaque [Module]; it is identified with the request that produced it. *)
Record Module_ := compile_to_module {
  module_pipeline : Pipeline;
  module_args : list Argument;
  module_name : string;
  module_target : Target;
  module_linkage : LinkageType
}.

(** A [GeneratorBase] object.  The [mem_*] lists are the member objects that
    [ObjectInstanceRegistry] finds inside the instance's extent
    [[this, this + size)], one list per category; a pointer to such an object
    is its position in the list.  The remaining fields are the data members
    of the class, then the trace of outgoing calls. *)
Record GeneratorBase := mkGeneratorBase {
  mem_params : list Parameter_;
  mem_inputs : list GeneratorInputBase;
  mem_gparams : list GeneratorParamBase;
  params_built : bool;
  filter_params : list nat;
  filter_inputs : list nat;
  generator_params : gmap string nat;
  log : list event
}.

(** [GeneratorBase::GeneratorBase(size, introspection_helper)] for an object
    whose extent holds the given members. *)
Definition GeneratorBase_new (ps : list Parameter_)
    (inputs : list GeneratorInputBase) (gps : list GeneratorParamBase)
    : GeneratorBase :=
  {| mem_params := ps; mem_inputs := inputs; mem_gparams := gps;
     params_built := false; filter_params := []; filter_inputs := [];
     generator_params := ∅; log := [] |}.

Definition set_mem_params (ps : list Parameter_) (g : GeneratorBase) :=
  mkGeneratorBase ps (mem_inputs g) (mem_gparams g) (params_built g)
    (filter_params g) (filter_inputs g) (generator_params g) (log g).
Definition set_mem_inputs (inputs : list GeneratorInputBase) (g : GeneratorBase) :=
  mkGeneratorBase (mem_params g) inputs (mem_gparams g) (params_built g)
    (filter_params g) (filter_inputs g) (generator_params g) (log g).
Definition set_mem_gparams (gps : list GeneratorParamBase) (g : GeneratorBase) :=
  mkGeneratorBase (mem_params g) (mem_inputs g) gps (params_built g)
    (filter_params g) (filter_inputs g) (generator_params g) (log g).
Definition set_params_built (b : bool) (g : GeneratorBase) :=
  mkGeneratorBase (mem_params g) (mem_inputs g) (mem_gparams g) b
    (filter_params g) (filter_inputs g) (generator_params g) (log g).
Definition set_filter_params (l : list nat) (g : GeneratorBase) :=
  mkGeneratorBase (mem_params g) (mem_inputs g) (mem_gparams g)
    (params_built g) l (filter_inputs g) (generator_params g) (log g).
Definition set_filter_inputs (l : list nat) (g : GeneratorBase) :=
  mkGeneratorBase (mem_params g) (mem_inputs g) (mem_gparams g)
    (params_built g) (filter_params g) l (generator_params g) (log g).
Definition set_generator_params (m : gmap string nat) (g : GeneratorBase) :=
  mkGeneratorBase (mem_params g) (mem_inputs g) (mem_gparams g)
    (params_built g) (filter_params g) (filter_inputs g) m (log g).
Definition set_log (l : list event) (g : GeneratorBase) :=
  mkGeneratorBase (mem_params g) (mem_inputs g) (mem_gparams g)
    (params_built g) (filter_params g) (filter_inputs g)
    (generator_params g) l.

(** *** Methods run in a state-and-exception monad

    A method either returns or raises; in both cases the object it was
    called on survives with whatever was written before. *)
Definition M (A : Type) : Type := GeneratorBase → (error + A) * GeneratorBase.

#[global] Instance M_ret : MRet M := λ A a g, (inr a, g).

#[global] Instance M_bind : MBind M := λ A B k m g,
  match m g with
  | (inl e, g') => (inl e, g')
  | (inr a, g') => k a g'
  end.

Definition raise {A} (e : error) : M A := λ g, (inl e, g).
Definition gets {A} (f : GeneratorBase → A) : M A := λ g, (inr (f g), g).
Definition modify (f : GeneratorBase → GeneratorBase) : M unit :=
  λ g, (inr tt, f g).

Definition user_assert (cond : bool) (msg : string) : M unit :=
  if cond then mret tt else raise (user_error msg).

Definition internal_assert (cond : bool) (msg : string) : M unit :=
  if cond then mret tt else raise (internal_error msg).

Definition trace (e : event) : M unit := modify (λ g, set_log (log g ++ [e]) g).

(** [ObjectInstanceRegistry::instances_in_range(this, size, kind)]: the
    addresses of all member objects of that category, in address order. *)
Definition instances_in_range (kind : Kind) : M (list nat) :=
  trace (instances_in_range_call kind);;
  g ← gets id;
  mret (seq 0 (match kind with
               | FilterParam => length (mem_params g)
               | GeneratorInput => length (mem_inputs g)
               | GeneratorParam => length (mem_gparams g)
               end)).

(** Dereferencing a pointer.  An address that designates no member object
    is what [internal_assert(param != nullptr)] guards against. *)
Definition deref {A} (mem : GeneratorBase → list A) (v : nat) : M A :=
  g ← gets id;
  match mem g !! v with
  | Some obj => mret obj
  | None => raise (internal_error "param != nullptr")
  end.

(** [for (auto p : filter_params) user_assert(p->name() != param->name())] *)
Fixpoint check_duplicate_param (ps : list nat) (param_name : string) : M unit :=
  match ps with
  | [] => mret tt
  | p :: ps' =>
      q ← deref mem_params p;
      user_assert (negb (String.eqb (name q) param_name))
        ("Duplicate Param name: " +:+ param_name);;
      check_duplicate_param ps' param_name
  end.

(** [for (auto v : vf)], first loop of [build_params]. *)
Fixpoint scan_filter_params (vf : list nat) : M unit :=
  match vf with
  | [] => mret tt
  | v :: vf' =>
      param ← deref mem_params v;
      user_assert (is_explicit_name param)
        ("Params in Generators must have explicit names: " +:+ name param);;
      user_assert (is_valid_name (name param))
        ("Invalid Param name: " +:+ name param);;
      ps ← gets filter_params;
      check_duplicate_param ps (name param);;
      modify (λ g, set_filter_params (filter_params g ++ [v]) g);;
      scan_filter_params vf'
  end.

(** [for (auto i : filter_inputs) user_assert(i->name() != input->name())] *)
Fixpoint check_duplicate_input (ins : list nat) (in_name : string) : M unit :=
  match ins with
  | [] => mret tt
  | i :: ins' =>
      q ← deref mem_inputs i;
      user_assert (negb (String.eqb (input_name q) in_name))
        ("Duplicate Input name: (" +:+ in_name +:+ ")" +:+ nl);;
      check_duplicate_input ins' in_name
  end.

(** [for (auto v : vi)], second loop of [build_params]. *)
Fixpoint scan_inputs (vi : list nat) : M unit :=
  match vi with
  | [] => mret tt
  | v :: vi' =>
      input ← deref mem_inputs v;
      user_assert (is_valid_name (input_name input))
        ("Invalid Input name: (" +:+ input_name input +:+ ")" +:+ nl);;
      ins ← gets filter_inputs;
      check_duplicate_input ins (input_name input);;
      modify (λ g, set_filter_inputs (filter_inputs g ++ [v]) g);;
      scan_inputs vi'
  end.

(** [for (auto v : vg)], third loop of [build_params]. *)
Fixpoint scan_generator_params (vg : list nat) : M unit :=
  match vg with
  | [] => mret tt
  | v :: vg' =>
      param ← deref mem_gparams v;
      user_assert (is_valid_name (gp_name param))
        ("Invalid GeneratorParam name: " +:+ gp_name param);;
      gps ← gets generator_params;
      user_assert (bool_decide (gps !! gp_name param = None))
        ("Duplicate GeneratorParam name: " +:+ gp_name param);;
      modify (λ g, set_generator_params
                     (<[gp_name param := v]> (generator_params g)) g);;
      scan_generator_params vg'
  end.

Definition inputs_with_params_error : error :=
  user_error
    ("Input<> may not be used with Param<> or ImageParam in Generators." +:+ nl).

(** [void GeneratorBase::build_params()] *)
Definition build_params : M unit :=
  built ← gets params_built;
  if negb built then
    vf ← instances_in_range FilterParam;
    scan_filter_params vf;;
    vi ← instances_in_range GeneratorInput;
    scan_inputs vi;;
    g ← gets id;
    (if bool_decide (0 < length (filter_params g)) &&
        bool_decide (0 < length (filter_inputs g))
     then raise inputs_with_params_error else mret tt);;
    vg ← instances_in_range GeneratorParam;
    scan_generator_params vg;;
    modify (set_params_built true)
  else mret tt.

(** The four assignments that open [rebuild_params]. *)
Definition reset_params (g : GeneratorBase) : GeneratorBase :=
  set_generator_params ∅
    (set_filter_params [] (set_filter_inputs [] (set_params_built false g))).

(** [void GeneratorBase::rebuild_params()] *)
Definition rebuild_params : M unit :=
  modify reset_params;;
  build_params.

(** [void GeneratorBase::init_inputs()]: [input->init_internals()] rewrites
    the input object in place. *)
Fixpoint init_inputs_loop (ins : list nat) : M unit :=
  match ins with
  | [] => mret tt
  | i :: ins' =>
      input ← deref mem_inputs i;
      modify (λ g, set_mem_inputs (<[i := init_internals input]> (mem_inputs g)) g);;
      init_inputs_loop ins'
  end.

Definition init_inputs : M unit :=
  ins ← gets filter_inputs;
  init_inputs_loop ins.

(** The two [push_back] loops of [get_filter_arguments]. *)
Fixpoint arguments_of_params (ps : list nat) : M (list Argument) :=
  match ps with
  | [] => mret []
  | p :: ps' =>
      param ← deref mem_params p;
      rest ← arguments_of_params ps';
      mret (to_argument param :: rest)
  end.

Fixpoint arguments_of_inputs (ins : list nat) : M (list Argument) :=
  match ins with
  | [] => mret []
  | i :: ins' =>
      input ← deref mem_inputs i;
      rest ← arguments_of_inputs ins';
      mret (to_argument (parameter_ input) :: rest)
  end.

(** [std::vector<Argument> GeneratorBase::get_filter_arguments()] *)
Definition get_filter_arguments : M (list Argument) :=
  build_params;;
  init_inputs;;
  ps ← gets filter_params;
  from_params ← arguments_of_params ps;
  ins ← gets filter_inputs;
  from_inputs ← arguments_of_inputs ins;
  mret (from_params ++ from_inputs).

(** The loop of [get_generator_param_values], over the entries of
    [generator_params] by increasing key. *)
Fixpoint collect_values (entries : list (string * nat))
    (results : GeneratorParamValues) : M GeneratorParamValues :=
  match entries with
  | [] => mret results
  | key_value :: entries' =>
      param ← deref mem_gparams key_value.2;
      collect_values entries'
        (<[gp_name param := to_string (gp_value param)]> results)
  end.

(** [GeneratorParamValues GeneratorBase::get_generator_param_values()] *)
Definition get_generator_param_values : M GeneratorParamValues :=
  build_params;;
  gps ← gets generator_params;
  collect_values (in_order gps) ∅.

Definition no_such_param_error (key : string) : error :=
  user_error ("Generator has no GeneratorParam named: " +:+ key).

(** One iteration of the loop of [set_generator_param_values]:
    [param->second->from_string(value)] overwrites the value held by the
    object that [generator_params] points to. *)
Definition set_one_value (key value : string) : M unit :=
  gps ← gets generator_params;
  match gps !! key with
  | None => raise (no_such_param_error key)
  | Some ptr =>
      param ← deref mem_gparams ptr;
      match from_string (gp_value param) value with
      | inl e => raise e
      | inr v' =>
          modify (λ g, set_mem_gparams
                         (<[ptr := mkGeneratorParam _ (gp_name param) v']>
                            (mem_gparams g)) g)
      end
  end.

Fixpoint set_values (entries : list (string * string)) : M unit :=
  match entries with
  | [] => mret tt
  | key_value :: entries' =>
      set_one_value key_value.1 key_value.2;;
      set_values entries'
  end.

(** [void GeneratorBase::set_generator_param_values(const GeneratorParamValues &)] *)
Definition set_generator_param_values (params : GeneratorParamValues) : M unit :=
  build_params;;
  set_values (in_order params).

(** The call [build_pipeline()]: it may raise, and it may leave the [Param]
    members overwritten either way. *)
Definition run_build_pipeline : M Pipeline :=
  λ g, let '(r, ps') :=
         build_pipeline (mem_params g) (mem_inputs g) (mem_gparams g) in
       (r, set_mem_params ps' g).

Definition call_build_pipeline : M Pipeline :=
  trace build_pipeline_call;;
  run_build_pipeline.

(** The inner loop of [get_filter_output_types] for one [Func]. *)
Fixpoint push_output_types (types : list Type_) (dims : Z)
    (output_types : list Argument) : list Argument :=
  match types with
  | [] => output_types
  | t :: types' =>
      let name :=
        "result_" +:+
        DecimalString.NilZero.string_of_uint
          (Nat.to_uint (length output_types)) in
      push_output_types types' dims
        (output_types ++
         [mkArgument name OutputBuffer t dims
            Expr_undefined Expr_undefined Expr_undefined])
  end.

(** [std::vector<Argument> GeneratorBase::get_filter_output_types()] *)
Definition get_filter_output_types : M (list Argument) :=
  pipeline ← call_build_pipeline;
  mret (foldl (λ output_types func,
                 push_output_types func.1 func.2 output_types)
          [] (pipeline_outputs pipeline)).

(** [Module GeneratorBase::build_module(const std::string &function_name,
    const LoweredFunc::LinkageType linkage_type)] *)
Definition build_module (function_name : string) (linkage_type : LinkageType)
    : M Module_ :=
  build_params;;
  pipeline ← call_build_pipeline;
  ps ← gets filter_params;
  (if bool_decide (0 < length ps) then rebuild_params else mret tt);;
  args ← get_filter_arguments;
  gps ← gets mem_gparams;
  mret (compile_to_module pipeline args function_name (get_target gps)
          linkage_type).

(** *** Instances that can arise

    An object is constructed and then only touched through its methods;
    a method that raises leaves the object behind as well.  ([emit_filter]
    touches the instance through [build_module] only.) *)
Inductive reachable : GeneratorBase → Prop :=
  | reach_new ps inputs gps :
      reachable (GeneratorBase_new ps inputs gps)
  | reach_build_params g :
      reachable g → reachable (build_params g).2
  | reach_rebuild_params g :
      reachable g → reachable (rebuild_params g).2
  | reach_get_filter_arguments g :
      reachable g → reachable (get_filter_arguments g).2
  | reach_get_generator_param_values g :
      reachable g → reachable (get_generator_param_values g).2
  | reach_set_generator_param_values params g :
      reachable g → reachable (set_generator_param_values params g).2
  | reach_get_filter_output_types g :
      reachable g → reachable (get_filter_output_types g).2
  | reach_build_module fn linkage g :
      reachable g → reachable (build_module fn linkage g).2.

(** *** Vocabulary of the statements *)

(** The names a list of pointers designates. *)
Definition param_names (g : GeneratorBase) (ptrs : list nat) : list string :=
  omap (λ p, name <$> mem_params g !! p) ptrs.

Definition input_names (g : GeneratorBase) (ptrs : list nat) : list string :=
  omap (λ p, input_name <$> mem_inputs g !! p) ptrs.

(** Every pointer of the list designates a member object. *)
Definition in_bounds {A} (mem : list A) (ptrs : list nat) : Prop :=
  Forall (λ p, p < length mem) ptrs.

(** [names] are pairwise distinct and distinct from those [seen] before:
    what the duplicate tests of [build_params] let through. *)
Fixpoint fresh_names (seen names : list string) : Prop :=
  match names with
  | [] => True
  | n :: rest => (n ∉ seen) ∧ fresh_names (seen ++ [n]) rest
  end.

(** What the first loop of [build_params] checks on the objects [vf], given
    the pointers [fp] already in [filter_params]. *)
Definition params_pass (g : GeneratorBase) (fp vf : list nat) : Prop :=
  Forall (λ v, ∃ q, mem_params g !! v = Some q ∧
                    is_explicit_name q = true ∧
                    is_valid_name (name q) = true) vf ∧
  fresh_names (param_names g fp) (param_names g vf).

(** What the second loop of [build_params] checks. *)
Definition inputs_pass (g : GeneratorBase) (fi vi : list nat) : Prop :=
  Forall (λ v, ∃ q, mem_inputs g !! v = Some q ∧
                    is_valid_name (input_name q) = true) vi ∧
  fresh_names (input_names g fi) (input_names g vi).

(** Every entry of the name index points at an object of that name. *)
Definition gp_sound (m : gmap string nat) (gps : list GeneratorParamBase)
    : Prop :=
  ∀ k i, m !! k = Some i → ∃ gp, gps !! i = Some gp ∧ gp_name gp = k.

(** Every object is indexed under its name. *)
Definition gp_complete (m : gmap string nat) (gps : list GeneratorParamBase)
    : Prop :=
  ∀ i gp, gps !! i = Some gp → m !! gp_name gp = Some i.

(** Pointers held by the instance designate member objects, the name index
    is sound, and once [params_built] is set the three containers hold
    exactly the members, free parameters and inputs not both present. *)
Record wf (g : GeneratorBase) : Prop := {
  wf_params : in_bounds (mem_params g) (filter_params g);
  wf_inputs : in_bounds (mem_inputs g) (filter_inputs g);
  wf_sound : gp_sound (generator_params g) (mem_gparams g);
  wf_built : params_built g = true →
    filter_params g = seq 0 (length (mem_params g)) ∧
    filter_inputs g = seq 0 (length (mem_inputs g)) ∧
    (mem_params g = [] ∨ mem_inputs g = []) ∧
    gp_complete (generator_params g) (mem_gparams g)
}.

(** A method keeps the invariant however it ends. *)
Definition preserves {A} (m : M A) : Prop := ∀ g, wf g → wf (m g).2.

(** An error that is a user error or comes out of [from_string]. *)
Definition user_or_codec_error (e : error) : Prop :=
  is_user_error e ∨ ∃ v s, from_string v s = inl e.

(** The Argument list of an instance whose members are [ps] and [inputs]:
    the free parameters, then the inputs after [init_internals]. *)
Definition filter_arguments_of (ps : list Parameter_)
    (inputs : list GeneratorInputBase) : list Argument :=
  (to_argument <$> ps) ++
  ((to_argument ∘ parameter_ ∘ init_internals) <$> inputs).

(** The discovered containers of an instance. *)
Definition discovered (g : GeneratorBase)
    : bool * list nat * list nat * gmap string nat :=
  (params_built g, filter_params g, filter_inputs g, generator_params g).

(** A method that leaves the discovered containers as they are. *)
Definition keeps_discovered {A} (m : M A) : Prop :=
  ∀ g, discovered (m g).2 = discovered g.

(** The methods of an instance other than [rebuild_params] (and
    [build_module], which may call it). *)
Inductive call_without_reset : GeneratorBase → GeneratorBase → Prop :=
  | call_build_params g :
      call_without_reset g (build_params g).2
  | call_get_filter_arguments g :
      call_without_reset g (get_filter_arguments g).2
  | call_get_generator_param_values g :
      call_without_reset g (get_generator_param_values g).2
  | call_set_generator_param_values params g :
      call_without_reset g (set_generator_param_values params g).2
  | call_get_filter_output_types g :
      call_without_reset g (get_filter_output_types g).2.

(** What the first two loops of [build_params] demand of the members:
    free parameters explicitly and validly named, inputs validly named, no
    name twice in either category. *)
Definition names_validated (g : GeneratorBase) : Prop :=
  Forall (λ q, is_explicit_name q = true ∧ is_valid_name (name q) = true)
    (mem_params g) ∧
  NoDup (name <$> mem_params g) ∧
  Forall (λ q, is_valid_name (input_name q) = true) (mem_inputs g) ∧
  NoDup (input_name <$> mem_inputs g).

Definition scans : list event :=
  [ instances_in_range_call FilterParam;
    instances_in_range_call GeneratorInput;
    instances_in_range_call GeneratorParam ].

(** The scans a discovery asks for when it runs to its end. *)
Definition discovery_events (g : GeneratorBase) : list event :=
  if params_built g then [] else scans.

(** The calls [build_module] makes when nothing raises: the discovery if it
    is still due, the pipeline builder, and a second discovery exactly when
    the instance has a free parameter. *)
Definition build_module_schedule (g : GeneratorBase) : list event :=
  discovery_events g ++ [build_pipeline_call] ++
  (if bool_decide (mem_params g = []) then [] else scans).

End Instance.

Arguments Module_ {_ _}.
Arguments GeneratorBase {_}.
Arguments M {_} A.

End Generator.

(* ===================================================================== *)
(** ** A sample generator family

    Configuration parameters that hold a natural number written in decimal
    (the [GeneratorParam<int>] case), and a pipeline builder that leaves the
    members alone.  The concrete instances below are built from it. *)
(* ===================================================================== *)

Module Sample.
Import Halide Generator.

Definition parse_decimal (s : string) : option N :=
  N.of_uint <$> DecimalString.NilZero.uint_of_string s.

#[local] Instance decimal_codec : ParamCodec := {|
  GPValue := N;
  from_string := λ _ s,
    match parse_decimal s with
    | Some n => inr n
    | None => inl (user_error ("Unable to parse: " +:+ s))
    end;
  to_string := λ n, DecimalString.NilZero.string_of_uint (N.to_uint n)
|}.

Definition host_target : Target :=
  {| os := Linux; arch := OtherArch 0; features := [] |}.

Definition windows_target : Target :=
  {| os := Windows; arch := OtherArch 0; features := [] |}.

Definition pnacl_target : Target :=
  {| os := OtherOS 0; arch := PNaCl; features := [] |}.

(** The portable-bitcode architecture paired with a desktop OS. *)
Definition windows_pnacl_target : Target :=
  {| os := Windows; arch := PNaCl; features := [] |}.

Definition linux_pnacl_target : Target :=
  {| os := Linux; arch := PNaCl; features := [] |}.

#[local] Program Instance still_builder : PipelineBuilder := {|
  Pipeline := unit;
  build_pipeline := λ ps _ _, (inr tt, ps);
  get_target := λ _, host_target;
  pipeline_outputs := λ _, [([UInt 8], 2%Z)]
|}.
Next Obligation. reflexivity. Qed.

Definition scalar_param (n : string) : Parameter_ :=
  Parameter_make (Int 32) false 0 n true.

Definition buffer_input (n : string) : GeneratorInputBase :=
  GeneratorInputBase_new n (UInt 8) Function 2.

Definition int_param (n : string) (v : N) : GeneratorParamBase :=
  {| gp_name := n; gp_value := v |}.

(** An instance with two integer configuration parameters. *)
Definition two_params : GeneratorBase :=
  GeneratorBase_new [] [buffer_input "input"]
    [int_param "a" 1; int_param "w" 3].

(** An instance with a free parameter and no input. *)
Definition params_only : GeneratorBase :=
  GeneratorBase_new [scalar_param "a"] [] [int_param "w" 1].

(** An instance that declares a free parameter and an input. *)
Definition mixed : GeneratorBase :=
  GeneratorBase_new [scalar_param "a"] [buffer_input "b"] [int_param "w" 1].

End Sample.

(* ===================================================================== *)
(** ** The registry and the command-line driver *)
(* ===================================================================== *)

Module Driver.
Import Halide NameValidator ArtifactPlanner Generator.

(** Functions of the surrounding library the driver calls:
    [split_string] and [extract_namespaces] (Util.h; the latter returns the
    simple name, its namespace list is dropped by [compute_base_path]), the
    constructor [Target(const std::string &)], which raises on a malformed
    string, and [Target::to_string]. *)
Class Platform := {
  split_string : string → string → list string;
  extract_namespaces : string → string;
  Target_of_string : string → error + Target;
  Target_to_string : Target → string
}.

Section Main.
Context `{!ParamCodec} `{!PipelineBuilder} `{!Platform}.

(** [std::string compute_base_path(output_dir, function_name, file_base_name)] *)
Definition compute_base_path (output_dir function_name file_base_name : string)
    : string :=
  let simple_name := extract_namespaces function_name in
  output_dir +:+ "/" +:+
    (if bool_decide (file_base_name = "") then simple_name else file_base_name).

(** [void compile_module_to_filter(const Module &m, base_path, options)]:
    the call [m.compile(output_files)] it ends with, as the pair of the
    module and the files asked of it. *)
Definition compile_module_to_filter (m : Module_) (base_path : string)
    (options : EmitOptions) : Module_ * Outputs :=
  (m, compute_outputs (module_target m) base_path options).

(** [void GeneratorBase::emit_filter(output_dir, function_name,
    file_base_name, options)] *)
Definition emit_filter (output_dir function_name file_base_name : string)
    (options : EmitOptions) : M (Module_ * Outputs) :=
  let base_path :=
    compute_base_path output_dir function_name file_base_name in
  m ← build_module function_name External;
  mret (compile_module_to_filter m base_path options).

(** [GeneratorFactory::create(params)] is virtual: it returns an instance,
    a null pointer, or raises. *)
Record GeneratorFactory := {
  create : GeneratorParamValues → error + option GeneratorBase
}.

(** [GeneratorRegistry]: the [factories] map (the mutex has no counterpart
    in a sequential run). *)
Abbreviation GeneratorRegistry := (gmap string GeneratorFactory).

(** [GeneratorRegistry::register_factory] *)
Definition register_factory (name : string) (factory : GeneratorFactory)
    (registry : GeneratorRegistry) : error + GeneratorRegistry :=
  if negb (is_valid_name name) then
    inl (user_error ("Invalid Generator name: " +:+ name))
  else if negb (bool_decide (registry !! name = None)) then
    inl (internal_error ("Duplicate Generator name: " +:+ name))
  else inr (<[name := factory]> registry).

(** [GeneratorRegistry::unregister_factory] *)
Definition unregister_factory (name : string) (registry : GeneratorRegistry)
    : error + GeneratorRegistry :=
  if bool_decide (registry !! name = None) then
    inl (internal_error ("Generator not found: " +:+ name))
  else inr (delete name registry).

(** [GeneratorRegistry::create] *)
Definition registry_create (registry : GeneratorRegistry) (name : string)
    (params : GeneratorParamValues) : error + option GeneratorBase :=
  match registry !! name with
  | None => inl (user_error ("Generator not found: " +:+ name))
  | Some factory => create factory params
  end.

(** [GeneratorRegistry::enumerate] *)
Definition enumerate (registry : GeneratorRegistry) : list string :=
  (in_order registry).*1.

(** *** Runs of [generate_filter_main]

    A run ends by returning a status, by [exit], by an exception that leaves
    [main], or in undefined behaviour ([targets[0]] of an empty vector). *)
Inductive outcome :=
  | Exit (status : Z)
  | Uncaught (e : error)
  | Undefined_behaviour.

(** What a run does to the outside, in order.  [compile_multitarget]
    receives the [module_producer] closure, given here by the two variables
    of [main] it captures besides [cerr]. *)
Inductive action :=
  | cerr (text : string)
  | registry_create_call (name : string) (params : GeneratorParamValues)
  | compile_standalone_runtime (output_files : Outputs) (t : Target)
  | module_compile (m : Module_) (output_files : Outputs)
  | compile_multitarget (fn_name : string) (output_files : Outputs)
      (targets : list Target)
      (captured_generator_name : string)
      (captured_generator_args : GeneratorParamValues).

(** A computation inside [main]: the actions so far, and either a value to
    go on with or the way the run ended. *)
Definition Run (A : Type) : Type := (outcome + A) * list action.

#[global] Instance Run_ret : MRet Run := λ A a, (inr a, []).

#[global] Instance Run_bind : MBind Run := λ A B k m,
  match m with
  | (inl o, acts) => (inl o, acts)
  | (inr a, acts) => let '(r, acts') := k a in (r, acts ++ acts')
  end.

Definition perform (a : action) : Run unit := (inr tt, [a]).
Definition stop {A} (o : outcome) : Run A := (inl o, []).

(** A library call that may raise: the exception is not caught in [main]. *)
Definition or_throw {A} (r : error + A) : Run A :=
  match r with
  | inl e => stop (Uncaught e)
  | inr a => mret a
  end.

Definition kUsage : string :=
  "gengen [-g GENERATOR_NAME] [-f FUNCTION_NAME] [-o OUTPUT_DIR] [-r RUNTIME_NAME] [-e EMIT_OPTIONS] [-x EXTENSION_OPTIONS] [-n FILE_BASE_NAME] "
  +:+ "target=target-string[,target-string...] [generator_arg=value [...]]"
  +:+ nl +:+ nl
  +:+ "  -e  A comma separated list of files to emit. Accepted values are "
  +:+ "[assembly, bitcode, cpp, h, html, o, static_library, stmt]. If omitted, default value is [static_library, h]."
  +:+ nl
  +:+ "  -x  A comma separated list of file extension pairs to substitute during file naming, "
  +:+ "in the form [.old=.new[,.old2=.new2]]" +:+ nl.

(** [cerr << kUsage; return 1;] *)
Definition usage_error {A} : Run A := perform (cerr kUsage);; stop (Exit 1).

Definition flags_info_init : gmap string string :=
  list_to_map [ ("-f", ""); ("-g", ""); ("-o", ""); ("-e", ""); ("-n", "");
                ("-x", ""); ("-r", "") ].

(** [argv[i][0] != '-'] (the first byte of an empty argument is the
    terminating zero). *)
Definition is_flag (arg : string) : bool :=
  match arg with
  | String c _ => Ascii.eqb c "-"
  | EmptyString => false
  end.

(** The argument loop [for (int i = 1; i < argc; ++i)] over [argv[i..]]. *)
Fixpoint parse_args (args : list string)
    (flags_info generator_args : gmap string string)
    : Run (gmap string string * gmap string string) :=
  match args with
  | [] => mret (flags_info, generator_args)
  | arg :: rest =>
      if negb (is_flag arg) then
        match split_string arg "=" with
        | [v0; v1] =>
            if bool_decide (v0 = "") || bool_decide (v1 = "") then usage_error
            else parse_args rest flags_info (<[v0 := v1]> generator_args)
        | _ => usage_error
        end
      else
        match flags_info !! arg with
        | Some _ =>
            match rest with
            | [] => usage_error
            | value :: rest' =>
                parse_args rest' (<[arg := value]> flags_info) generator_args
            end
        | None =>
            perform (cerr ("Unknown flag: " +:+ arg +:+ nl));;
            usage_error
        end
  end.

(** The body of [for (const std::string &opt : emit_flags)]. *)
Definition apply_emit_flag (opt : string) (o : EmitOptions)
    : Run EmitOptions :=
  if bool_decide (opt = "assembly") then
    mret (mkEmitOptions (emit_o o) (emit_h o) (emit_cpp o) true
            (emit_bitcode o) (emit_stmt o) (emit_stmt_html o)
            (emit_static_library o) (extensions o))
  else if bool_decide (opt = "bitcode") then
    mret (mkEmitOptions (emit_o o) (emit_h o) (emit_cpp o) (emit_assembly o)
            true (emit_stmt o) (emit_stmt_html o)
            (emit_static_library o) (extensions o))
  else if bool_decide (opt = "stmt") then
    mret (mkEmitOptions (emit_o o) (emit_h o) (emit_cpp o) (emit_assembly o)
            (emit_bitcode o) true (emit_stmt_html o)
            (emit_static_library o) (extensions o))
  else if bool_decide (opt = "html") then
    mret (mkEmitOptions (emit_o o) (emit_h o) (emit_cpp o) (emit_assembly o)
            (emit_bitcode o) (emit_stmt o) true
            (emit_static_library o) (extensions o))
  else if bool_decide (opt = "cpp") then
    mret (mkEmitOptions (emit_o o) (emit_h o) true (emit_assembly o)
            (emit_bitcode o) (emit_stmt o) (emit_stmt_html o)
            (emit_static_library o) (extensions o))
  else if bool_decide (opt = "o") then
    mret (mkEmitOptions true (emit_h o) (emit_cpp o) (emit_assembly o)
            (emit_bitcode o) (emit_stmt o) (emit_stmt_html o)
            (emit_static_library o) (extensions o))
  else if bool_decide (opt = "h") then
    mret (mkEmitOptions (emit_o o) true (emit_cpp o) (emit_assembly o)
            (emit_bitcode o) (emit_stmt o) (emit_stmt_html o)
            (emit_static_library o) (extensions o))
  else if bool_decide (opt = "static_library") then
    mret (mkEmitOptions (emit_o o) (emit_h o) (emit_cpp o) (emit_assembly o)
            (emit_bitcode o) (emit_stmt o) (emit_stmt_html o)
            true (extensions o))
  else if negb (bool_decide (opt = "")) then
    perform (cerr ("Unrecognized emit option: " +:+ opt +:+
      " not one of [assembly, bitcode, cpp, h, html, o, static_library, stmt], ignoring."
      +:+ nl));;
    mret o
  else mret o.

Fixpoint apply_emit_flags (emit_flags : list string) (o : EmitOptions)
    : Run EmitOptions :=
  match emit_flags with
  | [] => mret o
  | opt :: rest => o' ← apply_emit_flag opt o; apply_emit_flags rest o'
  end.

(** The [-e] block: every flag starts as false. *)
Definition parse_emit_options (e_flag : string) : Run EmitOptions :=
  let cleared :=
    mkEmitOptions (emit_o EmitOptions_default) false
      (emit_cpp EmitOptions_default) (emit_assembly EmitOptions_default)
      (emit_bitcode EmitOptions_default) (emit_stmt EmitOptions_default)
      (emit_stmt_html EmitOptions_default) false
      (extensions EmitOptions_default) in
  let emit_flags := split_string e_flag "," in
  if bool_decide (emit_flags = []) || bool_decide (emit_flags = [""]) then
    mret (mkEmitOptions (emit_o cleared) true (emit_cpp cleared)
            (emit_assembly cleared) (emit_bitcode cleared) (emit_stmt cleared)
            (emit_stmt_html cleared) true (extensions cleared))
  else apply_emit_flags emit_flags cleared.

(** The [-x] loop [for (const std::string &x : extension_flags)]. *)
Fixpoint parse_extensions (extension_flags : list string) (o : EmitOptions)
    : Run EmitOptions :=
  match extension_flags with
  | [] => mret o
  | x :: rest =>
      if bool_decide (x = "") then parse_extensions rest o
      else
        match split_string x "=" with
        | [old_ext; new_ext] =>
            parse_extensions rest
              (mkEmitOptions (emit_o o) (emit_h o) (emit_cpp o)
                 (emit_assembly o) (emit_bitcode o) (emit_stmt o)
                 (emit_stmt_html o) (emit_static_library o)
                 (<[old_ext := new_ext]> (extensions o)))
        | _ =>
            perform (cerr ("Malformed -x option: " +:+ x +:+ nl));;
            usage_error
        end
  end.

(** [for (const auto &s : target_strings) targets.push_back(Target(s))] *)
Fixpoint parse_targets (target_strings : list string) : Run (list Target) :=
  match target_strings with
  | [] => mret []
  | s :: rest =>
      t ← or_throw (Target_of_string s);
      ts ← parse_targets rest;
      mret (t :: ts)
  end.

(** The lambda [module_producer]; [build_module(name)] uses the default
    linkage, [LoweredFunc::External]. *)
Definition module_producer (registry : GeneratorRegistry)
    (generator_name : string) (generator_args : GeneratorParamValues)
    (name : string) (target : Target) : Run Module_ :=
  let sub_generator_args :=
    <["target" := Target_to_string target]> generator_args in
  perform (registry_create_call generator_name sub_generator_args);;
  gen ← or_throw (registry_create registry generator_name sub_generator_args);
  match gen with
  | None =>
      perform (cerr ("Unknown generator: " +:+ generator_name +:+ nl));;
      stop (Exit 1)
  | Some g => or_throw (build_module name External g).1
  end.

(** [for (auto name : generator_names) cerr << "    " << name << "\n";] *)
Fixpoint list_names (generator_names : list string) : Run unit :=
  match generator_names with
  | [] => mret tt
  | name :: rest =>
      perform (cerr ("    " +:+ name +:+ nl));;
      list_names rest
  end.

(** The block that settles [generator_name] when the [-g] and [-r] values
    are both empty.  [generator_names[0]] is in range there, the empty
    registry having been turned away just before. *)
Definition resolve_generator_name (generator_names : list string)
    (g_flag runtime_name : string) : Run string :=
  if bool_decide (g_flag = "") && bool_decide (runtime_name = "") then
    if bool_decide (1 < length generator_names) then
      perform (cerr ("-g must be specified if multiple generators are registered:"
                     +:+ nl));;
      list_names generator_names;;
      usage_error
    else
      match generator_names with
      | first :: _ => mret first
      | [] => stop Undefined_behaviour
      end
  else mret g_flag.

(** The two closing blocks of [main], once names, options and targets are
    known. *)
Definition build_runtime (runtime_name output_dir : string)
    (emit_options : EmitOptions) (targets : list Target) : Run unit :=
  if negb (bool_decide (runtime_name = "")) then
    match targets with
    | [t0] =>
        let base_path := compute_base_path output_dir runtime_name "" in
        let output_files := compute_outputs t0 base_path emit_options in
        perform (compile_standalone_runtime output_files t0)
    | _ =>
        perform (cerr "Only one target allowed here");;
        stop (Exit 1)
    end
  else mret tt.

Definition build_generator (registry : GeneratorRegistry)
    (generator_name function_name output_dir file_base_name : string)
    (generator_args : GeneratorParamValues)
    (emit_options : EmitOptions) (targets : list Target) : Run unit :=
  if negb (bool_decide (generator_name = "")) then
    let base_path :=
      compute_base_path output_dir function_name file_base_name in
    match targets with
    | [] => stop Undefined_behaviour
    | t0 :: _ =>
        let output_files := compute_outputs t0 base_path emit_options in
        if bool_decide (1 < length targets) then
          perform (compile_multitarget function_name output_files targets
                     generator_name generator_args)
        else
          m ← module_producer registry generator_name generator_args
                function_name t0;
          perform (module_compile m output_files)
    end
  else mret tt.

(** [generate_filter_main] from the end of the argument loop on, with the
    two maps the loop has filled. *)
Definition main_after_parse (registry : GeneratorRegistry)
    (flags_info generator_args : gmap string string) : Run unit :=
  let runtime_name := flags_info !!! "-r" in
  let generator_names := enumerate registry in
  (if bool_decide (length generator_names = 0) &&
      bool_decide (runtime_name = "")
   then
     perform (cerr ("No generators have been registered and not compiling a standalone runtime"
                    +:+ nl));;
     usage_error
   else mret tt);;
  generator_name ←
    resolve_generator_name generator_names (flags_info !!! "-g") runtime_name;
  let function_name :=
    if bool_decide (flags_info !!! "-f" = "") then generator_name
    else flags_info !!! "-f" in
  let output_dir := flags_info !!! "-o" in
  (if bool_decide (output_dir = "") then
     perform (cerr ("-o must always be specified." +:+ nl));;
     usage_error
   else mret tt);;
  (if bool_decide (generator_args !! "target" = None) then
     perform (cerr ("Target missing" +:+ nl));;
     usage_error
   else mret tt);;
  let file_base_name := flags_info !!! "-n" in
  emit_options ← parse_emit_options (flags_info !!! "-e");
  emit_options ←
    parse_extensions (split_string (flags_info !!! "-x") ",") emit_options;
  let target_string := generator_args !!! "target" in
  targets ← parse_targets (split_string target_string ",");
  build_runtime runtime_name output_dir emit_options targets;;
  build_generator registry generator_name function_name output_dir
    file_base_name generator_args emit_options targets.

(** [int generate_filter_main(int argc, char **argv, std::ostream &cerr)],
    run against the registry as it stands when [main] is entered. *)
Definition generate_filter_main_body (registry : GeneratorRegistry)
    (argv : list string) : Run unit :=
  '(flags_info, generator_args) ← parse_args (tail argv) flags_info_init ∅;
  main_after_parse registry flags_info generator_args.

(** The status [main] ends with and everything it did; falling off the end
    of the body is [return 0]. *)
Definition generate_filter_main (registry : GeneratorRegistry)
    (argv : list string) : outcome * list action :=
  match generate_filter_main_body registry argv with
  | (inl o, acts) => (o, acts)
  | (inr _, acts) => (Exit 0, acts)
  end.

(** The values a run settles on before it starts building, for stating what
    an invocation "gives": the [-g] and [-r] values after flag parsing. *)
Definition flag_value (argv : list string) (flag : string) : option string :=
  match parse_args (tail argv) flags_info_init ∅ with
  | (inr (flags_info, _), _) => Some (flags_info !!! flag)
  | (inl _, _) => None
  end.

(** *** Vocabulary of the statements *)

(** Output on the error stream. *)
Definition is_cerr (a : action) : Prop := ∃ text, a = cerr text.

(** A run that ends as a usage error: it wrote to the error stream only,
    the usage text last, and returned 1. *)
Definition usage_failure {A} (m : Run A) : Prop :=
  m.1 = inl (Exit 1) ∧
  ∃ acts, m.2 = acts ++ [cerr kUsage] ∧ Forall is_cerr acts.

(** The flag was not given on the command line, or given the empty value:
    after the argument loop (if it gets through) its value is empty. *)
Definition not_given (argv : list string) (flag : string) : Prop :=
  ∀ value, flag_value argv flag = Some value → value = "".

(** A finished run that was a usage error. *)
Definition usage_exit (result : outcome * list action) : Prop :=
  result.1 = Exit 1 ∧
  ∃ acts, result.2 = acts ++ [cerr kUsage] ∧ Forall is_cerr acts.

End Main.

End Driver.

(* ===================================================================== *)
(** ** A sample platform and registry for the driver *)
(* ===================================================================== *)

Module SampleDriver.
Import Halide Generator Driver Sample.

(** Splitting at a one-character delimiter (the driver only splits at ["="]
    and [","]); the result always has a last piece. *)
Fixpoint split_at (d : ascii) (s : string) : list string :=
  match s with
  | EmptyString => [EmptyString]
  | String c s' =>
      if Ascii.eqb c d then EmptyString :: split_at d s'
      else match split_at d s' with
           | piece :: rest => String c piece :: rest
           | [] => [String c EmptyString]
           end
  end.

#[local] Instance sample_platform : Platform := {|
  split_string := λ source delim,
    match delim with
    | String d EmptyString => split_at d source
    | _ => [source]
    end;
  extract_namespaces := λ function_name, function_name;
  Target_of_string := λ s,
    if bool_decide (s = "host") then inr host_target
    else if bool_decide (s = "windows") then inr windows_target
    else if bool_decide (s = "pnacl") then inr pnacl_target
    else inl (user_error ("Did not understand Halide target " +:+ s));
  Target_to_string := λ t,
    if bool_decide (os t = Windows) then "windows"
    else if bool_decide (arch t = PNaCl) then "pnacl" else "host"
|}.

(** A factory whose generator has one buffer input and one integer
    configuration parameter. *)
Definition myfilt_factory : @GeneratorFactory decimal_codec :=
  {| create := λ _,
       inr (Some (GeneratorBase_new [] [buffer_input "input"]
                    [int_param "width" 1])) |}.

Definition one_generator : gmap string (@GeneratorFactory decimal_codec) :=
  {[ "myfilt" := myfilt_factory ]}.

Definition two_generators : gmap string (@GeneratorFactory decimal_codec) :=
  <["other" := myfilt_factory]> one_generator.

(** A command line without [-g] and [-r], for one target and for two. *)
Definition plain_argv : list string :=
  ["gengen"; "-o"; "/tmp"; "target=host"].

Definition two_target_argv : list string :=
  ["gengen"; "-o"; "/tmp"; "target=host,windows"].

End SampleDriver.

(* ===================================================================== *)
(** ** Further vocabulary of the statements

    Terms used by the properties of the planner, the instance methods and
    the driver that go beyond the claims above. *)
(* ===================================================================== *)

Module PlannerTerms.
Import Halide ArtifactPlanner.

(** The eight artifact kinds side by side: whether the kind is requested
    and the file name [compute_outputs] has planned for it. *)
Definition planned (options : EmitOptions) (out : Outputs)
    : list (bool * string) :=
  [ (emit_o options, object_name out);
    (emit_assembly options, assembly_name out);
    (emit_bitcode options, bitcode_name out);
    (emit_h options, c_header_name out);
    (emit_cpp options, c_source_name out);
    (emit_stmt options, stmt_name out);
    (emit_stmt_html options, stmt_html_name out);
    (emit_static_library options, static_library_name out) ].

(** The file names of the requested kinds. *)
Definition planned_files (options : EmitOptions) (out : Outputs)
    : list string :=
  (filter (λ a, a.1 = true) (planned options out)).*2.

(** The extensions [compute_outputs] passes to [get_extension]. *)
Definition default_extensions : list string :=
  [".bc"; ".obj"; ".o"; ".s"; ".h"; ".cpp"; ".stmt"; ".html"; ".lib"; ".a"].

(** The same requests with an empty override table. *)
Definition without_overrides (o : EmitOptions) : EmitOptions :=
  mkEmitOptions (emit_o o) (emit_h o) (emit_cpp o) (emit_assembly o)
    (emit_bitcode o) (emit_stmt o) (emit_stmt_html o)
    (emit_static_library o) ∅.

End PlannerTerms.

Module GeneratorTerms.
Import Halide NameValidator Generator.

(** [std::to_string] of a [size_t]. *)
Definition size_to_string (n : nat) : string :=
  DecimalString.NilZero.string_of_uint (Nat.to_uint n).

(** The Argument [get_filter_output_types] pushes as number [i]. *)
Definition result_argument (i : nat) (slot : Type_ * Z) : Argument :=
  mkArgument ("result_" +:+ size_to_string i) OutputBuffer slot.1 slot.2
    Expr_undefined Expr_undefined Expr_undefined.

(** The output types of the [Func]s of a pipeline, one after the other,
    each with the dimensions of its [Func]. *)
Definition output_slots (funcs : list (list Type_ * Z)) : list (Type_ * Z) :=
  funcs ≫= λ func, (λ t, (t, func.2)) <$> func.1.

Section Terms.
Context `{!ParamCodec} `{!PipelineBuilder}.

(** A method leaves the instance related to what it was, however it
    ends. *)
Definition frames (R : relation GeneratorBase) {A} (m : M A) : Prop :=
  ∀ g, R g (m g).2.

(** What an input is declared as: its name and whether it is a buffer. *)
Definition input_signature (i : GeneratorInputBase) : string * bool :=
  (input_name i, is_buffer (parameter_ i)).

(** The same member objects: as many free parameters, the same inputs by
    name and kind, the same configuration parameters by name. *)
Definition members_kept (g g' : GeneratorBase) : Prop :=
  length (mem_params g') = length (mem_params g) ∧
  input_signature <$> mem_inputs g' = input_signature <$> mem_inputs g ∧
  gp_name <$> mem_gparams g' = gp_name <$> mem_gparams g.

(** The same configuration parameters, values included. *)
Definition gparams_kept (g g' : GeneratorBase) : Prop :=
  mem_gparams g' = mem_gparams g.

(** The discovered lists have only been appended to. *)
Definition containers_grow (g g' : GeneratorBase) : Prop :=
  filter_params g `prefix_of` filter_params g' ∧
  filter_inputs g `prefix_of` filter_inputs g'.

(** Once the discovery has run, the inputs carry valid, pairwise distinct
    names. *)
Definition inputs_validated (g : GeneratorBase) : Prop :=
  params_built g = true →
  Forall (λ n, is_valid_name n = true) (input_name <$> mem_inputs g) ∧
  NoDup (input_name <$> mem_inputs g).

Definition keeps_validated {A} (m : M A) : Prop :=
  ∀ g, wf g → inputs_validated g → inputs_validated (m g).2.

(** The same member objects in place: the free parameters as they were,
    the same inputs by name and kind, the same configuration parameters by
    name. *)
Definition members_in_place (g g' : GeneratorBase) : Prop :=
  mem_params g' = mem_params g ∧
  input_signature <$> mem_inputs g' = input_signature <$> mem_inputs g ∧
  gp_name <$> mem_gparams g' = gp_name <$> mem_gparams g.

(** What the first loop of [build_params] demands of free parameters:
    explicit, valid names, none of them twice. *)
Definition params_validated (ps : list Parameter_) : Prop :=
  Forall (λ q, is_explicit_name q = true ∧ is_valid_name (name q) = true) ps ∧
  NoDup (name <$> ps).

(** Once the discovery has run, the configuration parameters carry valid
    names. *)
Definition gparams_validated (g : GeneratorBase) : Prop :=
  params_built g = true →
  Forall (λ n, is_valid_name n = true) (gp_name <$> mem_gparams g).

End Terms.

End GeneratorTerms.

Module DriverTerms.
Import Halide NameValidator ArtifactPlanner Generator Driver.

Section Terms.
Context `{!ParamCodec} `{!PipelineBuilder} `{!Platform}.

(** A computation of [main] that can only [exit] with status 1, and only
    right after writing to the error stream. *)
Definition exits_after_cerr {A} (m : Run A) : Prop :=
  ∀ status, m.1 = inl (Exit status) →
    status = 1%Z ∧ ∃ acts text, m.2 = acts ++ [cerr text].

(** The function name a run works with: the [-f] value, or the generator
    name when [-f] is empty. *)
Definition function_name_of (flags_info : gmap string string)
    (generator_name : string) : string :=
  if bool_decide (flags_info !!! "-f" = "") then generator_name
  else flags_info !!! "-f".

End Terms.

End DriverTerms.

(* ===================================================================== *)
(** * Properties *)
(* ===================================================================== *)

Module NameFacts.
Import NameValidator.

Lemma is_alpha_spec c : is_alpha c = true ↔ ascii_letter c.
Proof.
  unfold is_alpha, ascii_letter, char_ge, char_le.
  rewrite orb_true_iff, !andb_true_iff, !N.leb_le.
  reflexivity.
Qed.

Lemma is_alnum_spec c : is_alnum c = true ↔ word_char c.
Proof.
  unfold is_alnum, word_char, ascii_digit, char_ge, char_le.
  rewrite !orb_true_iff, is_alpha_spec, Ascii.eqb_eq, andb_true_iff, !N.leb_le.
  simpl. tauto.
Qed.

Lemma letter_is_word_char c : ascii_letter c → word_char c.
Proof. intros H. left. exact H. Qed.

Lemma underscore_not_letter : ¬ ascii_letter "_".
Proof. unfold ascii_letter. simpl. lia. Qed.

(** Where ["__"] can sit in a string that starts with [c]. *)
Lemma has_double_underscore_cons c s :
  has_double_underscore (String c s) ↔
  (c = "_"%char ∧ ∃ s', s = String "_" s') ∨ has_double_underscore s.
Proof.
  split.
  - intros (pre & post & Heq). destruct pre as [| p pre]; simpl in Heq.
    + injection Heq as -> ->. left. split; [reflexivity | eauto].
    + injection Heq as -> ->. right. exists pre, post. reflexivity.
  - intros [[-> [s' ->]] | (pre & post & ->)].
    + exists EmptyString, s'. reflexivity.
    + exists (String c pre), post. reflexivity.
Qed.

Lemma has_double_underscore_empty : ¬ has_double_underscore EmptyString.
Proof. intros (pre & post & Heq). destruct pre; discriminate. Qed.

(** The loop invariant of [is_valid_name]: from position [i] on, with
    [prev = n[i-1]]. *)
Lemma valid_from_spec prev s :
  valid_from prev s = true ↔
  (∀ i c, String.get i s = Some c → word_char c) ∧
  ¬ has_double_underscore (String prev s).
Proof.
  revert prev. induction s as [| c s IH]; intros prev; simpl.
  - split; [intros _ | reflexivity]. split; [intros i c; destruct i; discriminate|].
    rewrite has_double_underscore_cons.
    intros [[_ [s' Hs']] | H]; [discriminate | exact (has_double_underscore_empty H)].
  - destruct (is_alnum c) eqn:Hc; simpl.
    + apply is_alnum_spec in Hc.
      destruct (Ascii.eqb c "_" && Ascii.eqb prev "_") eqn:Hu.
      * split; [discriminate|]. intros [_ Hno]. exfalso. apply Hno.
        apply andb_true_iff in Hu as [->%Ascii.eqb_eq ->%Ascii.eqb_eq].
        exists EmptyString, s. reflexivity.
      * rewrite IH. split.
        -- intros [Hall Hno]. split.
           ++ intros [| i] d Hd; simpl in Hd; [congruence | eauto].
           ++ rewrite has_double_underscore_cons.
              intros [[-> [s' Hs']] | H]; [| exact (Hno H)].
              injection Hs' as -> _. discriminate Hu.
        -- intros [Hall Hno]. split.
           ++ intros i d Hd. apply (Hall (S i)). exact Hd.
           ++ intros H. apply Hno. apply has_double_underscore_cons. right. exact H.
    + split; [discriminate|]. intros [Hall _]. exfalso.
      assert (word_char c) as Hw by (apply (Hall 0); reflexivity).
      apply is_alnum_spec in Hw. congruence.
Qed.

Lemma is_valid_name_rules s : is_valid_name s = true ↔ valid_name_rules s.
Proof.
  destruct s as [| c s]; simpl.
  - split; [discriminate | intros [H _ _ _]; congruence].
  - destruct (is_alpha c) eqn:Hc; simpl.
    + apply is_alpha_spec in Hc. rewrite valid_from_spec. split.
      * intros [Hall Hno]. split; [discriminate | | | exact Hno].
        -- intros d Hd. simpl in Hd. congruence.
        -- intros [| i] d Hi Hd; [lia | simpl in Hd; eauto].
      * intros [_ _ Hrest Hno]. split; [| exact Hno].
        intros i d Hd. apply (Hrest (S i)); [lia | exact Hd].
    + split; [discriminate|]. intros [_ Hfirst _ _]. exfalso.
      assert (ascii_letter c) as Hl by (apply Hfirst; reflexivity).
      apply is_alpha_spec in Hl. congruence.
Qed.

(** C1.  [is_valid_name s] is true exactly when [s] is non-empty, starts
    with an ASCII letter, continues with ASCII letters, digits or
    underscores only, and contains no two consecutive underscores; in
    particular it is false when [s] is empty, starts with a non-letter,
    contains a character outside [[A-Za-z0-9_]], or contains ["__"]. *)
Theorem is_valid_name_correct (s : string) :
  (is_valid_name s = true ↔ valid_name_rules s) ∧
  (s = EmptyString
   ∨ (∃ c, String.get 0 s = Some c ∧ ¬ ascii_letter c)
   ∨ (∃ i c, String.get i s = Some c ∧ ¬ word_char c)
   ∨ has_double_underscore s
   → is_valid_name s = false).
Proof.
  split; [apply is_valid_name_rules|].
  intros Hbad. apply not_true_is_false. rewrite is_valid_name_rules.
  intros [Hne Hfirst Hrest Hno].
  destruct Hbad as [-> | [(c & Hc & Hn) | [(i & c & Hc & Hn) | Hd]]].
  - congruence.
  - exact (Hn (Hfirst c Hc)).
  - destruct i as [| i].
    + exact (Hn (letter_is_word_char c (Hfirst c Hc))).
    + apply Hn. apply (Hrest (S i)); [lia | exact Hc].
  - exact (Hno Hd).
Qed.

End NameFacts.

Module PlannerFacts.
Import Halide ArtifactPlanner Sample.

Lemma get_extension_default def options :
  extensions options !! def = None → get_extension def options = def.
Proof. unfold get_extension. intros ->. reflexivity. Qed.

Lemma get_extension_override def replacement options :
  extensions options !! def = Some replacement →
  get_extension def options = replacement.
Proof. unfold get_extension. intros ->. reflexivity. Qed.

(** The kinds whose default extension does not depend on the target. *)
Lemma compute_outputs_fixed_kinds target base_path options :
  extensions options = ∅ → emits_all options →
  let out := compute_outputs target base_path options in
  assembly_name out = base_path +:+ ".s" ∧
  bitcode_name out = base_path +:+ ".bc" ∧
  c_header_name out = base_path +:+ ".h" ∧
  c_source_name out = base_path +:+ ".cpp" ∧
  stmt_name out = base_path +:+ ".stmt" ∧
  stmt_html_name out = base_path +:+ ".html".
Proof.
  intros Hext (_ & Hh & Hcpp & Hs & Hbc & Hstmt & Hhtml & _). simpl.
  rewrite Hh, Hcpp, Hs, Hbc, Hstmt, Hhtml.
  rewrite !get_extension_default by (rewrite Hext; apply lookup_empty).
  repeat split.
Qed.

(** C2.  With an empty override table and every kind requested: a PNaCl
    target gets the object extension [".bc"] whatever its OS, the PNaCl
    test coming first in [compute_outputs]; apart from that a Windows
    target without MinGW gets [".obj"] and [".lib"], and a Linux target
    [".o"] and [".a"], the static library also on a PNaCl target; the six
    other kinds get [".s"], [".bc"], [".h"], [".cpp"], [".stmt"],
    [".html"]. *)
Theorem compute_outputs_default_extensions target base_path options :
  extensions options = ∅ → emits_all options →
  let out := compute_outputs target base_path options in
  (arch target = PNaCl → object_name out = base_path +:+ ".bc") ∧
  (os target = Windows → has_feature target MinGW = false →
     static_library_name out = base_path +:+ ".lib" ∧
     (arch target ≠ PNaCl → object_name out = base_path +:+ ".obj")) ∧
  (os target = Linux →
     static_library_name out = base_path +:+ ".a" ∧
     (arch target ≠ PNaCl → object_name out = base_path +:+ ".o")) ∧
  assembly_name out = base_path +:+ ".s" ∧
  bitcode_name out = base_path +:+ ".bc" ∧
  c_header_name out = base_path +:+ ".h" ∧
  c_source_name out = base_path +:+ ".cpp" ∧
  stmt_name out = base_path +:+ ".stmt" ∧
  stmt_html_name out = base_path +:+ ".html".
Proof.
  intros Hext Hall out.
  pose proof (compute_outputs_fixed_kinds target base_path options Hext Hall)
    as Hfixed.
  destruct Hall as (Ho & _ & _ & _ & _ & _ & _ & Hlib).
  assert (∀ def, get_extension def options = def) as Hdef.
  { intros def. apply get_extension_default. rewrite Hext. apply lookup_empty. }
  split; [| split; [| split; [| exact Hfixed]]].
  - intros Harch. subst out. simpl.
    rewrite Ho, Harch, !Hdef. reflexivity.
  - intros Hos Hmingw. subst out. simpl.
    rewrite Ho, Hlib, Hos, Hmingw, !Hdef. split; [reflexivity|].
    intros Harch. rewrite (bool_decide_eq_false_2 _ Harch). reflexivity.
  - intros Hos. subst out. simpl.
    rewrite Ho, Hlib, Hos, !Hdef. split; [reflexivity|].
    intros Harch. rewrite (bool_decide_eq_false_2 _ Harch). reflexivity.
Qed.

(** The Linux sample target, and the PNaCl architecture on Windows. *)
Lemma compute_outputs_default_extensions_witness :
  extensions (emit_everything ∅) = ∅ ∧ emits_all (emit_everything ∅) ∧
  object_name (compute_outputs host_target "out" (emit_everything ∅))
    = "out.o" ∧
  static_library_name (compute_outputs host_target "out" (emit_everything ∅))
    = "out.a" ∧
  object_name (compute_outputs windows_pnacl_target "out" (emit_everything ∅))
    = "out.bc" ∧
  static_library_name
    (compute_outputs windows_pnacl_target "out" (emit_everything ∅))
    = "out.lib".
Proof.
  assert (emits_all (emit_everything ∅)) as Hall by (repeat split).
  split; [reflexivity|]. split; [exact Hall|].
  destruct (compute_outputs_default_extensions host_target "out"
              (emit_everything ∅) eq_refl Hall) as (_ & _ & Hlinux & _).
  destruct (Hlinux eq_refl) as [Ha Hobj].
  destruct (compute_outputs_default_extensions windows_pnacl_target "out"
              (emit_everything ∅) eq_refl Hall) as (Hbc & Hwin & _).
  destruct (Hwin eq_refl eq_refl) as [Hlib _].
  split; [apply Hobj; discriminate|]. split; [exact Ha|].
  split; [exact (Hbc eq_refl) | exact Hlib].
Defined.

(** C7, counterexample.  On a Linux target of the PNaCl architecture the
    object file is keyed by [".bc"], so the override of [".o"] does not
    reach it. *)
Lemma override_o_on_linux_claim_fails :
  ¬ (∀ target base_path,
       os target = Linux →
       object_name
         (compute_outputs target base_path
            (emit_everything {[ ".o" := ".obj2" ]}))
       = base_path +:+ ".obj2").
Proof.
  intros Hclaim.
  specialize (Hclaim linux_pnacl_target "out" eq_refl).
  vm_compute in Hclaim. discriminate Hclaim.
Qed.

(** C7, amended.  For a Linux target whose architecture is not PNaCl, with
    the override table [{".o" -> ".obj2"}] and every kind requested, the
    object file is [base_path.obj2] and each of the seven other names is
    what it is under the empty table. *)
Theorem compute_outputs_override_o target base_path :
  os target = Linux → arch target ≠ PNaCl →
  let out :=
    compute_outputs target base_path (emit_everything {[ ".o" := ".obj2" ]}) in
  let plain := compute_outputs target base_path (emit_everything ∅) in
  object_name out = base_path +:+ ".obj2" ∧
  object_name plain = base_path +:+ ".o" ∧
  c_header_name out = c_header_name plain ∧
  c_header_name plain = base_path +:+ ".h" ∧
  static_library_name out = static_library_name plain ∧
  static_library_name plain = base_path +:+ ".a" ∧
  assembly_name out = assembly_name plain ∧
  bitcode_name out = bitcode_name plain ∧
  c_source_name out = c_source_name plain ∧
  stmt_name out = stmt_name plain ∧
  stmt_html_name out = stmt_html_name plain.
Proof.
  intros Hos Harch. simpl. rewrite Hos.
  rewrite (bool_decide_eq_false_2 _ Harch). simpl.
  unfold get_extension. simpl.
  rewrite lookup_singleton_eq, !lookup_empty.
  rewrite !lookup_singleton_ne by discriminate.
  repeat split.
Qed.

Lemma compute_outputs_override_o_witness :
  os host_target = Linux ∧ arch host_target ≠ PNaCl ∧
  object_name
    (compute_outputs host_target "out" (emit_everything {[ ".o" := ".obj2" ]}))
  = "out.obj2".
Proof.
  split; [reflexivity|]. split; [discriminate|].
  apply (compute_outputs_override_o host_target "out");
    [reflexivity | discriminate].
Defined.

(** C10.  On a PNaCl target, with the object and bitcode kinds both
    requested, an override of [".bc"] renames both artifacts: the two kinds
    look up the same key. *)
Theorem compute_outputs_bc_override_shared target base_path options
    replacement :
  extensions options !! ".bc" = Some replacement →
  arch target = PNaCl →
  emit_o options = true → emit_bitcode options = true →
  let out := compute_outputs target base_path options in
  object_name out = base_path +:+ replacement ∧
  bitcode_name out = base_path +:+ replacement.
Proof.
  intros Hbc Harch Ho Hb. simpl.
  rewrite Ho, Hb, Harch. simpl.
  rewrite (get_extension_override _ _ _ Hbc). split; reflexivity.
Qed.

Lemma compute_outputs_bc_override_shared_witness :
  let options := emit_everything {[ ".bc" := ".pexe" ]} in
  extensions options !! ".bc" = Some ".pexe" ∧
  arch pnacl_target = PNaCl ∧
  object_name (compute_outputs pnacl_target "out" options) = "out.pexe" ∧
  bitcode_name (compute_outputs pnacl_target "out" options) = "out.pexe".
Proof.
  intros options.
  split; [reflexivity|]. split; [reflexivity|].
  apply (compute_outputs_bc_override_shared pnacl_target "out" options
           ".pexe"); reflexivity.
Defined.

End PlannerFacts.

Module GeneratorFacts.
Import Halide NameValidator Generator.

Section Facts.
Context `{!ParamCodec} `{!PipelineBuilder}.

(** Unfolding one step of the monad. *)
Lemma run_bind {A B} (m : M A) (k : A → M B) g :
  (m ≫= k) g =
  match m g with
  | (inl e, g') => (inl e, g')
  | (inr a, g') => k a g'
  end.
Proof. reflexivity. Qed.

Lemma run_ret {A} (a : A) g : (mret a : M A) g = (inr a, g).
Proof. reflexivity. Qed.

Lemma run_user_assert cond msg g :
  user_assert cond msg g =
  if cond then (inr tt, g) else (inl (user_error msg), g).
Proof. destruct cond; reflexivity. Qed.

Lemma run_deref {A} (mem : GeneratorBase → list A) v g obj :
  mem g !! v = Some obj → deref mem v g = (inr obj, g).
Proof.
  intros Hv. unfold deref. rewrite run_bind. unfold gets. simpl.
  rewrite Hv. reflexivity.
Qed.

Lemma fresh_names_not_seen seen names n :
  fresh_names seen names → n ∈ names → n ∉ seen.
Proof.
  revert seen. induction names as [| m rest IH]; intros seen Hf Hin.
  - inversion Hin.
  - destruct Hf as [Hm Hrest]. apply elem_of_cons in Hin as [-> | Hin].
    + exact Hm.
    + intros Hs. apply (IH _ Hrest Hin). apply elem_of_app. left. exact Hs.
Qed.

Lemma fresh_names_NoDup names : fresh_names [] names ↔ NoDup names.
Proof.
  assert (∀ seen, fresh_names seen names ↔
            NoDup names ∧ ∀ n, n ∈ names → n ∉ seen) as Hgen.
  { induction names as [| m rest IH]; intros seen; simpl.
    - split; [intros _ | done]. split; [constructor | intros n Hn; inversion Hn].
    - rewrite IH, NoDup_cons. split.
      + intros (Hm & Hnd & Hdis). repeat split.
        * intros Hin. apply (Hdis m Hin). apply elem_of_app. right.
          apply list_elem_of_singleton. reflexivity.
        * exact Hnd.
        * intros n [-> | Hin]%elem_of_cons; [exact Hm|].
          intros Hs. apply (Hdis n Hin). apply elem_of_app. left. exact Hs.
      + intros ((Hm & Hnd) & Hdis). repeat split.
        * apply Hdis. left.
        * exact Hnd.
        * intros n Hin [Hs | ->%list_elem_of_singleton]%elem_of_app.
          -- apply (Hdis n); [right; exact Hin | exact Hs].
          -- exact (Hm Hin). }
  rewrite Hgen. split; [intros [Hnd _]; exact Hnd|].
  intros Hnd. split; [exact Hnd | intros n _ Hn; inversion Hn].
Qed.

Lemma check_duplicate_param_run ps nm g :
  in_bounds (mem_params g) ps →
  check_duplicate_param ps nm g =
  if bool_decide (nm ∈ param_names g ps)
  then (inl (user_error ("Duplicate Param name: " +:+ nm)), g)
  else (inr tt, g).
Proof.
  induction ps as [| p ps IH]; intros Hb; [reflexivity|].
  apply Forall_cons in Hb as [Hp Hb].
  destruct (lookup_lt_is_Some_2 _ _ Hp) as [q Hq].
  simpl. rewrite run_bind, (run_deref _ _ _ _ Hq), run_bind, run_user_assert.
  unfold param_names. simpl. rewrite Hq. simpl.
  destruct (String.eqb (name q) nm) eqn:Heq; simpl.
  - apply String.eqb_eq in Heq as ->.
    rewrite bool_decide_eq_true_2 by (left). reflexivity.
  - apply String.eqb_neq in Heq. rewrite (IH Hb).
    fold (param_names g ps).
    destruct (bool_decide (nm ∈ param_names g ps)) eqn:Hin.
    + apply bool_decide_eq_true in Hin.
      rewrite bool_decide_eq_true_2 by (right; exact Hin). reflexivity.
    + apply bool_decide_eq_false in Hin.
      rewrite bool_decide_eq_false_2; [reflexivity|].
      intros [Hh | Ht]%elem_of_cons; [congruence | exact (Hin Ht)].
Qed.

Lemma set_filter_params_id g : set_filter_params (filter_params g) g = g.
Proof. destruct g; reflexivity. Qed.

Lemma set_filter_inputs_id g : set_filter_inputs (filter_inputs g) g = g.
Proof. destruct g; reflexivity. Qed.

Lemma set_generator_params_id g :
  set_generator_params (generator_params g) g = g.
Proof. destruct g; reflexivity. Qed.

Lemma param_names_snoc g fp v q :
  mem_params g !! v = Some q →
  param_names g (fp ++ [v]) = param_names g fp ++ [name q].
Proof.
  intros Hq. unfold param_names. rewrite omap_app. simpl. rewrite Hq.
  reflexivity.
Qed.

(** Two states built from the same fields are equal. *)
Ltac same_state g :=
  repeat match goal with x := _ |- _ => subst x end;
  destruct g; simpl in *; subst; rewrite <- ?app_assoc; reflexivity.

Ltac other_message :=
  let Heq := fresh in
  intros Heq; unfold inputs_with_params_error in Heq; simpl in Heq;
  discriminate Heq.

Lemma scan_filter_params_spec vf : ∀ g,
  in_bounds (mem_params g) vf →
  in_bounds (mem_params g) (filter_params g) →
  ∃ r fp', scan_filter_params vf g = (r, set_filter_params fp' g) ∧
    in_bounds (mem_params g) fp' ∧
    match r with
    | inr _ => fp' = filter_params g ++ vf ∧ params_pass g (filter_params g) vf
    | inl e => is_user_error e ∧ e ≠ inputs_with_params_error ∧
               ¬ params_pass g (filter_params g) vf
    end.
Proof.
  induction vf as [| v vf IH]; intros g Hvf Hfp.
  - exists (inr tt), (filter_params g). rewrite set_filter_params_id.
    split; [reflexivity|]. split; [exact Hfp|]. split.
    + symmetry. apply app_nil_r.
    + split; [constructor | exact I].
  - apply Forall_cons in Hvf as [Hv Hvf].
    destruct (lookup_lt_is_Some_2 _ _ Hv) as [q Hq].
    cbn [scan_filter_params].
    rewrite run_bind, (run_deref _ _ _ _ Hq), run_bind, run_user_assert.
    destruct (is_explicit_name q) eqn:Hexp.
    2:{ exists (inl (user_error
          ("Params in Generators must have explicit names: " +:+ name q))),
          (filter_params g).
        rewrite set_filter_params_id. split; [reflexivity|].
        split; [exact Hfp|]. split; [eexists; reflexivity|].
        split; [other_message|].
        intros [Hall _]. apply Forall_cons in Hall as [(q' & Hq' & He & _) _].
        congruence. }
    rewrite run_bind, run_user_assert.
    destruct (is_valid_name (name q)) eqn:Hval.
    2:{ exists (inl (user_error ("Invalid Param name: " +:+ name q))),
          (filter_params g).
        rewrite set_filter_params_id. split; [reflexivity|].
        split; [exact Hfp|]. split; [eexists; reflexivity|].
        split; [other_message|].
        intros [Hall _]. apply Forall_cons in Hall as [(q' & Hq' & _ & Hn) _].
        congruence. }
    rewrite run_bind. unfold gets at 1. cbn beta iota.
    rewrite run_bind, (check_duplicate_param_run _ _ _ Hfp).
    destruct (bool_decide (name q ∈ param_names g (filter_params g))) eqn:Hdup.
    { apply bool_decide_eq_true in Hdup.
      exists (inl (user_error ("Duplicate Param name: " +:+ name q))),
        (filter_params g).
      rewrite set_filter_params_id. split; [reflexivity|].
      split; [exact Hfp|]. split; [eexists; reflexivity|].
      split; [other_message|].
      intros [_ Hfresh]. unfold param_names in Hfresh at 2. simpl in Hfresh.
      rewrite Hq in Hfresh. simpl in Hfresh. destruct Hfresh as [Hn _].
      exact (Hn Hdup). }
    apply bool_decide_eq_false in Hdup.
    rewrite run_bind. unfold modify at 1. cbn beta iota.
    set (g1 := set_filter_params (filter_params g ++ [v]) g).
    assert (in_bounds (mem_params g1) (filter_params g1)) as Hfp1.
    { subst g1. simpl. apply Forall_app. split; [exact Hfp|].
      apply Forall_singleton. exact Hv. }
    destruct (IH g1 Hvf Hfp1) as (r & fp' & Hrun & Hb' & Hr).
    exists r, fp'. split; [rewrite Hrun; reflexivity|].
    split; [exact Hb'|].
    assert (params_pass g1 (filter_params g1) vf ↔
            params_pass g (filter_params g) (v :: vf)) as Hpass.
    { unfold params_pass. subst g1. simpl.
      change (param_names (set_filter_params (filter_params g ++ [v]) g))
        with (param_names g).
      rewrite (param_names_snoc _ _ _ _ Hq).
      unfold param_names at 4. simpl. rewrite Hq. simpl.
      fold (param_names g vf). rewrite Forall_cons. split.
      - intros [Hall Hfresh]. repeat split; eauto.
      - intros [[_ Hall] [_ Hfresh]]. split; assumption. }
    destruct r as [e | []].
    + destruct Hr as (Hu & Hne & Hnot). repeat split; [exact Hu | exact Hne |].
      rewrite <- Hpass. exact Hnot.
    + destruct Hr as [-> Hp]. split.
      * subst g1. simpl. rewrite <- app_assoc. reflexivity.
      * apply Hpass. exact Hp.
Qed.

Lemma check_duplicate_input_run ins nm g :
  in_bounds (mem_inputs g) ins →
  check_duplicate_input ins nm g =
  if bool_decide (nm ∈ input_names g ins)
  then (inl (user_error ("Duplicate Input name: (" +:+ nm +:+ ")" +:+ nl)), g)
  else (inr tt, g).
Proof.
  induction ins as [| p ps IH]; intros Hb; [reflexivity|].
  apply Forall_cons in Hb as [Hp Hb].
  destruct (lookup_lt_is_Some_2 _ _ Hp) as [q Hq].
  cbn [check_duplicate_input].
  rewrite run_bind, (run_deref _ _ _ _ Hq), run_bind, run_user_assert.
  unfold input_names. simpl. rewrite Hq. simpl.
  destruct (String.eqb (input_name q) nm) eqn:Heq; simpl.
  - apply String.eqb_eq in Heq as ->.
    rewrite bool_decide_eq_true_2 by (left). reflexivity.
  - apply String.eqb_neq in Heq. rewrite (IH Hb).
    fold (input_names g ps).
    destruct (bool_decide (nm ∈ input_names g ps)) eqn:Hin.
    + apply bool_decide_eq_true in Hin.
      rewrite bool_decide_eq_true_2 by (right; exact Hin). reflexivity.
    + apply bool_decide_eq_false in Hin.
      rewrite bool_decide_eq_false_2; [reflexivity|].
      intros [Hh | Ht]%elem_of_cons; [congruence | exact (Hin Ht)].
Qed.

Lemma input_names_snoc g fi v q :
  mem_inputs g !! v = Some q →
  input_names g (fi ++ [v]) = input_names g fi ++ [input_name q].
Proof.
  intros Hq. unfold input_names. rewrite omap_app. simpl. rewrite Hq.
  reflexivity.
Qed.

Lemma scan_inputs_spec vi : ∀ g,
  in_bounds (mem_inputs g) vi →
  in_bounds (mem_inputs g) (filter_inputs g) →
  ∃ r fi', scan_inputs vi g = (r, set_filter_inputs fi' g) ∧
    in_bounds (mem_inputs g) fi' ∧
    match r with
    | inr _ => fi' = filter_inputs g ++ vi ∧ inputs_pass g (filter_inputs g) vi
    | inl e => is_user_error e ∧ e ≠ inputs_with_params_error ∧
               ¬ inputs_pass g (filter_inputs g) vi
    end.
Proof.
  induction vi as [| v vi IH]; intros g Hvi Hfi.
  - exists (inr tt), (filter_inputs g). rewrite set_filter_inputs_id.
    split; [reflexivity|]. split; [exact Hfi|]. split.
    + symmetry. apply app_nil_r.
    + split; [constructor | exact I].
  - apply Forall_cons in Hvi as [Hv Hvi].
    destruct (lookup_lt_is_Some_2 _ _ Hv) as [q Hq].
    cbn [scan_inputs].
    rewrite run_bind, (run_deref _ _ _ _ Hq), run_bind, run_user_assert.
    destruct (is_valid_name (input_name q)) eqn:Hval.
    2:{ exists (inl (user_error
          ("Invalid Input name: (" +:+ input_name q +:+ ")" +:+ nl))),
          (filter_inputs g).
        rewrite set_filter_inputs_id. split; [reflexivity|].
        split; [exact Hfi|]. split; [eexists; reflexivity|].
        split; [other_message|].
        intros [Hall _]. apply Forall_cons in Hall as [(q' & Hq' & Hn) _].
        congruence. }
    rewrite run_bind. unfold gets at 1. cbn beta iota.
    rewrite run_bind, (check_duplicate_input_run _ _ _ Hfi).
    destruct (bool_decide (input_name q ∈ input_names g (filter_inputs g)))
      eqn:Hdup.
    { apply bool_decide_eq_true in Hdup.
      exists (inl (user_error
        ("Duplicate Input name: (" +:+ input_name q +:+ ")" +:+ nl))),
        (filter_inputs g).
      rewrite set_filter_inputs_id. split; [reflexivity|].
      split; [exact Hfi|]. split; [eexists; reflexivity|].
      split; [other_message|].
      intros [_ Hfresh]. unfold input_names in Hfresh at 2. simpl in Hfresh.
      rewrite Hq in Hfresh. simpl in Hfresh. destruct Hfresh as [Hn _].
      exact (Hn Hdup). }
    apply bool_decide_eq_false in Hdup.
    rewrite run_bind. unfold modify at 1. cbn beta iota.
    set (g1 := set_filter_inputs (filter_inputs g ++ [v]) g).
    assert (in_bounds (mem_inputs g1) (filter_inputs g1)) as Hfi1.
    { subst g1. simpl. apply Forall_app. split; [exact Hfi|].
      apply Forall_singleton. exact Hv. }
    destruct (IH g1 Hvi Hfi1) as (r & fi' & Hrun & Hb' & Hr).
    exists r, fi'. split; [rewrite Hrun; reflexivity|].
    split; [exact Hb'|].
    assert (inputs_pass g1 (filter_inputs g1) vi ↔
            inputs_pass g (filter_inputs g) (v :: vi)) as Hpass.
    { unfold inputs_pass. subst g1. simpl.
      change (input_names (set_filter_inputs (filter_inputs g ++ [v]) g))
        with (input_names g).
      rewrite (input_names_snoc _ _ _ _ Hq).
      unfold input_names at 4. simpl. rewrite Hq. simpl.
      fold (input_names g vi). rewrite Forall_cons. split.
      - intros [Hall Hfresh]. repeat split; eauto.
      - intros [[_ Hall] [_ Hfresh]]. split; assumption. }
    destruct r as [e | []].
    + destruct Hr as (Hu & Hne & Hnot). repeat split; [exact Hu | exact Hne |].
      rewrite <- Hpass. exact Hnot.
    + destruct Hr as [-> Hp]. split.
      * subst g1. simpl. rewrite <- app_assoc. reflexivity.
      * apply Hpass. exact Hp.
Qed.

Lemma scan_generator_params_spec vg : ∀ g,
  in_bounds (mem_gparams g) vg →
  gp_sound (generator_params g) (mem_gparams g) →
  ∃ r m', scan_generator_params vg g = (r, set_generator_params m' g) ∧
    gp_sound m' (mem_gparams g) ∧
    generator_params g ⊆ m' ∧
    match r with
    | inr _ => ∀ v, v ∈ vg →
        ∃ gp, mem_gparams g !! v = Some gp ∧ m' !! gp_name gp = Some v
    | inl e => is_user_error e ∧ e ≠ inputs_with_params_error
    end.
Proof.
  induction vg as [| v vg IH]; intros g Hvg Hsound.
  - exists (inr tt), (generator_params g). rewrite set_generator_params_id.
    split; [reflexivity|]. split; [exact Hsound|]. split; [reflexivity|].
    intros v Hv. inversion Hv.
  - apply Forall_cons in Hvg as [Hv Hvg].
    destruct (lookup_lt_is_Some_2 _ _ Hv) as [q Hq].
    cbn [scan_generator_params].
    rewrite run_bind, (run_deref _ _ _ _ Hq), run_bind, run_user_assert.
    destruct (is_valid_name (gp_name q)) eqn:Hval.
    2:{ exists (inl (user_error ("Invalid GeneratorParam name: " +:+ gp_name q))),
          (generator_params g).
        rewrite set_generator_params_id. split; [reflexivity|].
        split; [exact Hsound|]. split; [reflexivity|].
        split; [eexists; reflexivity | other_message]. }
    rewrite run_bind. unfold gets at 1. cbn beta iota.
    rewrite run_bind, run_user_assert.
    destruct (bool_decide (generator_params g !! gp_name q = None)) eqn:Hnew.
    2:{ exists (inl (user_error
          ("Duplicate GeneratorParam name: " +:+ gp_name q))),
          (generator_params g).
        rewrite set_generator_params_id. split; [reflexivity|].
        split; [exact Hsound|]. split; [reflexivity|].
        split; [eexists; reflexivity | other_message]. }
    apply bool_decide_eq_true in Hnew.
    rewrite run_bind. unfold modify at 1. cbn beta iota.
    set (g1 := set_generator_params (<[gp_name q := v]> (generator_params g)) g).
    assert (gp_sound (generator_params g1) (mem_gparams g1)) as Hsound1.
    { subst g1. simpl. intros k i Hk.
      apply lookup_insert_Some in Hk as [[<- <-] | [_ Hk]]; eauto. }
    destruct (IH g1 Hvg Hsound1) as (r & m' & Hrun & Hs' & Hsub & Hr).
    exists r, m'. split; [rewrite Hrun; reflexivity|].
    split; [exact Hs'|].
    assert (generator_params g ⊆ m') as Hsub'.
    { transitivity (generator_params g1); [| exact Hsub].
      subst g1. simpl. apply insert_subseteq. exact Hnew. }
    split; [exact Hsub'|].
    destruct r as [e | []]; [exact Hr|].
    intros w [-> | Hw]%elem_of_cons.
    + exists q. split; [exact Hq|].
      apply (lookup_weaken _ _ _ _ (lookup_insert_eq _ _ _) Hsub).
    + apply Hr. exact Hw.
Qed.

Lemma run_instances_in_range kind g :
  instances_in_range kind g =
  (inr (seq 0 (match kind with
               | FilterParam => length (mem_params g)
               | GeneratorInput => length (mem_inputs g)
               | GeneratorParam => length (mem_gparams g)
               end)),
   set_log (log g ++ [instances_in_range_call kind]) g).
Proof. destruct kind; reflexivity. Qed.

Lemma in_bounds_seq {A} (mem : list A) : in_bounds mem (seq 0 (length mem)).
Proof. apply Forall_forall. intros p Hp. apply elem_of_seq in Hp. lia. Qed.

Lemma build_params_built g :
  params_built g = true → build_params g = (inr tt, g).
Proof.
  intros Hb. unfold build_params. rewrite run_bind. unfold gets. simpl.
  rewrite Hb. reflexivity.
Qed.

(** The run of [build_params] on an instance not yet discovered, by the
    stage at which it ends: in the first loop, in the second loop, at the
    exclusion test, or in (or after) the third loop. *)
Lemma build_params_unbuilt g :
  params_built g = false →
  in_bounds (mem_params g) (filter_params g) →
  in_bounds (mem_inputs g) (filter_inputs g) →
  gp_sound (generator_params g) (mem_gparams g) →
  let vf := seq 0 (length (mem_params g)) in
  let vi := seq 0 (length (mem_inputs g)) in
  let FP := instances_in_range_call FilterParam in
  let GI := instances_in_range_call GeneratorInput in
  let GP := instances_in_range_call GeneratorParam in
  ∃ r b fp' fi' m' ev,
    build_params g =
      (r, mkGeneratorBase (mem_params g) (mem_inputs g) (mem_gparams g)
            b fp' fi' m' (log g ++ ev)) ∧
    in_bounds (mem_params g) fp' ∧ in_bounds (mem_inputs g) fi' ∧
    gp_sound m' (mem_gparams g) ∧
    ((¬ params_pass g (filter_params g) vf ∧
      (∃ e, r = inl e ∧ is_user_error e ∧ e ≠ inputs_with_params_error) ∧
      b = false ∧ fi' = filter_inputs g ∧ m' = generator_params g ∧
      ev = [FP])
     ∨
     (params_pass g (filter_params g) vf ∧
      ¬ inputs_pass g (filter_inputs g) vi ∧
      (∃ e, r = inl e ∧ is_user_error e ∧ e ≠ inputs_with_params_error) ∧
      b = false ∧ fp' = filter_params g ++ vf ∧ m' = generator_params g ∧
      ev = [FP; GI])
     ∨
     (params_pass g (filter_params g) vf ∧
      inputs_pass g (filter_inputs g) vi ∧
      filter_params g ++ vf ≠ [] ∧ filter_inputs g ++ vi ≠ [] ∧
      r = inl inputs_with_params_error ∧
      b = false ∧ fp' = filter_params g ++ vf ∧
      fi' = filter_inputs g ++ vi ∧ m' = generator_params g ∧
      ev = [FP; GI])
     ∨
     (params_pass g (filter_params g) vf ∧
      inputs_pass g (filter_inputs g) vi ∧
      (filter_params g ++ vf = [] ∨ filter_inputs g ++ vi = []) ∧
      fp' = filter_params g ++ vf ∧ fi' = filter_inputs g ++ vi ∧
      generator_params g ⊆ m' ∧ ev = [FP; GI; GP] ∧
      ((∃ e, r = inl e ∧ is_user_error e ∧ e ≠ inputs_with_params_error ∧
             b = false)
       ∨ (r = inr tt ∧ b = true ∧ gp_complete m' (mem_gparams g))))).
Proof.
  intros Hbuilt Hfp Hfi Hsound vf vi FP GI GP.
  unfold build_params. rewrite run_bind. unfold gets at 1. cbn beta iota.
  rewrite Hbuilt. cbn [negb].
  rewrite run_bind, run_instances_in_range. fold vf. fold FP.
  set (g1 := set_log (log g ++ [FP]) g).
  rewrite run_bind.
  destruct (scan_filter_params_spec vf g1) as (r1 & fp1 & Hrun1 & Hb1 & Hr1);
    [apply in_bounds_seq | exact Hfp |].
  rewrite Hrun1.
  destruct r1 as [e1 | []].
  { destruct Hr1 as (Hu & Hne & Hnot).
    exists (inl e1), false, fp1, (filter_inputs g), (generator_params g), [FP].
    split; [same_state g|].
    split; [exact Hb1|]. split; [exact Hfi|]. split; [exact Hsound|].
    left. split; [exact Hnot|]. split; [eauto|]. repeat split. }
  destruct Hr1 as [-> Hpass1]. cbn [filter_params g1 set_log] in Hpass1.
  change (filter_params g1) with (filter_params g) in *.
  change (params_pass g1) with (params_pass g) in Hpass1.
  rewrite run_bind, run_instances_in_range.
  change (length (mem_inputs (set_filter_params (filter_params g ++ vf) g1)))
    with (length (mem_inputs g)). fold vi. fold GI.
  set (g2 := set_log _ _).
  rewrite run_bind.
  destruct (scan_inputs_spec vi g2) as (r2 & fi2 & Hrun2 & Hb2 & Hr2);
    [apply in_bounds_seq | exact Hfi |].
  rewrite Hrun2.
  change (filter_inputs g2) with (filter_inputs g) in *.
  change (inputs_pass g2) with (inputs_pass g) in Hr2.
  change (mem_inputs g2) with (mem_inputs g) in *.
  destruct r2 as [e2 | []].
  { destruct Hr2 as (Hu & Hne & Hnot).
    exists (inl e2), false, (filter_params g ++ vf), fi2,
      (generator_params g), [FP; GI].
    split.
    { same_state g. }
    split; [exact Hb1|]. split; [exact Hb2|]. split; [exact Hsound|].
    right. left. split; [exact Hpass1|]. split; [exact Hnot|].
    split; [eauto|]. repeat split. }
  destruct Hr2 as [-> Hpass2].
  rewrite run_bind. unfold gets at 1. cbn beta iota.
  rewrite run_bind.
  lazymatch goal with
  | |- context [if ?c then raise _ else mret _] => destruct c eqn:Hboth
  end;
  unfold id in Hboth;
  change (filter_params (set_filter_inputs (filter_inputs g ++ vi) g2))
    with (filter_params g ++ vf) in Hboth;
  change (filter_inputs (set_filter_inputs (filter_inputs g ++ vi) g2))
    with (filter_inputs g ++ vi) in Hboth.
  { apply andb_true_iff in Hboth as [Hp Hi].
    apply bool_decide_eq_true in Hp. apply bool_decide_eq_true in Hi.
    exists (inl inputs_with_params_error), false, (filter_params g ++ vf),
      (filter_inputs g ++ vi), (generator_params g), [FP; GI].
    split.
    { same_state g. }
    split; [exact Hb1|]. split; [exact Hb2|]. split; [exact Hsound|].
    right. right. left. split; [exact Hpass1|]. split; [exact Hpass2|].
    split; [intros Heq; rewrite Heq in Hp; simpl in Hp; lia|].
    split; [intros Heq; rewrite Heq in Hi; simpl in Hi; lia|].
    repeat split. }
  assert (filter_params g ++ vf = [] ∨ filter_inputs g ++ vi = []) as Hone.
  { apply andb_false_iff in Hboth as [Hp | Hi].
    - left. apply bool_decide_eq_false in Hp.
      destruct (filter_params g ++ vf); [reflexivity | simpl in Hp; lia].
    - right. apply bool_decide_eq_false in Hi.
      destruct (filter_inputs g ++ vi); [reflexivity | simpl in Hi; lia]. }
  rewrite run_ret, run_bind, run_instances_in_range. fold GP.
  set (g3 := set_log _ _).
  change (length (mem_gparams (set_filter_inputs (filter_inputs g ++ vi) g2)))
    with (length (mem_gparams g)).
  rewrite run_bind.
  destruct (scan_generator_params_spec (seq 0 (length (mem_gparams g))) g3)
    as (r3 & m3 & Hrun3 & Hs3 & Hsub3 & Hr3);
    [apply in_bounds_seq | exact Hsound |].
  rewrite Hrun3.
  change (mem_gparams g3) with (mem_gparams g) in *.
  change (generator_params g3) with (generator_params g) in *.
  destruct r3 as [e3 | []].
  { destruct Hr3 as [Hu Hne].
    exists (inl e3), false, (filter_params g ++ vf), (filter_inputs g ++ vi),
      m3, [FP; GI; GP].
    split.
    { same_state g. }
    split; [exact Hb1|]. split; [exact Hb2|]. split; [exact Hs3|].
    right. right. right.
    split; [exact Hpass1|]. split; [exact Hpass2|]. split; [exact Hone|].
    split; [reflexivity|]. split; [reflexivity|]. split; [exact Hsub3|].
    split; [reflexivity|].
    left. exists e3. repeat split; assumption. }
  exists (inr tt), true, (filter_params g ++ vf), (filter_inputs g ++ vi),
    m3, [FP; GI; GP].
  split.
  { same_state g. }
  split; [exact Hb1|]. split; [exact Hb2|]. split; [exact Hs3|].
  right. right. right.
  split; [exact Hpass1|]. split; [exact Hpass2|]. split; [exact Hone|].
  split; [reflexivity|]. split; [reflexivity|]. split; [exact Hsub3|].
  split; [reflexivity|].
  right. split; [reflexivity|]. split; [reflexivity|].
  intros i gp Hi.
  destruct (Hr3 i) as (gp' & Hgp' & Hm).
  { apply elem_of_seq. apply lookup_lt_Some in Hi. lia. }
  rewrite Hi in Hgp'. injection Hgp' as <-. exact Hm.
Qed.

(** *** The representation invariant of an instance *)

Lemma preserves_bind {A B} (m : M A) (k : A → M B) :
  preserves m → (∀ a, preserves (k a)) → preserves (m ≫= k).
Proof.
  intros Hm Hk g Hg. rewrite run_bind. specialize (Hm g Hg).
  destruct (m g) as [[e | a] g']; simpl in *; [exact Hm|].
  apply Hk. exact Hm.
Qed.

Lemma preserves_ret {A} (a : A) : preserves (mret a : M A).
Proof. intros g Hg. exact Hg. Qed.

Lemma preserves_gets {A} (f : GeneratorBase → A) : preserves (gets f).
Proof. intros g Hg. exact Hg. Qed.

Lemma preserves_raise {A} e : preserves (raise e : M A).
Proof. intros g Hg. exact Hg. Qed.

(** Pointers already held cannot pass the duplicate test again. *)
Lemma params_pass_no_junk g fp :
  in_bounds (mem_params g) fp →
  params_pass g fp (seq 0 (length (mem_params g))) → fp = [].
Proof.
  intros Hb [_ Hfresh]. destruct fp as [| p fp]; [reflexivity|]. exfalso.
  apply Forall_cons in Hb as [Hp _].
  destruct (lookup_lt_is_Some_2 _ _ Hp) as [q Hq].
  apply (fresh_names_not_seen _ _ (name q) Hfresh).
  - apply list_elem_of_omap. exists p. split.
    + apply elem_of_seq. lia.
    + rewrite Hq. reflexivity.
  - apply list_elem_of_omap. exists p. split; [left|].
    rewrite Hq. reflexivity.
Qed.

Lemma inputs_pass_no_junk g fi :
  in_bounds (mem_inputs g) fi →
  inputs_pass g fi (seq 0 (length (mem_inputs g))) → fi = [].
Proof.
  intros Hb [_ Hfresh]. destruct fi as [| p fi]; [reflexivity|]. exfalso.
  apply Forall_cons in Hb as [Hp _].
  destruct (lookup_lt_is_Some_2 _ _ Hp) as [q Hq].
  apply (fresh_names_not_seen _ _ (input_name q) Hfresh).
  - apply list_elem_of_omap. exists p. split.
    + apply elem_of_seq. lia.
    + rewrite Hq. reflexivity.
  - apply list_elem_of_omap. exists p. split; [left|].
    rewrite Hq. reflexivity.
Qed.

Lemma seq_nil_length {A} (l : list A) : seq 0 (length l) = [] → l = [].
Proof. destruct l; [reflexivity | discriminate]. Qed.

Lemma preserves_build_params : preserves build_params.
Proof.
  intros g [Hfp Hfi Hsound Hbuilt].
  destruct (params_built g) eqn:Hb.
  { rewrite (build_params_built g Hb). simpl. split; try assumption.
    rewrite Hb. exact Hbuilt. }
  destruct (build_params_unbuilt g Hb Hfp Hfi Hsound)
    as (r & b & fp' & fi' & m' & ev & Hrun & Hb1 & Hb2 & Hs & Hcases).
  rewrite Hrun. split; simpl; try assumption.
  intros ->.
  destruct Hcases as [(_ & _ & Hf & _) | [(_ & _ & _ & Hf & _) |
    [(_ & _ & _ & _ & _ & Hf & _) |
     (Hp1 & Hp2 & Hone & -> & -> & _ & _ & Hend)]]]; try discriminate Hf.
  destruct Hend as [(e & _ & _ & _ & Hf) | (_ & _ & Hc)]; [discriminate Hf|].
  rewrite (params_pass_no_junk g _ Hfp Hp1) in *.
  rewrite (inputs_pass_no_junk g _ Hfi Hp2) in *.
  simpl in *. split; [reflexivity|]. split; [reflexivity|].
  split; [| exact Hc].
  destruct Hone as [Hz | Hz]; [left | right]; apply seq_nil_length; exact Hz.
Qed.

(** Soundness and completeness of the index only depend on the names. *)
Lemma gp_sound_names m gps :
  gp_sound m gps ↔ ∀ k i, m !! k = Some i → (gp_name <$> gps) !! i = Some k.
Proof.
  unfold gp_sound. split; intros Hs k i Hk; specialize (Hs k i Hk).
  - destruct Hs as (gp & Hgp & <-). rewrite list_lookup_fmap, Hgp. reflexivity.
  - rewrite list_lookup_fmap in Hs. destruct (gps !! i) as [gp |]; [| discriminate].
    exists gp. split; [reflexivity | simpl in Hs; congruence].
Qed.

Lemma gp_complete_names m gps :
  gp_complete m gps ↔
  ∀ i k, (gp_name <$> gps) !! i = Some k → m !! k = Some i.
Proof.
  unfold gp_complete. split.
  - intros Hc i k Hk. rewrite list_lookup_fmap in Hk.
    destruct (gps !! i) as [gp |] eqn:Hgp; [| discriminate].
    simpl in Hk. injection Hk as <-. apply Hc. exact Hgp.
  - intros Hc i gp Hgp. apply Hc. rewrite list_lookup_fmap, Hgp. reflexivity.
Qed.

(** The invariant only looks at the sizes of the member lists, the names of
    the configuration parameters and the containers. *)
Lemma wf_transfer g g' :
  length (mem_params g') = length (mem_params g) →
  length (mem_inputs g') = length (mem_inputs g) →
  gp_name <$> mem_gparams g' = gp_name <$> mem_gparams g →
  params_built g' = params_built g →
  filter_params g' = filter_params g →
  filter_inputs g' = filter_inputs g →
  generator_params g' = generator_params g →
  wf g → wf g'.
Proof.
  intros Hlp Hli Hn Hb Hfp Hfi Hm [Hp Hi Hs Hbuilt].
  split.
  - unfold in_bounds. rewrite Hfp, Hlp. exact Hp.
  - unfold in_bounds. rewrite Hfi, Hli. exact Hi.
  - rewrite Hm. apply gp_sound_names. rewrite Hn. apply gp_sound_names.
    exact Hs.
  - rewrite Hb, Hfp, Hfi, Hlp, Hli, Hm. intros Ht.
    destruct (Hbuilt Ht) as (H1 & H2 & H3 & H4).
    split; [exact H1|]. split; [exact H2|]. split.
    + destruct H3 as [H3 | H3]; [left | right].
      * apply nil_length_inv. rewrite Hlp, H3. reflexivity.
      * apply nil_length_inv. rewrite Hli, H3. reflexivity.
    + apply gp_complete_names. rewrite Hn. apply gp_complete_names. exact H4.
Qed.

Lemma preserves_deref {A} (mem : GeneratorBase → list A) v :
  preserves (deref mem v).
Proof.
  intros g Hg. unfold deref. rewrite run_bind. unfold gets. simpl.
  destruct (mem g !! v); exact Hg.
Qed.

Lemma preserves_trace e : preserves (trace e).
Proof.
  intros g Hg. unfold trace, modify. simpl.
  apply (wf_transfer g); try reflexivity. exact Hg.
Qed.

Lemma preserves_reset : preserves (modify reset_params).
Proof.
  intros g Hg. unfold modify. simpl. split; simpl.
  - constructor.
  - constructor.
  - intros k i Hk. rewrite lookup_empty in Hk. discriminate.
  - discriminate.
Qed.

Lemma preserves_rebuild_params : preserves rebuild_params.
Proof.
  unfold rebuild_params. apply preserves_bind; [apply preserves_reset|].
  intros _. apply preserves_build_params.
Qed.

Lemma preserves_init_inputs_loop ins : preserves (init_inputs_loop ins).
Proof.
  induction ins as [| i ins IH]; [apply preserves_ret|].
  cbn [init_inputs_loop]. apply preserves_bind; [apply preserves_deref|].
  intros input. apply preserves_bind; [| intros _; exact IH].
  intros g Hg. unfold modify. simpl.
  apply (wf_transfer g); try reflexivity; [| exact Hg].
  simpl. apply length_insert.
Qed.

Lemma preserves_arguments_of_params ps : preserves (arguments_of_params ps).
Proof.
  induction ps as [| p ps IH]; [apply preserves_ret|].
  cbn [arguments_of_params]. apply preserves_bind; [apply preserves_deref|].
  intros param. apply preserves_bind; [exact IH|].
  intros rest. apply preserves_ret.
Qed.

Lemma preserves_arguments_of_inputs ins : preserves (arguments_of_inputs ins).
Proof.
  induction ins as [| p ps IH]; [apply preserves_ret|].
  cbn [arguments_of_inputs]. apply preserves_bind; [apply preserves_deref|].
  intros param. apply preserves_bind; [exact IH|].
  intros rest. apply preserves_ret.
Qed.

Lemma preserves_get_filter_arguments : preserves get_filter_arguments.
Proof.
  unfold get_filter_arguments, init_inputs.
  repeat first
    [ apply preserves_build_params | apply preserves_init_inputs_loop
    | apply preserves_arguments_of_params | apply preserves_arguments_of_inputs
    | apply preserves_gets | apply preserves_ret
    | apply preserves_bind | intros ? ].
Qed.

Lemma preserves_collect_values entries results :
  preserves (collect_values entries results).
Proof.
  revert results. induction entries as [| kv entries IH]; intros results;
    [apply preserves_ret|].
  cbn [collect_values]. apply preserves_bind; [apply preserves_deref|].
  intros param. apply IH.
Qed.

Lemma preserves_get_generator_param_values :
  preserves get_generator_param_values.
Proof.
  unfold get_generator_param_values.
  apply preserves_bind; [apply preserves_build_params|]. intros _.
  apply preserves_bind; [apply preserves_gets|]. intros gps.
  apply preserves_collect_values.
Qed.

(** *** Writing configuration values *)

Lemma set_mem_gparams_id g : set_mem_gparams (mem_gparams g) g = g.
Proof. destruct g; reflexivity. Qed.

Lemma set_one_value_spec key value g :
  gp_sound (generator_params g) (mem_gparams g) →
  (generator_params g !! key = None ∧
   set_one_value key value g = (inl (no_such_param_error key), g))
  ∨
  (∃ ptr gp, generator_params g !! key = Some ptr ∧
     mem_gparams g !! ptr = Some gp ∧ gp_name gp = key ∧
     match from_string (gp_value gp) value with
     | inl e => set_one_value key value g = (inl e, g)
     | inr v' =>
         set_one_value key value g =
         (inr tt,
          set_mem_gparams
            (<[ptr := mkGeneratorParam _ key v']> (mem_gparams g)) g)
     end).
Proof.
  intros Hsound.
  assert (set_one_value key value g =
          match generator_params g !! key with
          | None => (inl (no_such_param_error key), g)
          | Some ptr =>
              (param ← deref mem_gparams ptr;
               match from_string (gp_value param) value with
               | inl e => raise e
               | inr v' =>
                   modify (λ g, set_mem_gparams
                                  (<[ptr := mkGeneratorParam _ (gp_name param) v']>
                                     (mem_gparams g)) g)
               end) g
          end) as Hrun.
  { unfold set_one_value. rewrite run_bind. unfold gets. cbn beta iota.
    destruct (generator_params g !! key); reflexivity. }
  rewrite Hrun. clear Hrun.
  destruct (generator_params g !! key) as [ptr |] eqn:Hkey.
  - right. destruct (Hsound key ptr Hkey) as (gp & Hgp & Hname).
    exists ptr, gp. split; [reflexivity|]. split; [exact Hgp|].
    split; [exact Hname|].
    rewrite run_bind, (run_deref _ _ _ _ Hgp).
    destruct (from_string (gp_value gp) value) as [e | v']; [reflexivity|].
    rewrite Hname. reflexivity.
  - left. split; reflexivity.
Qed.

Lemma set_values_spec entries : ∀ g,
  gp_sound (generator_params g) (mem_gparams g) →
  ∃ r gps', set_values entries g = (r, set_mem_gparams gps' g) ∧
    gp_name <$> gps' = gp_name <$> mem_gparams g ∧
    (∀ i gp, mem_gparams g !! i = Some gp → gp_name gp ∉ entries.*1 →
             gps' !! i = Some gp) ∧
    (∀ e, r = inl e → user_or_codec_error e).
Proof.
  induction entries as [| [key value] entries IH]; intros g Hsound.
  - exists (inr tt), (mem_gparams g). rewrite set_mem_gparams_id.
    split; [reflexivity|]. split; [reflexivity|].
    split; [intros i gp Hi _; exact Hi | intros e He; discriminate He].
  - cbn [set_values fst snd]. rewrite run_bind.
    destruct (set_one_value_spec key value g Hsound)
      as [[Hnone Hrun] | (ptr & gp & Hkey & Hgp & Hname & Hrun)].
    + rewrite Hrun. exists (inl (no_such_param_error key)), (mem_gparams g).
      rewrite set_mem_gparams_id. split; [reflexivity|].
      split; [reflexivity|]. split; [intros i gp' Hi _; exact Hi|].
      intros e He. injection He as <-. left. eexists. reflexivity.
    + destruct (from_string (gp_value gp) value) as [e | v'] eqn:Hfs.
      * rewrite Hrun. exists (inl e), (mem_gparams g).
        rewrite set_mem_gparams_id. split; [reflexivity|].
        split; [reflexivity|]. split; [intros i gp' Hi _; exact Hi|].
        intros e' He'. injection He' as <-. right. eauto.
      * rewrite Hrun.
        set (gps1 := <[ptr := mkGeneratorParam _ key v']> (mem_gparams g)).
        set (g1 := set_mem_gparams gps1 g).
        assert (gp_name <$> gps1 = gp_name <$> mem_gparams g) as Hnames.
        { subst gps1. rewrite list_fmap_insert. simpl.
          apply list_insert_id. rewrite list_lookup_fmap, Hgp. simpl.
          rewrite Hname. reflexivity. }
        assert (gp_sound (generator_params g1) (mem_gparams g1)) as Hsound1.
        { subst g1. simpl. apply gp_sound_names. rewrite Hnames.
          apply gp_sound_names. exact Hsound. }
        destruct (IH g1 Hsound1) as (r & gps' & Hrun' & Hn' & Hframe & Herr).
        exists r, gps'. split; [rewrite Hrun'; reflexivity|].
        split; [rewrite Hn'; exact Hnames|]. split; [| exact Herr].
        intros i gp' Hi Hnot. simpl in Hnot.
        apply not_elem_of_cons in Hnot as [Hne Hnot].
        apply Hframe; [| exact Hnot].
        subst g1 gps1. simpl. rewrite list_lookup_insert_ne; [exact Hi|].
        intros <-. rewrite Hgp in Hi. injection Hi as <-. congruence.
Qed.

Lemma set_values_app l1 l2 g :
  set_values (l1 ++ l2) g =
  match set_values l1 g with
  | (inl e, g') => (inl e, g')
  | (inr _, g') => set_values l2 g'
  end.
Proof.
  revert g. induction l1 as [| kv l1 IH]; intros g; [reflexivity|].
  cbn [app set_values]. rewrite !run_bind.
  destruct (set_one_value kv.1 kv.2 g) as [[e | []] g']; [reflexivity|].
  apply IH.
Qed.

Lemma preserves_set_values entries : preserves (set_values entries).
Proof.
  intros g Hg.
  destruct (set_values_spec entries g (wf_sound g Hg))
    as (r & gps' & Hrun & Hn & _ & _).
  rewrite Hrun. simpl. apply (wf_transfer g); try reflexivity; [| exact Hg].
  exact Hn.
Qed.

Lemma preserves_set_generator_param_values params :
  preserves (set_generator_param_values params).
Proof.
  unfold set_generator_param_values.
  apply preserves_bind; [apply preserves_build_params|]. intros _.
  apply preserves_set_values.
Qed.

Lemma run_call_build_pipeline g :
  call_build_pipeline g =
  ((build_pipeline (mem_params g) (mem_inputs g) (mem_gparams g)).1,
   set_mem_params
     (build_pipeline (mem_params g) (mem_inputs g) (mem_gparams g)).2
     (set_log (log g ++ [build_pipeline_call]) g)).
Proof.
  unfold call_build_pipeline, run_build_pipeline. rewrite run_bind.
  unfold trace, modify. cbn beta iota. simpl.
  destruct (build_pipeline (mem_params g) (mem_inputs g) (mem_gparams g));
    reflexivity.
Qed.

Lemma preserves_call_build_pipeline : preserves call_build_pipeline.
Proof.
  unfold call_build_pipeline.
  apply preserves_bind; [apply preserves_trace|]. intros _.
  intros g Hg. unfold run_build_pipeline.
  pose proof (build_pipeline_layout (mem_params g) (mem_inputs g)
                (mem_gparams g)) as Hlen.
  destruct (build_pipeline (mem_params g) (mem_inputs g) (mem_gparams g))
    as [r ps']. simpl in *.
  apply (wf_transfer g); try reflexivity; [| exact Hg]. exact Hlen.
Qed.

Lemma preserves_build_module fn linkage : preserves (build_module fn linkage).
Proof.
  unfold build_module.
  apply preserves_bind; [apply preserves_build_params|]. intros _.
  apply preserves_bind; [apply preserves_call_build_pipeline|]. intros pl.
  apply preserves_bind; [apply preserves_gets|]. intros ps.
  apply preserves_bind.
  { destruct (bool_decide (0 < length ps));
      [apply preserves_rebuild_params | apply preserves_ret]. }
  intros _.
  apply preserves_bind; [apply preserves_get_filter_arguments|]. intros args.
  apply preserves_bind; [apply preserves_gets|]. intros gps.
  apply preserves_ret.
Qed.

Lemma preserves_get_filter_output_types : preserves get_filter_output_types.
Proof.
  unfold get_filter_output_types.
  apply preserves_bind; [apply preserves_call_build_pipeline|]. intros pl.
  apply preserves_ret.
Qed.

(** Every instance that can arise satisfies the invariant. *)
Lemma reachable_wf g : reachable g → wf g.
Proof.
  induction 1 as [ps inputs gps | g _ IH | g _ IH | g _ IH | g _ IH
                 | params g _ IH | g _ IH | fn linkage g _ IH].
  - split; simpl; [constructor | constructor | | discriminate].
    intros k i Hk. rewrite lookup_empty in Hk. discriminate.
  - apply preserves_build_params. exact IH.
  - apply preserves_rebuild_params. exact IH.
  - apply preserves_get_filter_arguments. exact IH.
  - apply preserves_get_generator_param_values. exact IH.
  - apply preserves_set_generator_param_values. exact IH.
  - apply preserves_get_filter_output_types. exact IH.
  - apply preserves_build_module. exact IH.
Qed.

(** *** Computing the argument list *)

Lemma set_mem_inputs_id g : set_mem_inputs (mem_inputs g) g = g.
Proof. destruct g; reflexivity. Qed.

Lemma init_inputs_loop_run ins : ∀ g,
  in_bounds (mem_inputs g) ins → NoDup ins →
  ∃ inputs', init_inputs_loop ins g = (inr tt, set_mem_inputs inputs' g) ∧
    length inputs' = length (mem_inputs g) ∧
    ∀ j, inputs' !! j =
         if bool_decide (j ∈ ins) then init_internals <$> mem_inputs g !! j
         else mem_inputs g !! j.
Proof.
  induction ins as [| i ins IH]; intros g Hb Hnd.
  - exists (mem_inputs g). rewrite set_mem_inputs_id.
    split; [reflexivity|]. split; [reflexivity|]. intros j.
    rewrite bool_decide_eq_false_2; [reflexivity | intros Hj; inversion Hj].
  - apply Forall_cons in Hb as [Hi Hb]. apply NoDup_cons in Hnd as [Hni Hnd].
    destruct (lookup_lt_is_Some_2 _ _ Hi) as [x Hx].
    cbn [init_inputs_loop].
    rewrite run_bind, (run_deref _ _ _ _ Hx), run_bind.
    unfold modify at 1. cbn beta iota.
    set (g1 := set_mem_inputs (<[i := init_internals x]> (mem_inputs g)) g).
    destruct (IH g1) as (inputs' & Hrun & Hlen & Hlook);
      [subst g1; simpl; unfold in_bounds; rewrite length_insert; exact Hb
      | exact Hnd |].
    exists inputs'. split; [rewrite Hrun; reflexivity|].
    split; [rewrite Hlen; subst g1; simpl; apply length_insert|].
    intros j. rewrite Hlook. subst g1. simpl.
    destruct (decide (j = i)) as [-> | Hne].
    + rewrite (bool_decide_eq_false_2 _ Hni).
      rewrite bool_decide_eq_true_2 by (left).
      rewrite list_lookup_insert_eq by exact Hi. rewrite Hx. reflexivity.
    + rewrite list_lookup_insert_ne by congruence.
      destruct (bool_decide (j ∈ ins)) eqn:Hj.
      * apply bool_decide_eq_true in Hj.
        rewrite bool_decide_eq_true_2 by (right; exact Hj). reflexivity.
      * apply bool_decide_eq_false in Hj.
        rewrite bool_decide_eq_false_2; [reflexivity|].
        intros [? | ?]%elem_of_cons; [congruence | contradiction].
Qed.

Lemma init_inputs_all g :
  filter_inputs g = seq 0 (length (mem_inputs g)) →
  init_inputs g =
  (inr tt, set_mem_inputs (init_internals <$> mem_inputs g) g).
Proof.
  intros Hfi. unfold init_inputs. rewrite run_bind. unfold gets at 1.
  cbn beta iota. rewrite Hfi.
  destruct (init_inputs_loop_run (seq 0 (length (mem_inputs g))) g)
    as (inputs' & Hrun & Hlen & Hlook);
    [apply in_bounds_seq | apply NoDup_seq |].
  rewrite Hrun. f_equal. f_equal. apply list_eq. intros j.
  rewrite Hlook, list_lookup_fmap.
  destruct (bool_decide (j ∈ seq 0 (length (mem_inputs g)))) eqn:Hj;
    [reflexivity|].
  apply bool_decide_eq_false in Hj. rewrite elem_of_seq in Hj.
  rewrite (lookup_ge_None_2 (mem_inputs g) j) by lia. reflexivity.
Qed.

(** Dereferencing every address of a member list gives the list back. *)
Lemma omap_lookup_seq {A} (l : list A) :
  omap (λ p, l !! p) (seq 0 (length l)) = l.
Proof.
  assert (∀ pre, omap (λ p, (pre ++ l) !! p) (seq (length pre) (length l)) = l)
    as Hgen.
  { induction l as [| x l IH]; intros pre; [reflexivity|].
    simpl. rewrite list_lookup_middle by reflexivity. f_equal.
    specialize (IH (pre ++ [x])). rewrite <- app_assoc in IH. simpl in IH.
    rewrite length_app in IH. simpl in IH.
    replace (length pre + 1) with (S (length pre)) in IH by lia. exact IH. }
  exact (Hgen []).
Qed.

Lemma arguments_of_params_run ps g :
  in_bounds (mem_params g) ps →
  arguments_of_params ps g =
  (inr (to_argument <$> omap (λ p, mem_params g !! p) ps), g).
Proof.
  induction ps as [| p ps IH]; intros Hb; [reflexivity|].
  apply Forall_cons in Hb as [Hp Hb].
  destruct (lookup_lt_is_Some_2 _ _ Hp) as [q Hq].
  cbn [arguments_of_params].
  rewrite run_bind, (run_deref _ _ _ _ Hq), run_bind, (IH Hb).
  simpl. rewrite Hq. reflexivity.
Qed.

Lemma arguments_of_inputs_run ins g :
  in_bounds (mem_inputs g) ins →
  arguments_of_inputs ins g =
  (inr ((to_argument ∘ parameter_) <$> omap (λ p, mem_inputs g !! p) ins), g).
Proof.
  induction ins as [| p ps IH]; intros Hb; [reflexivity|].
  apply Forall_cons in Hb as [Hp Hb].
  destruct (lookup_lt_is_Some_2 _ _ Hp) as [q Hq].
  cbn [arguments_of_inputs].
  rewrite run_bind, (run_deref _ _ _ _ Hq), run_bind, (IH Hb).
  simpl. rewrite Hq. reflexivity.
Qed.

Lemma get_filter_arguments_built g :
  wf g → params_built g = true →
  get_filter_arguments g =
  (inr (filter_arguments_of (mem_params g) (mem_inputs g)),
   set_mem_inputs (init_internals <$> mem_inputs g) g).
Proof.
  intros Hwf Hb. destruct (wf_built g Hwf Hb) as (Hfp & Hfi & _ & _).
  unfold get_filter_arguments.
  rewrite run_bind, (build_params_built g Hb).
  rewrite run_bind, (init_inputs_all g Hfi).
  set (g1 := set_mem_inputs _ g).
  rewrite run_bind. unfold gets at 1. cbn beta iota.
  change (filter_params g1) with (filter_params g). rewrite Hfp.
  rewrite run_bind, arguments_of_params_run by apply in_bounds_seq.
  rewrite run_bind. unfold gets at 1. cbn beta iota.
  change (filter_inputs g1) with (filter_inputs g). rewrite Hfi.
  rewrite run_bind, arguments_of_inputs_run.
  2:{ subst g1. simpl. unfold in_bounds. rewrite length_fmap.
      apply in_bounds_seq. }
  rewrite run_ret. f_equal. f_equal. unfold filter_arguments_of.
  change (mem_params g1) with (mem_params g). rewrite omap_lookup_seq.
  f_equal. subst g1. simpl.
  rewrite <- (length_fmap init_internals (mem_inputs g)) at 1.
  rewrite omap_lookup_seq, <- list_fmap_compose. reflexivity.
Qed.

(** *** Discovery happens once *)

Lemma build_params_success_built g g' :
  build_params g = (inr tt, g') → params_built g' = true.
Proof.
  destruct (params_built g) eqn:Hb.
  { rewrite (build_params_built g Hb). intros [= <-]. exact Hb. }
  unfold build_params. rewrite run_bind. unfold gets at 1. cbn beta iota.
  rewrite Hb. cbn [negb].
  rewrite run_bind, run_instances_in_range, run_bind.
  destruct (scan_filter_params _ _) as [[e | []] g1]; [discriminate|].
  rewrite run_bind, run_instances_in_range, run_bind.
  destruct (scan_inputs _ _) as [[e | []] g2]; [discriminate|].
  rewrite run_bind. unfold gets at 1. cbn beta iota. rewrite run_bind.
  lazymatch goal with
  | |- context [if ?c then raise _ else mret _] => destruct c
  end; [discriminate|].
  rewrite run_ret, run_bind, run_instances_in_range, run_bind.
  destruct (scan_generator_params _ _) as [[e | []] g3]; [discriminate|].
  unfold modify. intros [= <-]. reflexivity.
Qed.

Lemma keeps_bind {A B} (m : M A) (k : A → M B) :
  keeps_discovered m → (∀ a, keeps_discovered (k a)) →
  keeps_discovered (m ≫= k).
Proof.
  intros Hm Hk g. rewrite run_bind. specialize (Hm g).
  destruct (m g) as [[e | a] g']; simpl in *; [exact Hm|].
  rewrite Hk. exact Hm.
Qed.

Lemma keeps_ret {A} (a : A) : keeps_discovered (mret a : M A).
Proof. intros g. reflexivity. Qed.

Lemma keeps_gets {A} (f : GeneratorBase → A) : keeps_discovered (gets f).
Proof. intros g. reflexivity. Qed.

Lemma keeps_deref {A} (mem : GeneratorBase → list A) v :
  keeps_discovered (deref mem v).
Proof.
  intros g. unfold deref. rewrite run_bind. unfold gets. simpl.
  destruct (mem g !! v); reflexivity.
Qed.

Lemma keeps_init_inputs : keeps_discovered init_inputs.
Proof.
  unfold init_inputs. apply keeps_bind; [apply keeps_gets|]. intros ins.
  induction ins as [| i ins IH]; [apply keeps_ret|].
  cbn [init_inputs_loop]. apply keeps_bind; [apply keeps_deref|].
  intros input. apply keeps_bind; [| intros _; exact IH].
  intros g. reflexivity.
Qed.

Lemma keeps_arguments_of_params ps : keeps_discovered (arguments_of_params ps).
Proof.
  induction ps as [| p ps IH]; [apply keeps_ret|].
  cbn [arguments_of_params]. apply keeps_bind; [apply keeps_deref|].
  intros param. apply keeps_bind; [exact IH|]. intros rest. apply keeps_ret.
Qed.

Lemma keeps_arguments_of_inputs ins : keeps_discovered (arguments_of_inputs ins).
Proof.
  induction ins as [| p ps IH]; [apply keeps_ret|].
  cbn [arguments_of_inputs]. apply keeps_bind; [apply keeps_deref|].
  intros param. apply keeps_bind; [exact IH|]. intros rest. apply keeps_ret.
Qed.

Lemma keeps_collect_values entries results :
  keeps_discovered (collect_values entries results).
Proof.
  revert results. induction entries as [| kv entries IH]; intros results;
    [apply keeps_ret|].
  cbn [collect_values]. apply keeps_bind; [apply keeps_deref|].
  intros param. apply IH.
Qed.

Lemma keeps_set_values entries : keeps_discovered (set_values entries).
Proof.
  induction entries as [| kv entries IH]; [apply keeps_ret|].
  cbn [set_values]. apply keeps_bind; [| intros _; exact IH].
  unfold set_one_value. apply keeps_bind; [apply keeps_gets|]. intros gps.
  destruct (gps !! kv.1) as [ptr |]; [| intros g; reflexivity].
  apply keeps_bind; [apply keeps_deref|]. intros param.
  destruct (from_string (gp_value param) kv.2) as [e | v'];
    intros g; reflexivity.
Qed.

Lemma call_without_reset_keeps g g' :
  params_built g = true → call_without_reset g g' →
  discovered g' = discovered g.
Proof.
  intros Hb Hcall. destruct Hcall as [h | h | h | params h | h].
  - rewrite (build_params_built h Hb). reflexivity.
  - unfold get_filter_arguments.
    rewrite run_bind, (build_params_built h Hb).
    revert h Hb. intros h _. revert h.
    change (keeps_discovered
      (init_inputs ≫= λ _, ps ← gets filter_params;
         from_params ← arguments_of_params ps;
         ins ← gets filter_inputs;
         from_inputs ← arguments_of_inputs ins;
         mret (from_params ++ from_inputs))).
    repeat first
      [ apply keeps_init_inputs | apply keeps_arguments_of_params
      | apply keeps_arguments_of_inputs | apply keeps_gets | apply keeps_ret
      | apply keeps_bind | intros ? ].
  - unfold get_generator_param_values.
    rewrite run_bind, (build_params_built h Hb).
    revert h Hb. intros h _. revert h.
    change (keeps_discovered
      (gps ← gets generator_params; collect_values (in_order gps) ∅)).
    apply keeps_bind; [apply keeps_gets|]. intros gps.
    apply keeps_collect_values.
  - unfold set_generator_param_values.
    rewrite run_bind, (build_params_built h Hb).
    apply keeps_set_values.
  - unfold get_filter_output_types.
    rewrite run_bind, run_call_build_pipeline.
    destruct (build_pipeline _ _ _).1; reflexivity.
Qed.

Lemma reset_params_unbuilt g :
  let FP := instances_in_range_call FilterParam in
  ∃ r g' ev, rebuild_params g = (r, g') ∧ log g' = log g ++ FP :: ev.
Proof.
  intros FP. unfold rebuild_params. rewrite run_bind. unfold modify at 1.
  cbn beta iota.
  destruct (build_params_unbuilt (reset_params g))
    as (r & b & fp' & fi' & m' & ev & Hrun & _ & _ & _ & Hcases);
    [reflexivity | constructor | constructor | |].
  { intros k i Hk. simpl in Hk. rewrite lookup_empty in Hk. discriminate. }
  rewrite Hrun.
  destruct Hcases as [(_ & _ & _ & _ & _ & ->) |
    [(_ & _ & _ & _ & _ & _ & ->) |
     [(_ & _ & _ & _ & _ & _ & _ & _ & _ & ->) |
      (_ & _ & _ & _ & _ & _ & -> & _)]]];
    eexists _, _, _; (split; [reflexivity|]); reflexivity.
Qed.

(** C8.  After one successful [build_params], every further [build_params]
    before a reset returns at once and leaves the instance, and so the
    free-parameter list, the input list and the configuration-parameter map,
    as it is, whatever other methods are called in between;
    [rebuild_params] empties the three containers, clears the flag and runs
    the discovery again, starting with a new scan of the instance. *)
Theorem discovery_idempotent g g1 :
  build_params g = (inr tt, g1) →
  (∀ g2, rtc call_without_reset g1 g2 →
     build_params g2 = (inr tt, g2) ∧ discovered g2 = discovered g1) ∧
  (∀ g2,
     rebuild_params g2 = build_params (reset_params g2) ∧
     discovered (reset_params g2) = (false, [], [], ∅) ∧
     ∃ ev, log (rebuild_params g2).2 =
           log g2 ++ instances_in_range_call FilterParam :: ev).
Proof.
  intros Hrun. pose proof (build_params_success_built g g1 Hrun) as Hb1.
  assert (∀ g2, rtc call_without_reset g1 g2 →
            params_built g2 = true ∧ discovered g2 = discovered g1) as Hkeep.
  { intros g2 Hsteps. clear Hrun.
    induction Hsteps as [g1 | g1 g2 g3 Hstep _ IH].
    - split; [exact Hb1 | reflexivity].
    - pose proof (call_without_reset_keeps g1 g2 Hb1 Hstep) as Hd.
      assert (params_built g2 = true) as Hb2.
      { unfold discovered in Hd. injection Hd as -> _ _ _. exact Hb1. }
      destruct (IH Hb2) as [Hb3 Hd3]. split; [exact Hb3|].
      rewrite Hd3. exact Hd. }
  split.
  - intros g2 Hsteps. destruct (Hkeep g2 Hsteps) as [Hb2 Hd].
    split; [apply build_params_built; exact Hb2 | exact Hd].
  - intros g2. split; [reflexivity|]. split; [reflexivity|].
    destruct (reset_params_unbuilt g2) as (r & g' & ev & Hr & Hlog).
    exists ev. rewrite Hr. exact Hlog.
Qed.

(** *** Free parameters and inputs exclude each other *)

Lemma Forall_seq_lookup {A} (P : A → Prop) (l : list A) :
  Forall (λ v, ∃ q, l !! v = Some q ∧ P q) (seq 0 (length l)) ↔ Forall P l.
Proof.
  rewrite (Forall_lookup P l), Forall_forall. split.
  - intros Hs i x Hi. destruct (Hs i) as (q & Hq & HP).
    + apply elem_of_seq. apply lookup_lt_Some in Hi. lia.
    + congruence.
  - intros Hl v Hv. apply elem_of_seq in Hv.
    destruct (lookup_lt_is_Some_2 l v) as [q Hq]; [lia|]. eauto.
Qed.

Lemma params_pass_fresh g :
  params_pass g [] (seq 0 (length (mem_params g))) ↔
  Forall (λ q, is_explicit_name q = true ∧ is_valid_name (name q) = true)
    (mem_params g) ∧
  NoDup (name <$> mem_params g).
Proof.
  unfold params_pass, param_names. simpl.
  rewrite <- (list_fmap_omap (λ p, mem_params g !! p) name), omap_lookup_seq.
  rewrite fresh_names_NoDup, Forall_seq_lookup. reflexivity.
Qed.

Lemma inputs_pass_fresh g :
  inputs_pass g [] (seq 0 (length (mem_inputs g))) ↔
  Forall (λ q, is_valid_name (input_name q) = true) (mem_inputs g) ∧
  NoDup (input_name <$> mem_inputs g).
Proof.
  unfold inputs_pass, input_names. simpl.
  rewrite <- (list_fmap_omap (λ p, mem_inputs g !! p) input_name),
    omap_lookup_seq.
  rewrite fresh_names_NoDup, Forall_seq_lookup. reflexivity.
Qed.

(** C4.  On an instance that declares a free parameter and an input,
    [build_params] raises a user error.  It does so in or right after the
    two loops that validate the free parameters and the inputs: when the
    error is the exclusion error the names have all passed (and on an
    instance whose lists are still empty, names that pass lead to exactly
    that error); no configuration parameter has been indexed, the third
    scan has not been asked for, and [get_filter_arguments] ends with the
    same error instead of an Argument list. *)
Theorem build_params_rejects_params_with_inputs g :
  reachable g → mem_params g ≠ [] → mem_inputs g ≠ [] →
  ∃ e g',
    build_params g = (inl e, g') ∧ is_user_error e ∧
    generator_params g' = generator_params g ∧
    params_built g' = false ∧
    (∃ ev, log g' = log g ++ ev ∧
           instances_in_range_call GeneratorParam ∉ ev) ∧
    get_filter_arguments g = (inl e, g') ∧
    (e = inputs_with_params_error → names_validated g) ∧
    (filter_params g = [] → filter_inputs g = [] → names_validated g →
     e = inputs_with_params_error).
Proof.
  intros Hreach Hps Hins. pose proof (reachable_wf g Hreach) as Hwf.
  assert (params_built g = false) as Hb.
  { destruct (params_built g) eqn:Hb; [| reflexivity].
    destruct (wf_built g Hwf Hb) as (_ & _ & [Hn | Hn] & _); contradiction. }
  destruct (build_params_unbuilt g Hb (wf_params g Hwf) (wf_inputs g Hwf)
              (wf_sound g Hwf))
    as (r & b & fp' & fi' & m' & ev & Hrun & _ & _ & _ & Hcases).
  assert (∀ e g', build_params g = (inl e, g') →
            get_filter_arguments g = (inl e, g')) as Hargs.
  { intros e g' He. unfold get_filter_arguments. rewrite run_bind, He.
    reflexivity. }
  destruct Hcases as
    [(Hnot & (e & -> & Hu & Hne) & -> & -> & -> & ->) |
     [(Hp & Hnot & (e & -> & Hu & Hne) & -> & -> & -> & ->) |
      [(Hp & Hi & _ & _ & -> & -> & -> & -> & -> & ->) |
       (_ & _ & Hone & _)]]].
  - exists e. eexists. split; [exact Hrun|]. split; [exact Hu|].
    split; [reflexivity|]. split; [reflexivity|]. split.
    { eexists. split; [reflexivity|]. intros Hin.
      apply list_elem_of_singleton in Hin. discriminate Hin. }
    split; [apply Hargs; exact Hrun|]. split; [intros ->; congruence|].
    intros Hfp _ (Hall & Hnd & _). exfalso. apply Hnot. rewrite Hfp.
    apply params_pass_fresh. split; assumption.
  - exists e. eexists. split; [exact Hrun|]. split; [exact Hu|].
    split; [reflexivity|]. split; [reflexivity|]. split.
    { eexists. split; [reflexivity|]. intros Hin.
      apply elem_of_cons in Hin as [Hin | Hin]; [discriminate Hin|].
      apply list_elem_of_singleton in Hin. discriminate Hin. }
    split; [apply Hargs; exact Hrun|]. split; [intros ->; congruence|].
    intros _ Hfi (_ & _ & Hall & Hnd). exfalso. apply Hnot. rewrite Hfi.
    apply inputs_pass_fresh. split; assumption.
  - exists inputs_with_params_error. eexists. split; [exact Hrun|].
    split; [eexists; reflexivity|].
    split; [reflexivity|]. split; [reflexivity|]. split.
    { eexists. split; [reflexivity|]. intros Hin.
      apply elem_of_cons in Hin as [Hin | Hin]; [discriminate Hin|].
      apply list_elem_of_singleton in Hin. discriminate Hin. }
    split; [apply Hargs; exact Hrun|]. split; [| intros _ _ _; reflexivity].
    intros _.
    rewrite (params_pass_no_junk g _ (wf_params g Hwf) Hp) in Hp.
    rewrite (inputs_pass_no_junk g _ (wf_inputs g Hwf) Hi) in Hi.
    apply params_pass_fresh in Hp as [H1 H2].
    apply inputs_pass_fresh in Hi as [H3 H4].
    repeat split; assumption.
  - exfalso. destruct Hone as [Hz | Hz].
    + apply app_eq_nil in Hz as [_ Hz]. apply seq_nil_length in Hz.
      contradiction.
    + apply app_eq_nil in Hz as [_ Hz]. apply seq_nil_length in Hz.
      contradiction.
Qed.

(** *** What a run of [build_params] leaves behind *)

Lemma build_params_summary g :
  wf g →
  ∃ r g' ev, build_params g = (r, g') ∧
    mem_params g' = mem_params g ∧ mem_inputs g' = mem_inputs g ∧
    mem_gparams g' = mem_gparams g ∧
    log g' = log g ++ ev ∧ ev `prefix_of` discovery_events g ∧
    match r with
    | inl e => is_user_error e
    | inr _ => params_built g' = true ∧ ev = discovery_events g
    end.
Proof.
  intros Hwf. unfold discovery_events.
  destruct (params_built g) eqn:Hb.
  { exists (inr tt), g, []. rewrite (build_params_built g Hb).
    rewrite app_nil_r. repeat split; try reflexivity. exact Hb. }
  destruct (build_params_unbuilt g Hb (wf_params g Hwf) (wf_inputs g Hwf)
              (wf_sound g Hwf))
    as (r & b & fp' & fi' & m' & ev & Hrun & _ & _ & _ & Hcases).
  exists r. eexists. exists ev. split; [exact Hrun|]. simpl.
  do 4 (split; [reflexivity|]).
  destruct Hcases as
    [(_ & (e & -> & Hu & _) & _ & _ & _ & ->) |
     [(_ & _ & (e & -> & Hu & _) & _ & _ & _ & ->) |
      [(_ & _ & _ & _ & -> & _ & _ & _ & _ & ->) |
       (_ & _ & _ & _ & _ & _ & -> & Hend)]]].
  - split; [| exact Hu]. exists (tail scans). reflexivity.
  - split; [| exact Hu]. exists [instances_in_range_call GeneratorParam].
    reflexivity.
  - split; [| eexists; reflexivity].
    exists [instances_in_range_call GeneratorParam]. reflexivity.
  - split; [reflexivity|].
    destruct Hend as [(e & -> & Hu & _) | (-> & -> & _)];
      [exact Hu | split; reflexivity].
Qed.

(** *** An unknown key among the supplied values *)

Lemma first_unknown_entry (known : string → Prop)
    `{!∀ k, Decision (known k)} (entries : list (string * string)) :
  (∃ kv, kv ∈ entries ∧ ¬ known kv.1) →
  ∃ pre key value post,
    entries = pre ++ (key, value) :: post ∧
    Forall (λ kv, known kv.1) pre ∧ ¬ known key.
Proof.
  induction entries as [| [k v] entries IH]; intros (kv & Hin & Hun).
  - inversion Hin.
  - destruct (decide (known k)) as [Hk | Hk].
    + destruct IH as (pre & key & value & post & -> & Hpre & Hkey).
      { apply elem_of_cons in Hin as [-> | Hin]; [contradiction | eauto]. }
      exists ((k, v) :: pre), key, value, post.
      split; [reflexivity|]. split; [constructor; assumption | exact Hkey].
    + exists [], k, v, entries. split; [reflexivity|].
      split; [constructor | exact Hk].
Qed.

Lemma elem_of_in_order {V} (m : gmap string V) k v :
  (k, v) ∈ in_order m ↔ m !! k = Some v.
Proof.
  unfold in_order. rewrite merge_sort_Permutation.
  apply elem_of_map_to_list.
Qed.

(** C3, amended.  When a supplied key names no configuration parameter,
    [set_generator_param_values] raises, and what it raises is a user error
    as long as [from_string] raises nothing else.  The keys are visited in
    increasing order: those before the first unknown key have been written
    when the unknown key is met, and every configuration parameter that is
    not named by one of them keeps its value; names never change. *)
Theorem set_generator_param_values_unknown_key g
    (params : GeneratorParamValues) :
  reachable g →
  (∃ k, is_Some (params !! k) ∧ k ∉ gp_name <$> mem_gparams g) →
  ∃ pre key value post e g',
    in_order params = pre ++ (key, value) :: post ∧
    Forall (λ kv, kv.1 ∈ gp_name <$> mem_gparams g) pre ∧
    (key ∉ gp_name <$> mem_gparams g) ∧
    set_generator_param_values params g = (inl e, g') ∧
    user_or_codec_error e ∧
    ((∀ v s e', from_string v s = inl e' → is_user_error e') →
     is_user_error e) ∧
    gp_name <$> mem_gparams g' = gp_name <$> mem_gparams g ∧
    (∀ i gp, mem_gparams g !! i = Some gp → gp_name gp ∉ pre.*1 →
             mem_gparams g' !! i = Some gp) ∧
    (∀ g1, (build_params ≫= λ _, set_values pre) g = (inr tt, g1) →
           e = no_such_param_error key ∧ g' = g1).
Proof.
  intros Hreach (k & [v Hkv] & Hunknown).
  pose proof (reachable_wf g Hreach) as Hwf.
  destruct (first_unknown_entry (λ k, k ∈ gp_name <$> mem_gparams g)
              (in_order params))
    as (pre & key & value & post & Horder & Hpre & Hkey).
  { exists (k, v). split; [apply elem_of_in_order; exact Hkv | exact Hunknown]. }
  exists pre, key, value, post.
  unfold set_generator_param_values. rewrite Horder.
  destruct (build_params_summary g Hwf)
    as (r & g0 & ev & Hrun & _ & _ & Hgps & _ & _ & Hr).
  pose proof (preserves_build_params g Hwf) as Hwf0. rewrite Hrun in Hwf0.
  simpl in Hwf0.
  destruct r as [e | []].
  { exists e, g0. split; [reflexivity|]. split; [exact Hpre|].
    split; [exact Hkey|]. split; [rewrite run_bind, Hrun; reflexivity|].
    split; [left; exact Hr|]. split; [intros _; exact Hr|].
    split; [rewrite Hgps; reflexivity|].
    split; [intros i gp Hi _; rewrite Hgps; exact Hi|].
    intros g1. rewrite run_bind, Hrun. discriminate. }
  destruct Hr as [Hb0 _].
  destruct (set_values_spec pre g0 (wf_sound g0 Hwf0))
    as (r1 & gps1 & Hrun1 & Hn1 & Hframe1 & Herr1).
  assert (∀ rest, (build_params ≫= λ _, set_values (pre ++ rest)) g =
            match r1 with
            | inl e => (inl e, set_mem_gparams gps1 g0)
            | inr _ => set_values rest (set_mem_gparams gps1 g0)
            end) as Hsplit.
  { intros rest. rewrite run_bind, Hrun, set_values_app, Hrun1.
    destruct r1 as [e | []]; reflexivity. }
  rewrite Hsplit.
  assert ((build_params ≫= λ _, set_values pre) g =
          (r1, set_mem_gparams gps1 g0)) as Hpre_run.
  { rewrite run_bind, Hrun. exact Hrun1. }
  destruct r1 as [e | []].
  { exists e, (set_mem_gparams gps1 g0). split; [reflexivity|].
    split; [exact Hpre|]. split; [exact Hkey|]. split; [reflexivity|].
    split; [apply Herr1; reflexivity|].
    split.
    { intros Hcodec. destruct (Herr1 e eq_refl) as [Hu | (v0 & s0 & Hfs)];
        [exact Hu | exact (Hcodec _ _ _ Hfs)]. }
    simpl.
    split; [rewrite Hn1, Hgps; reflexivity|].
    split; [intros i gp Hi Hnot; apply Hframe1; [rewrite Hgps|]; assumption|].
    intros g1. rewrite Hpre_run. discriminate. }
  set (g2 := set_mem_gparams gps1 g0).
  assert (generator_params g2 !! key = None) as Hnone.
  { destruct (generator_params g2 !! key) as [ptr |] eqn:Hptr; [| reflexivity].
    exfalso. apply Hkey. subst g2. simpl in Hptr.
    destruct (wf_sound g0 Hwf0 key ptr Hptr) as (gp & Hgp & <-).
    rewrite <- Hgps. apply list_elem_of_fmap. exists gp.
    split; [reflexivity|]. apply list_elem_of_lookup. eauto. }
  assert (set_values ((key, value) :: post) g2 =
          (inl (no_such_param_error key), g2)) as Hfail.
  { cbn [set_values fst snd]. rewrite run_bind.
    unfold set_one_value. rewrite run_bind. unfold gets at 1. cbn beta iota.
    rewrite Hnone. reflexivity. }
  exists (no_such_param_error key), g2. split; [reflexivity|].
  split; [exact Hpre|]. split; [exact Hkey|]. split; [exact Hfail|].
  split; [left; eexists; reflexivity|].
  split; [intros _; eexists; reflexivity|]. subst g2. simpl.
  split; [rewrite Hn1, Hgps; reflexivity|].
  split; [intros i gp Hi Hnot; apply Hframe1; [rewrite Hgps|]; assumption|].
  intros g1. rewrite Hpre_run. intros [= <-]. split; reflexivity.
Qed.

End Facts.
End GeneratorFacts.

Module DriverFacts.
Import Halide NameValidator ArtifactPlanner Generator Driver.

Section Facts.
Context `{!ParamCodec} `{!PipelineBuilder} `{!Platform}.

Lemma driver_bind {A B} (m : Run A) (k : A → Run B) :
  m ≫= k =
  match m with
  | (inl o, acts) => (inl o, acts)
  | (inr a, acts) => let '(r, acts') := k a in (r, acts ++ acts')
  end.
Proof. reflexivity. Qed.

(** An action of a sequence comes from its first part, or the first part
    returned and the action comes from what follows. *)
Lemma bind_actions {A B} (m : Run A) (k : A → Run B) x :
  x ∈ (m ≫= k).2 → x ∈ m.2 ∨ ∃ a, m.1 = inr a ∧ x ∈ (k a).2.
Proof.
  rewrite driver_bind. destruct m as [[o | a] acts]; simpl;
    [intros Hx; left; exact Hx|].
  destruct (k a) as [r acts'] eqn:Hk. simpl.
  intros [Hx | Hx]%elem_of_app; [left; exact Hx|].
  right. exists a. rewrite Hk. split; [reflexivity | exact Hx].
Qed.

Lemma bind_outcome {A B} (m : Run A) (k : A → Run B) o :
  (m ≫= k).1 = inl o → m.1 = inl o ∨ ∃ a, m.1 = inr a ∧ (k a).1 = inl o.
Proof.
  rewrite driver_bind. destruct m as [[o' | a] acts]; simpl;
    [intros [= ->]; left; reflexivity|].
  destruct (k a) as [r acts'] eqn:Hk. simpl. intros ->.
  right. exists a. rewrite Hk. split; reflexivity.
Qed.

Lemma usage_error_failure {A} : usage_failure (usage_error : Run A).
Proof. split; [reflexivity|]. exists []. split; [reflexivity | constructor]. Qed.

Lemma usage_failure_after_cerr {A} text (m : Run A) :
  usage_failure m → usage_failure (perform (cerr text) ;; m).
Proof.
  intros [Ho (acts & Hacts & Hall)]. rewrite driver_bind.
  destruct m as [r acts0]. simpl in *. subst. split; [reflexivity|].
  exists (cerr text :: acts). split; [reflexivity|].
  constructor; [eexists; reflexivity | exact Hall].
Qed.

(** The argument loop either returns silently or ends as a usage error. *)
Lemma parse_args_cases args : ∀ flags_info generator_args,
  (∃ parsed, parse_args args flags_info generator_args = (inr parsed, []))
  ∨ usage_failure (parse_args args flags_info generator_args).
Proof.
  assert (∀ n args, length args ≤ n → ∀ flags_info generator_args,
    (∃ parsed, parse_args args flags_info generator_args = (inr parsed, []))
    ∨ usage_failure (parse_args args flags_info generator_args)) as Hgen.
  { clear args. induction n as [| n IH]; intros args Hlen flags_info generator_args.
    { destruct args; [| simpl in Hlen; lia]. left. eexists. reflexivity. }
    destruct args as [| arg rest]; [left; eexists; reflexivity|].
    simpl in Hlen. cbn [parse_args]. destruct (is_flag arg); cbn [negb].
    - destruct (flags_info !! arg).
      + destruct rest as [| value rest'].
        * right. apply usage_error_failure.
        * apply IH. simpl in Hlen. lia.
      + right. apply usage_failure_after_cerr, usage_error_failure.
    - destruct (split_string arg "=") as [| v0 [| v1 [| ? ?]]];
        try (right; apply usage_error_failure).
      destruct (bool_decide (v0 = "") || bool_decide (v1 = ""));
        [right; apply usage_error_failure|].
      apply IH. lia. }
  apply (Hgen (length args)). reflexivity.
Qed.

Lemma usage_failure_bind {A B} (m : Run A) (k : A → Run B) :
  usage_failure m → usage_failure (m ≫= k).
Proof.
  intros [Ho Hacts]. rewrite driver_bind. destruct m as [[o | a] acts];
    simpl in *; [| discriminate].
  injection Ho as ->. split; [reflexivity | exact Hacts].
Qed.

Lemma bind_silent {A B} (m : Run A) (k : A → Run B) a :
  m = (inr a, []) → m ≫= k = k a.
Proof. intros ->. rewrite driver_bind. destruct (k a). reflexivity. Qed.

Lemma list_names_run names :
  list_names names = (inr tt, (λ n, cerr ("    " +:+ n +:+ nl)) <$> names).
Proof.
  induction names as [| n names IH]; [reflexivity|].
  cbn [list_names]. rewrite driver_bind. simpl. rewrite IH. reflexivity.
Qed.

(** The flag map keeps its seven keys. *)
Lemma parse_args_keeps_keys args : ∀ flags_info generator_args parsed acts k,
  parse_args args flags_info generator_args = (inr parsed, acts) →
  is_Some (flags_info !! k) → is_Some (parsed.1 !! k).
Proof.
  assert (∀ n args, length args ≤ n →
    ∀ flags_info generator_args parsed acts k,
    parse_args args flags_info generator_args = (inr parsed, acts) →
    is_Some (flags_info !! k) → is_Some (parsed.1 !! k)) as Hgen.
  { clear args. induction n as [| n IH];
      intros args Hlen flags_info generator_args parsed acts k.
    { destruct args; [| simpl in Hlen; lia]. intros [= <- _]. auto. }
    destruct args as [| arg rest]; [intros [= <- _]; auto|].
    simpl in Hlen. cbn [parse_args]. destruct (is_flag arg); cbn [negb].
    - destruct (flags_info !! arg) eqn:Harg.
      + destruct rest as [| value rest']; [discriminate|].
        intros Hrun Hk. eapply IH; [| exact Hrun |]; [simpl in Hlen; lia|].
        apply lookup_insert_is_Some'. right. exact Hk.
      + discriminate.
    - destruct (split_string arg "=") as [| v0 [| v1 [| ? ?]]];
        try discriminate.
      destruct (bool_decide (v0 = "") || bool_decide (v1 = ""));
        [discriminate|].
      apply IH. lia. }
  apply (Hgen (length args)). reflexivity.
Qed.

(** Arguments appended to a command line that parses are parsed after it. *)
Lemma parse_args_app args more : ∀ flags_info generator_args parsed,
  parse_args args flags_info generator_args = (inr parsed, []) →
  parse_args (args ++ more) flags_info generator_args =
  parse_args more parsed.1 parsed.2.
Proof.
  assert (∀ n args, length args ≤ n →
    ∀ flags_info generator_args parsed,
    parse_args args flags_info generator_args = (inr parsed, []) →
    parse_args (args ++ more) flags_info generator_args =
    parse_args more parsed.1 parsed.2) as Hgen.
  { clear args. induction n as [| n IH];
      intros args Hlen flags_info generator_args parsed.
    { destruct args; [| simpl in Hlen; lia]. intros [= <-]. reflexivity. }
    destruct args as [| arg rest]; [intros [= <-]; reflexivity|].
    simpl in Hlen. cbn [parse_args app]. destruct (is_flag arg); cbn [negb].
    - destruct (flags_info !! arg) eqn:Harg.
      + destruct rest as [| value rest']; [discriminate|].
        cbn [app]. apply IH. simpl in Hlen. lia.
      + discriminate.
    - destruct (split_string arg "=") as [| v0 [| v1 [| ? ?]]];
        try discriminate.
      destruct (bool_decide (v0 = "") || bool_decide (v1 = ""));
        [discriminate|].
      apply IH. lia. }
  apply (Hgen (length args)). reflexivity.
Qed.

(** *** Where the actions of a run come from *)

Lemma guard_actions (failed : bool) text x :
  x ∈ ((if failed then perform (cerr text);; usage_error else mret tt)
        : Run unit).2 →
  is_cerr x.
Proof.
  destruct failed; simpl; [| intros Hx; inversion Hx].
  intros [-> | Hx]%elem_of_cons; [eexists; reflexivity|].
  apply list_elem_of_singleton in Hx as ->. eexists. reflexivity.
Qed.

Lemma resolve_generator_name_actions names g_flag runtime_name x :
  x ∈ (resolve_generator_name names g_flag runtime_name).2 → is_cerr x.
Proof.
  unfold resolve_generator_name.
  destruct (bool_decide (g_flag = "") && bool_decide (runtime_name = ""));
    [| intros Hx; inversion Hx].
  destruct (bool_decide (1 < length names)).
  - rewrite list_names_run. simpl.
    intros [-> | Hx]%elem_of_cons; [eexists; reflexivity|].
    apply elem_of_app in Hx as [Hx | Hx].
    + apply list_elem_of_fmap in Hx as (n & -> & _). eexists. reflexivity.
    + apply list_elem_of_singleton in Hx as ->. eexists. reflexivity.
  - destruct names; intros Hx; inversion Hx.
Qed.

Lemma apply_emit_flag_actions opt o x :
  x ∈ (apply_emit_flag opt o).2 → is_cerr x.
Proof.
  unfold apply_emit_flag.
  repeat (destruct (bool_decide _); [intros Hx; inversion Hx|]).
  cbn [negb]. simpl.
  intros Hx. apply list_elem_of_singleton in Hx as ->. eexists. reflexivity.
Qed.

Lemma apply_emit_flags_actions emit_flags : ∀ o x,
  x ∈ (apply_emit_flags emit_flags o).2 → is_cerr x.
Proof.
  induction emit_flags as [| opt rest IH]; intros o x;
    [intros Hx; inversion Hx|].
  cbn [apply_emit_flags].
  intros [Hx | (o' & _ & Hx)]%bind_actions.
  - exact (apply_emit_flag_actions _ _ _ Hx).
  - exact (IH _ _ Hx).
Qed.

Lemma parse_emit_options_actions e_flag x :
  x ∈ (parse_emit_options e_flag).2 → is_cerr x.
Proof.
  unfold parse_emit_options.
  destruct (_ || _); [intros Hx; inversion Hx|].
  apply apply_emit_flags_actions.
Qed.

Lemma parse_extensions_actions extension_flags : ∀ o x,
  x ∈ (parse_extensions extension_flags o).2 → is_cerr x.
Proof.
  induction extension_flags as [| ext rest IH]; intros o x;
    [intros Hx; inversion Hx|].
  cbn [parse_extensions]. destruct (bool_decide (ext = "")); [apply IH|].
  destruct (split_string ext "=") as [| v0 [| v1 [| ? ?]]]; try apply IH;
    simpl; intros [-> | Hx]%elem_of_cons; try (eexists; reflexivity);
    apply list_elem_of_singleton in Hx as ->; eexists; reflexivity.
Qed.

Lemma parse_targets_silent target_strings :
  (parse_targets target_strings).2 = [].
Proof.
  induction target_strings as [| t rest IH]; [reflexivity|].
  cbn [parse_targets]. rewrite driver_bind.
  destruct (Target_of_string t) as [e | target]; [reflexivity|].
  simpl. rewrite driver_bind.
  destruct (parse_targets rest) as [[o | ts] acts]; simpl in *; subst;
    reflexivity.
Qed.

Lemma build_runtime_actions runtime_name output_dir emit_options targets x :
  x ∈ (build_runtime runtime_name output_dir emit_options targets).2 →
  is_cerr x ∨ ∃ output_files t, x = compile_standalone_runtime output_files t.
Proof.
  unfold build_runtime.
  destruct (negb (bool_decide (runtime_name = "")));
    [| intros Hx; inversion Hx].
  destruct targets as [| t0 [| t1 rest]]; simpl;
    intros Hx%list_elem_of_singleton; subst; eauto;
    left; eexists; reflexivity.
Qed.

Lemma module_producer_actions registry generator_name generator_args
    fn_name target x :
  x ∈ (module_producer registry generator_name generator_args fn_name
         target).2 →
  is_cerr x ∨ ∃ params, x = registry_create_call generator_name params.
Proof.
  unfold module_producer.
  intros [Hx | ([] & _ & Hx)]%bind_actions.
  { apply list_elem_of_singleton in Hx as ->. right. eauto. }
  apply bind_actions in Hx as [Hx | (gen & _ & Hx)].
  { destruct (registry_create _ _ _); inversion Hx. }
  destruct gen as [g |].
  - destruct (build_module fn_name External g).1; inversion Hx.
  - simpl in Hx. apply list_elem_of_singleton in Hx as ->.
    left. eexists. reflexivity.
Qed.

Ltac not_this_action H :=
  first
    [ destruct H as [? H]; discriminate H
    | destruct H as [[? H] | (? & ? & H)]; discriminate H
    | destruct H as [[? H] | (? & H)]; discriminate H ].

(** A hand-over to [compile_multitarget] can only come from the last block
    of [main], with everything before it settled. *)
Lemma multitarget_origin registry flags_info generator_args
    fn o ts n c :
  compile_multitarget fn o ts n c
    ∈ (main_after_parse registry flags_info generator_args).2 →
  ∃ generator_name options t0 rest,
    (resolve_generator_name (enumerate registry) (flags_info !!! "-g")
       (flags_info !!! "-r")).1 = inr generator_name ∧
    (parse_emit_options (flags_info !!! "-e")
       ≫= parse_extensions (split_string (flags_info !!! "-x") ",")).1
      = inr options ∧
    (parse_targets (split_string (generator_args !!! "target") ",")).1
      = inr (t0 :: rest) ∧
    rest ≠ [] ∧ ts = t0 :: rest ∧ n = generator_name ∧ c = generator_args ∧
    fn = (if bool_decide (flags_info !!! "-f" = "") then generator_name
          else flags_info !!! "-f") ∧
    o = compute_outputs t0
          (compute_base_path (flags_info !!! "-o") fn (flags_info !!! "-n"))
          options.
Proof.
  unfold main_after_parse.
  intros [Hx | ([] & _ & Hx)]%bind_actions;
    [apply guard_actions in Hx; not_this_action Hx|].
  apply bind_actions in Hx as [Hx | (generator_name & Hname & Hx)];
    [apply resolve_generator_name_actions in Hx; not_this_action Hx|].
  apply bind_actions in Hx as [Hx | ([] & _ & Hx)];
    [apply guard_actions in Hx; not_this_action Hx|].
  apply bind_actions in Hx as [Hx | ([] & _ & Hx)];
    [apply guard_actions in Hx; not_this_action Hx|].
  apply bind_actions in Hx as [Hx | (options0 & Hemit & Hx)];
    [apply parse_emit_options_actions in Hx; not_this_action Hx|].
  apply bind_actions in Hx as [Hx | (options & Hext & Hx)];
    [apply parse_extensions_actions in Hx; not_this_action Hx|].
  apply bind_actions in Hx as [Hx | (targets & Htargets & Hx)];
    [rewrite parse_targets_silent in Hx; inversion Hx|].
  apply bind_actions in Hx as [Hx | ([] & _ & Hx)];
    [apply build_runtime_actions in Hx; not_this_action Hx|].
  unfold build_generator in Hx.
  destruct (negb (bool_decide (generator_name = ""))); [| inversion Hx].
  destruct targets as [| t0 rest]; [inversion Hx|].
  destruct (bool_decide (1 < length (t0 :: rest))) eqn:Hmulti.
  - apply list_elem_of_singleton in Hx. injection Hx as -> -> -> -> ->.
    exists generator_name, options, t0, rest.
    split; [exact Hname|]. split.
    { rewrite driver_bind.
      destruct (parse_emit_options (flags_info !!! "-e")) as [[? | ?] acts];
        simpl in Hemit; [discriminate|]. injection Hemit as ->.
      destruct (parse_extensions _ options0) as [r acts'].
      simpl in *. exact Hext. }
    split; [exact Htargets|]. split.
    { apply bool_decide_eq_true in Hmulti. intros ->. simpl in Hmulti. lia. }
    repeat split.
  - apply bind_actions in Hx as [Hx | (m & _ & Hx)].
    + apply module_producer_actions in Hx. not_this_action Hx.
    + apply list_elem_of_singleton in Hx. discriminate Hx.
Qed.

(** A generator is only ever created under the name the run settled on. *)
Lemma registry_create_origin registry flags_info generator_args n params :
  registry_create_call n params
    ∈ (main_after_parse registry flags_info generator_args).2 →
  (resolve_generator_name (enumerate registry) (flags_info !!! "-g")
     (flags_info !!! "-r")).1 = inr n.
Proof.
  unfold main_after_parse.
  intros [Hx | ([] & _ & Hx)]%bind_actions;
    [apply guard_actions in Hx; not_this_action Hx|].
  apply bind_actions in Hx as [Hx | (generator_name & Hname & Hx)];
    [apply resolve_generator_name_actions in Hx; not_this_action Hx|].
  apply bind_actions in Hx as [Hx | ([] & _ & Hx)];
    [apply guard_actions in Hx; not_this_action Hx|].
  apply bind_actions in Hx as [Hx | ([] & _ & Hx)];
    [apply guard_actions in Hx; not_this_action Hx|].
  apply bind_actions in Hx as [Hx | (options0 & Hemit & Hx)];
    [apply parse_emit_options_actions in Hx; not_this_action Hx|].
  apply bind_actions in Hx as [Hx | (options & Hext & Hx)];
    [apply parse_extensions_actions in Hx; not_this_action Hx|].
  apply bind_actions in Hx as [Hx | (targets & Htargets & Hx)];
    [rewrite parse_targets_silent in Hx; inversion Hx|].
  apply bind_actions in Hx as [Hx | ([] & _ & Hx)];
    [apply build_runtime_actions in Hx; not_this_action Hx|].
  unfold build_generator in Hx.
  destruct (negb (bool_decide (generator_name = ""))); [| inversion Hx].
  destruct targets as [| t0 rest]; [inversion Hx|].
  destruct (bool_decide (1 < length (t0 :: rest))).
  - apply list_elem_of_singleton in Hx. discriminate Hx.
  - apply bind_actions in Hx as [Hx | (m & _ & Hx)].
    + apply module_producer_actions in Hx as [[? Hx] | (? & Hx)];
        [discriminate Hx|].
      injection Hx as -> _. exact Hname.
    + apply list_elem_of_singleton in Hx. discriminate Hx.
Qed.

(** The actions of a run other than output on the error stream come after
    the argument loop. *)
Lemma action_after_parse registry argv x :
  x ∈ (generate_filter_main registry argv).2 → ¬ is_cerr x →
  ∃ flags_info generator_args,
    (∀ flag, flag_value argv flag = Some (flags_info !!! flag)) ∧
    x ∈ (main_after_parse registry flags_info generator_args).2.
Proof.
  intros Hx Hnot.
  assert (x ∈ (generate_filter_main_body registry argv).2) as Hbody.
  { unfold generate_filter_main in Hx.
    destruct (generate_filter_main_body registry argv) as [[? | ?] ?];
      exact Hx. }
  unfold generate_filter_main_body in Hbody.
  destruct (parse_args_cases (tail argv) flags_info_init ∅)
    as [[[flags_info generator_args] Hrun] | [Ho (acts & Hacts & Hall)]].
  - exists flags_info, generator_args. split.
    + intros flag. unfold flag_value. rewrite Hrun. reflexivity.
    + rewrite (bind_silent _ _ _ Hrun) in Hbody. exact Hbody.
  - exfalso. apply bind_actions in Hbody as [Hin | (a & Ha & _)].
    + rewrite Hacts in Hin. apply elem_of_app in Hin as [Hin | Hin].
      * rewrite Forall_forall in Hall. exact (Hnot (Hall _ Hin)).
      * apply list_elem_of_singleton in Hin. apply Hnot. eexists. exact Hin.
    + rewrite Ho in Ha. discriminate Ha.
Qed.

(** *** Choosing the generator *)

Lemma usage_failure_exit registry argv :
  usage_failure (generate_filter_main_body registry argv) →
  usage_exit (generate_filter_main registry argv).
Proof.
  intros [Ho Hacts]. unfold generate_filter_main.
  destruct (generate_filter_main_body registry argv) as [[o | []] acts];
    simpl in *; [| discriminate].
  injection Ho as ->. split; [reflexivity | exact Hacts].
Qed.

Lemma flag_value_parsed argv flag value :
  flag_value argv flag = Some value →
  ∃ flags_info generator_args,
    parse_args (tail argv) flags_info_init ∅
      = (inr (flags_info, generator_args), []) ∧
    flags_info !!! flag = value.
Proof.
  unfold flag_value.
  destruct (parse_args_cases (tail argv) flags_info_init ∅)
    as [[[flags_info generator_args] Hrun] | [Ho _]].
  - rewrite Hrun. intros [= <-]. eauto.
  - destruct (parse_args (tail argv) flags_info_init ∅) as [[o | [? ?]] acts];
      simpl in Ho; discriminate.
Qed.

Lemma after_parse_no_generators registry flags_info generator_args :
  enumerate registry = [] → flags_info !!! "-r" = "" →
  usage_failure (main_after_parse registry flags_info generator_args).
Proof.
  intros Hnames Hr. unfold main_after_parse. rewrite Hnames, Hr. simpl length.
  rewrite (bool_decide_eq_true_2 (0 = 0)) by reflexivity.
  rewrite (bool_decide_eq_true_2 ("" = "")) by reflexivity. cbn [andb].
  apply usage_failure_bind, usage_failure_after_cerr, usage_error_failure.
Qed.

Lemma after_parse_many_generators registry flags_info generator_args :
  1 < length (enumerate registry) →
  flags_info !!! "-g" = "" → flags_info !!! "-r" = "" →
  usage_failure (main_after_parse registry flags_info generator_args).
Proof.
  intros Hmany Hg Hr. unfold main_after_parse. rewrite Hg, Hr.
  rewrite (bool_decide_eq_false_2 (length _ = 0)) by lia. cbn [andb].
  rewrite (bind_silent (mret tt) _ tt) by reflexivity.
  apply usage_failure_bind. unfold resolve_generator_name.
  rewrite (bool_decide_eq_true_2 ("" = "")) by reflexivity. cbn [andb].
  rewrite (bool_decide_eq_true_2 _ Hmany).
  rewrite list_names_run. split; [reflexivity|].
  eexists (cerr _ :: _). split; [reflexivity|].
  constructor; [eexists; reflexivity|].
  apply Forall_fmap, Forall_forall. intros n _. eexists. reflexivity.
Qed.

Lemma after_parse_single_generator registry flags_info generator_args name :
  enumerate registry = [name] →
  flags_info !!! "-g" = "" → flags_info !!! "-r" = "" →
  main_after_parse registry flags_info generator_args =
  main_after_parse registry (<["-g" := name]> flags_info) generator_args.
Proof.
  intros Hnames Hg Hr. unfold main_after_parse.
  rewrite lookup_total_insert_eq.
  rewrite !lookup_total_insert_ne by discriminate.
  rewrite Hnames, Hg, Hr. f_equal. f_equal.
  unfold resolve_generator_name. simpl length.
  rewrite (bool_decide_eq_false_2 (1 < 1)) by lia.
  rewrite !(bool_decide_eq_true_2 ("" = "")) by reflexivity. cbn [andb].
  destruct (bool_decide (name = "")) eqn:Hname; [reflexivity|].
  reflexivity.
Qed.

(** A flag that does not occur on the command line keeps its value. *)
Lemma parse_args_flag_untouched args :
  ∀ flags_info generator_args parsed acts flag,
  parse_args args flags_info generator_args = (inr parsed, acts) →
  flag ∉ args → parsed.1 !!! flag = flags_info !!! flag.
Proof.
  assert (∀ n args, length args ≤ n →
    ∀ flags_info generator_args parsed acts flag,
    parse_args args flags_info generator_args = (inr parsed, acts) →
    flag ∉ args → parsed.1 !!! flag = flags_info !!! flag) as Hgen.
  { clear args. induction n as [| n IH];
      intros args Hlen flags_info generator_args parsed acts flag.
    { destruct args; [| simpl in Hlen; lia]. intros [= <- _] _. reflexivity. }
    destruct args as [| arg rest]; [intros [= <- _] _; reflexivity|].
    simpl in Hlen. cbn [parse_args]. destruct (is_flag arg); cbn [negb].
    - destruct (flags_info !! arg) eqn:Harg; [| discriminate].
      destruct rest as [| value rest']; [discriminate|].
      intros Hrun Hnot.
      apply not_elem_of_cons in Hnot as [Hne Hnot].
      apply not_elem_of_cons in Hnot as [_ Hnot].
      assert (length rest' ≤ n) as Hl by (simpl in Hlen; lia).
      rewrite (IH _ Hl _ _ _ _ _ Hrun Hnot).
      apply lookup_total_insert_ne. congruence.
    - destruct (split_string arg "=") as [| v0 [| v1 [| ? ?]]];
        try discriminate.
      destruct (bool_decide (v0 = "") || bool_decide (v1 = ""));
        [discriminate|].
      intros Hrun Hnot. apply not_elem_of_cons in Hnot as [_ Hnot].
      assert (length rest ≤ n) as Hl by lia.
      apply (IH _ Hl _ _ _ _ _ Hrun Hnot). }
  apply (Hgen (length args)). reflexivity.
Qed.

Lemma absent_flag_not_given argv flag :
  flag ∉ tail argv → flags_info_init !!! flag = "" → not_given argv flag.
Proof.
  intros Habsent Hinit value Hvalue.
  destruct (flag_value_parsed _ _ _ Hvalue)
    as (flags_info & generator_args & Hrun & <-).
  pose proof (parse_args_flag_untouched _ _ _ _ _ _ Hrun Habsent) as Hsame.
  simpl in Hsame. rewrite Hsame. exact Hinit.
Qed.

End Facts.
End DriverFacts.

(* ===================================================================== *)
(** * Further properties of the code *)
(* ===================================================================== *)

Module NameExtras.
Import NameValidator.

Lemma valid_from_prefix s : ∀ prev t,
  valid_from prev (s +:+ t) = true → valid_from prev s = true.
Proof.
  induction s as [| c s IH]; intros prev t; simpl; [reflexivity|].
  destruct (negb (is_alnum c)); [discriminate|].
  destruct (Ascii.eqb c "_" && Ascii.eqb prev "_"); [discriminate|].
  apply IH.
Qed.

Lemma is_alpha_not_underscore c : is_alpha c = true → Ascii.eqb c "_" = false.
Proof.
  intros Hc. destruct (Ascii.eqb c "_") eqn:Hu; [| reflexivity].
  apply Ascii.eqb_eq in Hu as ->. discriminate Hc.
Qed.

Lemma is_alpha_is_alnum c : is_alpha c = true → is_alnum c = true.
Proof. unfold is_alnum. intros ->. reflexivity. Qed.

Lemma valid_from_app s : ∀ prev c t,
  valid_from prev s = true → is_alpha c = true → valid_from c t = true →
  valid_from prev (s +:+ String c t) = true.
Proof.
  induction s as [| d s IH]; intros prev c t; simpl.
  - intros _ Hc Ht. rewrite (is_alpha_is_alnum c Hc).
    rewrite (is_alpha_not_underscore c Hc). simpl. exact Ht.
  - destruct (negb (is_alnum d)); [discriminate|].
    destruct (Ascii.eqb d "_" && Ascii.eqb prev "_"); [discriminate|].
    apply IH.
Qed.

(** X1.  Every non-empty prefix of a valid name is a valid name: the loop
    of [is_valid_name] only ever looks at the characters read so far. *)
Theorem is_valid_name_prefix (s t : string) :
  s ≠ "" → is_valid_name (s +:+ t) = true → is_valid_name s = true.
Proof.
  destruct s as [| c s]; [congruence|]. intros _. simpl.
  destruct (negb (is_alpha c)); [discriminate|]. apply valid_from_prefix.
Qed.

Lemma is_valid_name_prefix_witness :
  "in" ≠ "" ∧ is_valid_name ("in" +:+ "put_0") = true ∧
  is_valid_name "in" = true.
Proof.
  split; [discriminate|]. split; [reflexivity|].
  apply (is_valid_name_prefix "in" "put_0"); [discriminate | reflexivity].
Defined.

(** X2.  Two valid names written one after the other form a valid name: the
    second starts with a letter, so no ["__"] arises at the seam. *)
Theorem is_valid_name_app (s t : string) :
  is_valid_name s = true → is_valid_name t = true →
  is_valid_name (s +:+ t) = true.
Proof.
  destruct s as [| c s]; [discriminate|]. destruct t as [| d t]; [discriminate|].
  simpl. destruct (is_alpha c); [| discriminate]. simpl.
  destruct (is_alpha d) eqn:Hd; [| discriminate]. simpl.
  intros Hs Ht. apply valid_from_app; assumption.
Qed.

Lemma is_valid_name_app_witness :
  is_valid_name "blur_" = true ∧ is_valid_name "x3" = true ∧
  is_valid_name ("blur_" +:+ "x3") = true.
Proof.
  split; [reflexivity|]. split; [reflexivity|].
  apply (is_valid_name_app "blur_" "x3"); reflexivity.
Defined.

End NameExtras.

Module PlannerExtras.
Import Halide ArtifactPlanner PlannerTerms Sample.

Lemma append_inj_r (base x y : string) : base +:+ x = base +:+ y → x = y.
Proof.
  induction base as [| c base IH]; simpl; [trivial|].
  intros [= H]. exact (IH H).
Qed.

(** X3.  [compute_outputs] names a file for a kind only when the kind is
    requested, and every file it names is the base path followed by an
    extension. *)
Theorem compute_outputs_only_requested target base_path options :
  Forall (λ a : bool * string,
            if a.1 then ∃ ext, a.2 = base_path +:+ ext else a.2 = "")
    (planned options (compute_outputs target base_path options)).
Proof.
  unfold planned, compute_outputs. cbn [object_name assembly_name bitcode_name
    c_header_name c_source_name stmt_name stmt_html_name static_library_name].
  repeat apply Forall_cons_2; [.. | apply Forall_nil_2]; cbn [fst snd];
    repeat match goal with
           | |- context [if ?b then _ else _] => destruct b
           end; eauto.
Qed.

(** X4.  The MinGW feature switches a Windows target to the names of the
    other operating systems: with it, the plan equals that of any
    non-Windows target of the same architecture. *)
Theorem compute_outputs_mingw target other base_path options :
  MinGW ∈ features target → os other ≠ Windows → arch other = arch target →
  compute_outputs target base_path options =
  compute_outputs other base_path options.
Proof.
  intros Hm Hos Harch. unfold compute_outputs, has_feature.
  rewrite (bool_decide_eq_true_2 _ Hm), (bool_decide_eq_false_2 _ Hos), Harch.
  rewrite andb_false_r. reflexivity.
Qed.

Lemma compute_outputs_mingw_witness :
  let mingw := {| os := Windows; arch := OtherArch 0; features := [MinGW] |} in
  MinGW ∈ features mingw ∧ os host_target ≠ Windows ∧
  arch host_target = arch mingw ∧
  compute_outputs mingw "out" (emit_everything ∅) =
  compute_outputs host_target "out" (emit_everything ∅).
Proof.
  intros mingw. split; [apply list_elem_of_here|]. split; [discriminate|].
  split; [reflexivity|].
  apply (compute_outputs_mingw mingw host_target "out" (emit_everything ∅));
    [apply list_elem_of_here | discriminate | reflexivity].
Defined.

Lemma planned_files_distinct base_path (l : list (bool * string)) :
  NoDup l.*2 →
  NoDup (filter (λ a : bool * string, a.1 = true)
           ((λ a : bool * string,
               (a.1, if a.1 then base_path +:+ a.2 else "")) <$> l)).*2.
Proof.
  induction l as [| [b e] l IH]; simpl; [constructor|].
  intros [Hnot Hnd]%NoDup_cons. specialize (IH Hnd).
  destruct b.
  - rewrite filter_cons_True by reflexivity. simpl.
    apply NoDup_cons. split; [| exact IH].
    intros Hin. apply Hnot.
    apply list_elem_of_fmap in Hin as ([b' x] & Hx & Hin). simpl in Hx.
    apply list_elem_of_filter in Hin as [Hb' Hin]. simpl in Hb'. subst b'.
    apply list_elem_of_fmap in Hin as ([b'' e'] & Heq & Hin).
    simpl in Heq. injection Heq as Hb'' ->. subst b''.
    apply append_inj_r in Hx as ->.
    apply list_elem_of_fmap. exists (true, e'). split; [reflexivity | exact Hin].
  - rewrite filter_cons_False by (simpl; discriminate). exact IH.
Qed.

(** X5.  With no extension overrides and a target that is not PNaCl, the
    files planned for the requested kinds are pairwise distinct: no two
    artifacts are written to the same path. *)
Theorem compute_outputs_distinct_files target base_path options :
  extensions options = ∅ → arch target ≠ PNaCl →
  NoDup (planned_files options (compute_outputs target base_path options)).
Proof.
  intros Hext Harch.
  assert (∀ def, get_extension def options = def) as Hdef.
  { intros def. unfold get_extension. rewrite Hext, lookup_empty. reflexivity. }
  set (coff := bool_decide (os target = Windows) &&
               negb (has_feature target MinGW)).
  unfold planned_files.
  assert (planned options (compute_outputs target base_path options) =
          (λ a : bool * string, (a.1, if a.1 then base_path +:+ a.2 else ""))
          <$> [ (emit_o options, if coff then ".obj" else ".o");
                (emit_assembly options, ".s"); (emit_bitcode options, ".bc");
                (emit_h options, ".h"); (emit_cpp options, ".cpp");
                (emit_stmt options, ".stmt"); (emit_stmt_html options, ".html");
                (emit_static_library options, if coff then ".lib" else ".a") ])
    as ->.
  { unfold planned, compute_outputs. fold coff.
    rewrite (bool_decide_eq_false_2 _ Harch), !Hdef.
    destruct coff; reflexivity. }
  apply planned_files_distinct.
  destruct coff; apply (bool_decide_unpack _); vm_compute; exact I.
Qed.

Lemma compute_outputs_distinct_files_witness :
  extensions (emit_everything ∅) = ∅ ∧ arch windows_target ≠ PNaCl ∧
  NoDup (planned_files (emit_everything ∅)
           (compute_outputs windows_target "out" (emit_everything ∅))).
Proof.
  split; [reflexivity|]. split; [discriminate|].
  apply (compute_outputs_distinct_files windows_target "out"
           (emit_everything ∅)); [reflexivity | discriminate].
Defined.

(** X6.  An override table that mentions none of the extensions
    [compute_outputs] asks for changes nothing in the plan. *)
Theorem compute_outputs_foreign_overrides target base_path options :
  (∀ ext, ext ∈ default_extensions → extensions options !! ext = None) →
  compute_outputs target base_path options =
  compute_outputs target base_path (without_overrides options).
Proof.
  intros Hnone.
  assert (∀ ext, ext ∈ default_extensions →
            get_extension ext options =
            get_extension ext (without_overrides options)) as Hsame.
  { intros ext Hin. unfold get_extension, without_overrides. simpl.
    rewrite (Hnone ext Hin), lookup_empty. reflexivity. }
  unfold compute_outputs.
  rewrite !Hsame by (apply (bool_decide_unpack _); vm_compute; exact I).
  reflexivity.
Qed.

Lemma compute_outputs_foreign_overrides_witness :
  let options := emit_everything {[ ".txt" := ".md" ]} in
  (∀ ext, ext ∈ default_extensions → extensions options !! ext = None) ∧
  compute_outputs host_target "out" options =
  compute_outputs host_target "out" (without_overrides options).
Proof.
  intros options.
  assert (∀ ext, ext ∈ default_extensions → extensions options !! ext = None)
    as Hnone.
  { intros ext Hin. apply lookup_singleton_ne. intros <-.
    revert Hin. apply (bool_decide_unpack _). vm_compute. exact I. }
  split; [exact Hnone|].
  apply (compute_outputs_foreign_overrides host_target "out" options Hnone).
Defined.

End PlannerExtras.

Module GeneratorExtras.
Import Halide NameValidator Generator GeneratorTerms GeneratorFacts.

Section Facts.
Context `{!ParamCodec} `{!PipelineBuilder}.

(** *** Output types *)

Lemma push_output_types_run types dims : ∀ output_types,
  push_output_types types dims output_types =
  output_types ++
  imap (λ i t, result_argument (length output_types + i) (t, dims)) types.
Proof.
  induction types as [| t types IH]; intros acc; cbn [push_output_types imap].
  - rewrite app_nil_r. reflexivity.
  - rewrite IH, <- app_assoc. cbn [app]. f_equal. f_equal.
    + unfold result_argument, size_to_string. rewrite Nat.add_0_r. reflexivity.
    + apply imap_ext. intros i x _. simpl. rewrite length_app. simpl.
      f_equal. lia.
Qed.

Lemma output_types_run funcs : ∀ output_types,
  foldl (λ output_types (func : list Type_ * Z),
           push_output_types func.1 func.2 output_types) output_types funcs =
  output_types ++
  imap (λ i slot, result_argument (length output_types + i) slot)
    (output_slots funcs).
Proof.
  induction funcs as [| [types dims] funcs IH]; intros acc; simpl.
  - unfold output_slots. simpl. rewrite app_nil_r. reflexivity.
  - rewrite IH, push_output_types_run, <- app_assoc. f_equal.
    unfold output_slots. cbn [mbind list_bind fst snd].
    change (mbind ?f funcs) with (output_slots funcs).
    rewrite imap_app, imap_fmap. f_equal.
    apply imap_ext. intros i x _. simpl.
    rewrite length_app, length_imap, length_fmap. f_equal. lia.
Qed.

Lemma size_to_string_inj i j : size_to_string i = size_to_string j → i = j.
Proof.
  assert (∀ n, Nat.to_uint n ≠ Decimal.Nil) as Hnn.
  { intros n. rewrite <- (DecimalNat.Unsigned.of_to n) at 1.
    rewrite DecimalNat.Unsigned.to_of. apply DecimalFacts.unorm_nonnil. }
  unfold size_to_string. intros Heq.
  apply DecimalNat.Unsigned.to_uint_inj.
  apply (f_equal DecimalString.NilZero.uint_of_string) in Heq.
  rewrite !DecimalString.NilZero.usu in Heq by apply Hnn.
  congruence.
Qed.

(** X7.  [get_filter_output_types] builds the pipeline and returns one
    Argument per output type of its [Func]s, in order: number [i] is the
    output buffer named ["result_" + i] of that type with the dimensions of
    its [Func]; the names are pairwise distinct.  It fails exactly when the
    pipeline builder does. *)
Theorem get_filter_output_types_numbering g :
  let built := build_pipeline (mem_params g) (mem_inputs g) (mem_gparams g) in
  match built.1 with
  | inl e => (get_filter_output_types g).1 = inl e
  | inr pipeline =>
      ∃ output_types,
        (get_filter_output_types g).1 = inr output_types ∧
        output_types =
          imap result_argument (output_slots (pipeline_outputs pipeline)) ∧
        NoDup (arg_name <$> output_types)
  end.
Proof.
  intros built. unfold get_filter_output_types.
  rewrite run_bind, run_call_build_pipeline. fold built.
  destruct built.1 as [e | pipeline]; [reflexivity|].
  rewrite run_ret. eexists. split; [reflexivity|].
  rewrite output_types_run. cbn [app length Nat.add].
  split; [reflexivity|].
  apply NoDup_alt. intros i j x Hi Hj.
  rewrite list_lookup_fmap, list_lookup_imap in Hi, Hj.
  destruct (output_slots _ !! i) as [si |]; [| discriminate].
  destruct (output_slots _ !! j) as [sj |]; [| discriminate].
  simpl in Hi, Hj. rewrite <- Hj in Hi. injection Hi as Hi.
  exact (size_to_string_inj _ _ Hi).
Qed.


(** *** Reading and writing configuration values *)

(** Once the discovery has succeeded, a method that starts with
    [build_params] runs as on the instance the discovery left. *)
Lemma method_after_discovery {A} (k : unit → M A) g g0 :
  build_params g = (inr tt, g0) →
  (build_params ≫= k) g = (build_params ≫= k) g0.
Proof.
  intros Hrun. rewrite !run_bind, Hrun.
  rewrite (build_params_built g0 (build_params_success_built g g0 Hrun)).
  reflexivity.
Qed.

Lemma in_order_NoDup {V} (m : gmap string V) : NoDup (in_order m).*1.
Proof.
  unfold in_order. rewrite merge_sort_Permutation.
  apply NoDup_fst_map_to_list.
Qed.

Lemma collect_values_run entries : ∀ results g,
  (∀ k i, (k, i) ∈ entries →
     ∃ gp, mem_gparams g !! i = Some gp ∧ gp_name gp = k) →
  NoDup entries.*1 →
  ∃ values, collect_values entries results g = (inr values, g) ∧
    (∀ k, k ∉ entries.*1 → values !! k = results !! k) ∧
    (∀ k i gp, (k, i) ∈ entries → mem_gparams g !! i = Some gp →
       values !! k = Some (to_string (gp_value gp))).
Proof.
  induction entries as [| [k0 i0] entries IH]; intros results g Hsound Hnd.
  - exists results. split; [reflexivity|]. split; [reflexivity|].
    intros k i gp Hin. inversion Hin.
  - cbn [fmap list_fmap fst] in Hnd. apply NoDup_cons in Hnd as [Hk0 Hnd].
    destruct (Hsound k0 i0) as (gp0 & Hgp0 & Hname0); [apply list_elem_of_here|].
    cbn [collect_values snd]. rewrite run_bind, (run_deref _ _ _ _ Hgp0).
    destruct (IH (<[gp_name gp0 := to_string (gp_value gp0)]> results) g)
      as (values & Hrun & Hout & Hin); [| exact Hnd |].
    { intros k i Hki. apply Hsound. apply list_elem_of_further. exact Hki. }
    exists values. split; [exact Hrun|]. split.
    + intros k Hk. cbn [fmap list_fmap fst] in Hk.
      apply not_elem_of_cons in Hk as [Hne Hk].
      rewrite (Hout k Hk), Hname0. apply lookup_insert_ne. congruence.
    + intros k i gp [Heq | Hin']%elem_of_cons Hgp.
      * injection Heq as -> ->. rewrite (Hout k0 Hk0), Hname0, lookup_insert_eq.
        congruence.
      * exact (Hin k i gp Hin' Hgp).
Qed.

(** [get_generator_param_values] on a discovered instance. *)
Lemma get_generator_param_values_built g :
  wf g → params_built g = true →
  ∃ values, get_generator_param_values g = (inr values, g) ∧
    (∀ gp, gp ∈ mem_gparams g →
       values !! gp_name gp = Some (to_string (gp_value gp))) ∧
    (∀ k, k ∉ gp_name <$> mem_gparams g → values !! k = None).
Proof.
  intros Hwf Hb. unfold get_generator_param_values.
  rewrite run_bind, (build_params_built g Hb), run_bind.
  unfold gets at 1. cbn beta iota.
  destruct (wf_built g Hwf Hb) as (_ & _ & _ & Hcomplete).
  pose proof (wf_sound g Hwf) as Hsound.
  destruct (collect_values_run (in_order (generator_params g)) ∅ g)
    as (values & Hrun & Hout & Hin).
  { intros k i Hki. apply elem_of_in_order in Hki. exact (Hsound k i Hki). }
  { apply in_order_NoDup. }
  exists values. split; [exact Hrun|]. split.
  - intros gp Hgp. apply list_elem_of_lookup in Hgp as [i Hi].
    apply (Hin (gp_name gp) i gp); [| exact Hi].
    apply elem_of_in_order. exact (Hcomplete i gp Hi).
  - intros k Hk. rewrite Hout; [apply lookup_empty|].
    intros Hin'. apply Hk.
    apply list_elem_of_fmap in Hin' as ([k' i] & -> & Hki).
    apply elem_of_in_order in Hki.
    destruct (Hsound k' i Hki) as (gp & Hgp & <-).
    apply list_elem_of_fmap. exists gp. split; [reflexivity|].
    apply list_elem_of_lookup. eauto.
Qed.

(** X8.  When [get_generator_param_values] returns, the map it returns
    holds, for every configuration parameter of the instance, the
    [to_string] of its value under its name, and nothing else; the
    configuration parameters themselves are left as they were. *)
Theorem get_generator_param_values_contents g values g' :
  reachable g →
  get_generator_param_values g = (inr values, g') →
  mem_gparams g' = mem_gparams g ∧
  (∀ gp, gp ∈ mem_gparams g →
     values !! gp_name gp = Some (to_string (gp_value gp))) ∧
  (∀ k, k ∉ gp_name <$> mem_gparams g → values !! k = None).
Proof.
  intros Hreach. pose proof (reachable_wf g Hreach) as Hwf.
  destruct (build_params_summary g Hwf)
    as (r0 & g0 & ev0 & Hrun0 & _ & _ & Hgps0 & _ & _ & Hr0).
  pose proof (preserves_build_params g Hwf) as Hwf0. rewrite Hrun0 in Hwf0.
  simpl in Hwf0. unfold get_generator_param_values.
  destruct r0 as [e | []]; [rewrite run_bind, Hrun0; discriminate|].
  rewrite (method_after_discovery _ g g0 Hrun0).
  destruct Hr0 as [Hb0 _].
  destruct (get_generator_param_values_built g0 Hwf0 Hb0)
    as (values0 & Hrun & Hin & Hout).
  unfold get_generator_param_values in Hrun. rewrite Hrun.
  intros [= <- <-]. rewrite <- Hgps0. auto.
Qed.

Lemma names_after_write (gps : list GeneratorParamBase) ptr gp v' :
  gps !! ptr = Some gp →
  gp_name <$> <[ptr := mkGeneratorParam _ (gp_name gp) v']> gps =
  gp_name <$> gps.
Proof.
  intros Hgp. rewrite list_fmap_insert. simpl. apply list_insert_id.
  rewrite list_lookup_fmap, Hgp. reflexivity.
Qed.

(** The loop of [set_generator_param_values] over entries with distinct
    keys, on an instance whose name index is exact. *)
Lemma set_values_result entries : ∀ g,
  gp_sound (generator_params g) (mem_gparams g) →
  gp_complete (generator_params g) (mem_gparams g) →
  NoDup entries.*1 →
  ∃ r gps', set_values entries g = (r, set_mem_gparams gps' g) ∧
    gp_name <$> gps' = gp_name <$> mem_gparams g ∧
    (r = inr tt ↔
       ∀ k v, (k, v) ∈ entries →
         ∃ gp v', gp ∈ mem_gparams g ∧ gp_name gp = k ∧
                  from_string (gp_value gp) v = inr v') ∧
    (r = inr tt →
       ∀ i gp, mem_gparams g !! i = Some gp →
         (∀ v, (gp_name gp, v) ∈ entries →
            ∃ v', from_string (gp_value gp) v = inr v' ∧
                  gps' !! i = Some (mkGeneratorParam _ (gp_name gp) v')) ∧
         (gp_name gp ∉ entries.*1 → gps' !! i = Some gp)).
Proof.
  induction entries as [| [k0 v0] entries IH]; intros g Hsound Hcomplete Hnd.
  { exists (inr tt), (mem_gparams g). rewrite set_mem_gparams_id.
    split; [reflexivity|]. split; [reflexivity|]. split.
    - split; [intros _ k v Hin; inversion Hin | reflexivity].
    - intros _ i gp Hi. split; [intros v Hin; inversion Hin | auto]. }
  cbn [fmap list_fmap fst] in Hnd. apply NoDup_cons in Hnd as [Hk0 Hnd].
  assert (∀ i j gp gp', mem_gparams g !! i = Some gp →
            mem_gparams g !! j = Some gp' → gp_name gp = gp_name gp' → i = j)
    as Hunique.
  { intros i j gp gp' Hi Hj Heq.
    pose proof (Hcomplete i gp Hi) as H1. pose proof (Hcomplete j gp' Hj) as H2.
    rewrite Heq in H1. congruence. }
  cbn [set_values fst snd]. rewrite run_bind.
  destruct (set_one_value_spec k0 v0 g Hsound)
    as [[Hnone Hrun1] | (ptr & gp0 & Hptr & Hgp0 & Hname0 & Hcase)].
  { rewrite Hrun1. exists (inl (no_such_param_error k0)), (mem_gparams g).
    rewrite set_mem_gparams_id. split; [reflexivity|]. split; [reflexivity|].
    split; [| discriminate]. split; [discriminate|].
    intros Hall. exfalso.
    destruct (Hall k0 v0) as (gp & v' & Hgp & Hname & _);
      [apply list_elem_of_here|].
    apply list_elem_of_lookup in Hgp as [i Hi].
    pose proof (Hcomplete i gp Hi) as Hidx. rewrite Hname in Hidx. congruence. }
  destruct (from_string (gp_value gp0) v0) as [e | v'] eqn:Hfs.
  { rewrite Hcase. exists (inl e), (mem_gparams g).
    rewrite set_mem_gparams_id. split; [reflexivity|]. split; [reflexivity|].
    split; [| discriminate]. split; [discriminate|].
    intros Hall. exfalso.
    destruct (Hall k0 v0) as (gp & v' & Hgp & Hname & Hok);
      [apply list_elem_of_here|].
    apply list_elem_of_lookup in Hgp as [i Hi].
    assert (i = ptr) as -> by (apply (Hunique i ptr gp gp0); congruence).
    rewrite Hgp0 in Hi. injection Hi as <-. congruence. }
  rewrite Hcase.
  set (gps1 := <[ptr := mkGeneratorParam _ k0 v']> (mem_gparams g)).
  set (g1 := set_mem_gparams gps1 g).
  assert (gp_name <$> gps1 = gp_name <$> mem_gparams g) as Hnames1.
  { subst gps1. rewrite <- Hname0. apply names_after_write. exact Hgp0. }
  assert (gp_sound (generator_params g1) (mem_gparams g1)) as Hsound1.
  { apply gp_sound_names. subst g1. simpl. rewrite Hnames1.
    apply gp_sound_names. exact Hsound. }
  assert (gp_complete (generator_params g1) (mem_gparams g1)) as Hcomplete1.
  { apply gp_complete_names. subst g1. simpl. rewrite Hnames1.
    apply gp_complete_names. exact Hcomplete. }
  assert (∀ i gp, mem_gparams g !! i = Some gp → gp_name gp ≠ k0 →
            gps1 !! i = Some gp) as Hother.
  { intros i gp Hi Hne. subst gps1. rewrite list_lookup_insert_ne; [exact Hi|].
    intros <-. rewrite Hgp0 in Hi. injection Hi as <-. congruence. }
  assert (gps1 !! ptr = Some (mkGeneratorParam _ k0 v')) as Hwritten.
  { subst gps1. apply list_lookup_insert_eq. apply lookup_lt_Some in Hgp0.
    exact Hgp0. }
  destruct (IH g1 Hsound1 Hcomplete1 Hnd) as (r & gps' & Hrun & Hnames & Hiff & Hres).
  exists r, gps'. split; [exact Hrun|].
  split; [rewrite Hnames; exact Hnames1|]. split.
  - rewrite Hiff. split.
    + intros Hall k v [Heq | Hin]%elem_of_cons.
      * injection Heq as -> ->. exists gp0, v'.
        split; [apply list_elem_of_lookup; eauto|]. split; assumption.
      * destruct (Hall k v Hin) as (gp & w & Hgp & Hname & Hok).
        exists gp, w. split; [| split; assumption].
        apply list_elem_of_lookup in Hgp as [i Hi]. change (mem_gparams g1) with gps1 in Hi.
        destruct (decide (i = ptr)) as [-> | Hne].
        { rewrite Hwritten in Hi. injection Hi as <-. simpl in Hname.
          exfalso. apply Hk0. rewrite Hname.
          apply list_elem_of_fmap. exists (k, v). split; [reflexivity | exact Hin]. }
        subst gps1. rewrite list_lookup_insert_ne in Hi by congruence.
        apply list_elem_of_lookup. eauto.
    + intros Hall k v Hin.
      destruct (Hall k v) as (gp & w & Hgp & Hname & Hok);
        [apply list_elem_of_further; exact Hin|].
      exists gp, w. split; [| split; assumption].
      apply list_elem_of_lookup in Hgp as [i Hi].
      apply list_elem_of_lookup. exists i. apply Hother; [exact Hi|].
      intros Heq. apply Hk0. rewrite <- Heq, Hname.
      apply list_elem_of_fmap. exists (k, v). split; [reflexivity | exact Hin].
  - intros Hr i gp Hi. specialize (Hres Hr).
    destruct (decide (gp_name gp = k0)) as [Heq | Hne].
    + assert (i = ptr) as -> by (apply (Hunique i ptr gp gp0); congruence).
      rewrite Hgp0 in Hi. injection Hi as <-.
      destruct (Hres ptr _ Hwritten) as [_ Hframe]. simpl in Hframe.
      specialize (Hframe Hk0). split.
      * intros v [Hhead | Hin]%elem_of_cons.
        { injection Hhead as _ ->. exists v'. rewrite Hname0.
          split; assumption. }
        exfalso. apply Hk0. rewrite <- Hname0.
        apply list_elem_of_fmap. exists (gp_name gp0, v).
        split; [reflexivity | exact Hin].
      * intros Hnot. exfalso. apply Hnot. rewrite Hname0.
        apply list_elem_of_here.
    + destruct (Hres i gp (Hother i gp Hi Hne)) as [Hset Hframe]. split.
      * intros v [Hhead | Hin]%elem_of_cons; [congruence | exact (Hset v Hin)].
      * intros Hnot. apply Hframe. intros Hin. apply Hnot.
        apply list_elem_of_further. exact Hin.
Qed.

(** [set_generator_param_values] on a discovered instance. *)
Lemma set_generator_param_values_built (params : GeneratorParamValues) g :
  wf g → params_built g = true →
  ∃ r gps', set_generator_param_values params g = (r, set_mem_gparams gps' g) ∧
    gp_name <$> gps' = gp_name <$> mem_gparams g ∧
    (r = inr tt ↔
       ∀ k v, params !! k = Some v →
         ∃ gp v', gp ∈ mem_gparams g ∧ gp_name gp = k ∧
                  from_string (gp_value gp) v = inr v') ∧
    (r = inr tt →
       ∀ i gp, mem_gparams g !! i = Some gp →
         match params !! gp_name gp with
         | Some v => ∃ v', from_string (gp_value gp) v = inr v' ∧
                           gps' !! i = Some (mkGeneratorParam _ (gp_name gp) v')
         | None => gps' !! i = Some gp
         end).
Proof.
  intros Hwf Hb. unfold set_generator_param_values.
  rewrite run_bind, (build_params_built g Hb).
  destruct (wf_built g Hwf Hb) as (_ & _ & _ & Hcomplete).
  destruct (set_values_result (in_order params) g (wf_sound g Hwf) Hcomplete
              (in_order_NoDup params))
    as (r & gps' & Hrun & Hnames & Hiff & Hres).
  exists r, gps'. split; [exact Hrun|]. split; [exact Hnames|]. split.
  - rewrite Hiff. split; intros Hall k v Hkv; apply Hall.
    + apply elem_of_in_order. exact Hkv.
    + apply elem_of_in_order in Hkv. exact Hkv.
  - intros Hr i gp Hi. destruct (Hres Hr i gp Hi) as [Hset Hframe].
    destruct (params !! gp_name gp) as [v |] eqn:Hv.
    + apply Hset. apply elem_of_in_order. exact Hv.
    + apply Hframe. intros Hin.
      apply list_elem_of_fmap in Hin as ([k v] & Hk & Hkv). simpl in Hk. subst k.
      apply elem_of_in_order in Hkv. congruence.
Qed.

(** X9.  On an instance whose discovery succeeds, if every supplied key
    names a configuration parameter whose [from_string] accepts the
    supplied value, [set_generator_param_values] returns, each named
    parameter holds what [from_string] made of its value, and every other
    configuration parameter is as before. *)
Theorem set_generator_param_values_applies g (params : GeneratorParamValues) :
  reachable g → (build_params g).1 = inr tt →
  (∀ k v, params !! k = Some v →
     ∃ gp v', gp ∈ mem_gparams g ∧ gp_name gp = k ∧
              from_string (gp_value gp) v = inr v') →
  ∃ g', set_generator_param_values params g = (inr tt, g') ∧
    ∀ i gp, mem_gparams g !! i = Some gp →
      match params !! gp_name gp with
      | Some v => ∃ v', from_string (gp_value gp) v = inr v' ∧
                        mem_gparams g' !! i =
                          Some (mkGeneratorParam _ (gp_name gp) v')
      | None => mem_gparams g' !! i = Some gp
      end.
Proof.
  intros Hreach Hok Hall. pose proof (reachable_wf g Hreach) as Hwf.
  destruct (build_params_summary g Hwf)
    as (r0 & g0 & ev0 & Hrun0 & _ & _ & Hgps0 & _ & _ & Hr0).
  pose proof (preserves_build_params g Hwf) as Hwf0. rewrite Hrun0 in Hwf0.
  simpl in Hwf0. rewrite Hrun0 in Hok. simpl in Hok. subst r0.
  destruct Hr0 as [Hb0 _].
  unfold set_generator_param_values.
  rewrite (method_after_discovery _ g g0 Hrun0).
  destruct (set_generator_param_values_built params g0 Hwf0 Hb0)
    as (r & gps' & Hrun & _ & Hiff & Hres).
  unfold set_generator_param_values in Hrun. rewrite Hrun.
  assert (r = inr tt) as ->.
  { apply Hiff. rewrite Hgps0. exact Hall. }
  eexists. split; [reflexivity|]. simpl.
  intros i gp Hi. apply (Hres eq_refl). rewrite Hgps0. exact Hi.
Qed.

(** X10.  Writing then reading: after [set_generator_param_values] has
    returned, [get_generator_param_values] returns a map that contains
    every supplied entry, provided [to_string] gives back the strings that
    [from_string] accepted. *)
Theorem set_then_get_generator_param_values g (params : GeneratorParamValues)
    g1 :
  reachable g →
  set_generator_param_values params g = (inr tt, g1) →
  (∀ k v old v', params !! k = Some v → from_string old v = inr v' →
     to_string v' = v) →
  ∃ values, get_generator_param_values g1 = (inr values, g1) ∧
    params ⊆ values.
Proof.
  intros Hreach Hset Hcodec. pose proof (reachable_wf g Hreach) as Hwf.
  destruct (build_params_summary g Hwf)
    as (r0 & g0 & ev0 & Hrun0 & _ & _ & Hgps0 & _ & _ & Hr0).
  pose proof (preserves_build_params g Hwf) as Hwf0. rewrite Hrun0 in Hwf0.
  simpl in Hwf0. unfold set_generator_param_values in Hset.
  destruct r0 as [e | []]; [rewrite run_bind, Hrun0 in Hset; discriminate|].
  rewrite (method_after_discovery _ g g0 Hrun0) in Hset.
  destruct Hr0 as [Hb0 _].
  destruct (set_generator_param_values_built params g0 Hwf0 Hb0)
    as (r & gps' & Hrun & Hnames & Hiff & Hres).
  unfold set_generator_param_values in Hrun. rewrite Hrun in Hset.
  injection Hset as -> <-.
  assert (wf (set_mem_gparams gps' g0)) as Hwf1.
  { apply (wf_transfer g0); try reflexivity; [exact Hnames | exact Hwf0]. }
  destruct (get_generator_param_values_built (set_mem_gparams gps' g0) Hwf1 Hb0)
    as (values & Hget & Hin & _).
  exists values. split; [exact Hget|].
  apply map_subseteq_spec. intros k v Hkv.
  destruct (proj1 Hiff eq_refl k v Hkv) as (gp & w & Hgp & Hname & Hw).
  apply list_elem_of_lookup in Hgp as [i Hi].
  pose proof (Hres eq_refl i gp Hi) as Hnew. rewrite Hname, Hkv in Hnew.
  destruct Hnew as (w' & Hw' & Hnew).
  specialize (Hin (mkGeneratorParam _ (gp_name gp) w')).
  simpl in Hin. rewrite Hname in Hin. rewrite Hin.
  - f_equal. exact (Hcodec k v _ w' Hkv Hw').
  - apply list_elem_of_lookup. exists i. exact Hnew.
Qed.


(** *** What the methods leave alone *)

Section Frame.
Variable R : relation GeneratorBase.
Hypothesis R_refl : ∀ g, R g g.
Hypothesis R_trans : ∀ g1 g2 g3, R g1 g2 → R g2 g3 → R g1 g3.
(** The writes of the discovery: to the trace, the three containers and
    the flag; and the reset that opens [rebuild_params]. *)
Hypothesis R_trace : ∀ g e, R g (set_log (log g ++ [e]) g).
Hypothesis R_found_param : ∀ g v,
  R g (set_filter_params (filter_params g ++ [v]) g).
Hypothesis R_found_input : ∀ g v,
  R g (set_filter_inputs (filter_inputs g ++ [v]) g).
Hypothesis R_found_gparam : ∀ g k v,
  R g (set_generator_params (<[k := v]> (generator_params g)) g).
Hypothesis R_built : ∀ g, R g (set_params_built true g).
Hypothesis R_reset : ∀ g, R g (reset_params g).
(** [init_internals] on an input, [build_pipeline] on the free parameters,
    [from_string] on a configuration parameter. *)
Hypothesis R_inputs : ∀ g i input,
  mem_inputs g !! i = Some input →
  R g (set_mem_inputs (<[i := init_internals input]> (mem_inputs g)) g).
Hypothesis R_params : ∀ g ps',
  length ps' = length (mem_params g) → R g (set_mem_params ps' g).
Hypothesis R_gparams : ∀ g ptr gp v',
  mem_gparams g !! ptr = Some gp →
  R g (set_mem_gparams
         (<[ptr := mkGeneratorParam _ (gp_name gp) v']> (mem_gparams g)) g).

Lemma frames_bind {A B} (m : M A) (k : A → M B) :
  frames R m → (∀ a, frames R (k a)) → frames R (m ≫= k).
Proof.
  intros Hm Hk g. rewrite run_bind. specialize (Hm g).
  destruct (m g) as [[e | a] g1]; [exact Hm|].
  exact (R_trans _ _ _ Hm (Hk a g1)).
Qed.

Lemma frames_ret {A} (a : A) : frames R (mret a : M A).
Proof. intros g. apply R_refl. Qed.

Lemma frames_gets {A} (f : GeneratorBase → A) : frames R (gets f).
Proof. intros g. apply R_refl. Qed.

Lemma frames_raise {A} e : frames R (raise e : M A).
Proof. intros g. apply R_refl. Qed.

Lemma frames_user_assert cond msg : frames R (user_assert cond msg).
Proof. intros g. destruct cond; apply R_refl. Qed.

Lemma frames_deref {A} (mem : GeneratorBase → list A) v :
  frames R (deref mem v).
Proof.
  intros g. unfold deref. rewrite run_bind. unfold gets. simpl.
  destruct (mem g !! v); apply R_refl.
Qed.

Lemma frames_trace e : frames R (trace e).
Proof. intros g. apply R_trace. Qed.

Ltac frame_step :=
  lazymatch goal with
  | |- frames _ (deref _ _) => apply frames_deref
  | |- frames _ (user_assert _ _) => apply frames_user_assert
  | |- frames _ (gets _) => apply frames_gets
  | |- frames _ (raise _) => apply frames_raise
  | |- frames _ (mret _) => apply frames_ret
  | |- frames _ (trace _) => apply frames_trace
  | |- frames _ (modify _) =>
      let g := fresh "g" in
      intros g; unfold modify; cbn [snd];
      first [ apply R_found_param | apply R_found_input
            | apply R_found_gparam | apply R_built | apply R_reset ]
  | |- frames _ (_ ≫= _) => apply frames_bind; [| intros ?]
  end.

Lemma frames_instances_in_range kind : frames R (instances_in_range kind).
Proof. unfold instances_in_range. repeat frame_step. Qed.

Lemma frames_check_duplicate_param ps nm :
  frames R (check_duplicate_param ps nm).
Proof.
  induction ps as [| p ps IH]; cbn [check_duplicate_param];
    repeat frame_step. exact IH.
Qed.

Lemma frames_scan_filter_params vf : frames R (scan_filter_params vf).
Proof.
  induction vf as [| v vf IH]; cbn [scan_filter_params]; repeat frame_step;
    [apply frames_check_duplicate_param | exact IH].
Qed.

Lemma frames_check_duplicate_input ins nm :
  frames R (check_duplicate_input ins nm).
Proof.
  induction ins as [| i ins IH]; cbn [check_duplicate_input];
    repeat frame_step. exact IH.
Qed.

Lemma frames_scan_inputs vi : frames R (scan_inputs vi).
Proof.
  induction vi as [| v vi IH]; cbn [scan_inputs]; repeat frame_step;
    [apply frames_check_duplicate_input | exact IH].
Qed.

Lemma frames_scan_generator_params vg : frames R (scan_generator_params vg).
Proof.
  induction vg as [| v vg IH]; cbn [scan_generator_params];
    repeat frame_step. exact IH.
Qed.

Lemma frames_build_params : frames R build_params.
Proof.
  unfold build_params. frame_step; [frame_step|].
  destruct (negb a); [| frame_step].
  frame_step; [apply frames_instances_in_range|].
  frame_step; [apply frames_scan_filter_params|].
  frame_step; [apply frames_instances_in_range|].
  frame_step; [apply frames_scan_inputs|].
  frame_step; [frame_step|].
  frame_step; [destruct (_ && _); frame_step|].
  frame_step; [apply frames_instances_in_range|].
  frame_step; [apply frames_scan_generator_params|].
  frame_step.
Qed.

Lemma frames_rebuild_params : frames R rebuild_params.
Proof.
  unfold rebuild_params. frame_step; [frame_step | apply frames_build_params].
Qed.

Lemma frames_init_inputs_loop ins : frames R (init_inputs_loop ins).
Proof.
  induction ins as [| i ins IH]; cbn [init_inputs_loop]; [frame_step|].
  intros g. rewrite run_bind. unfold deref. rewrite run_bind. unfold gets at 1.
  cbn beta iota. unfold id.
  destruct (mem_inputs g !! i) as [input |] eqn:Hi; [| apply R_refl].
  rewrite run_ret, run_bind. unfold modify at 1. cbn beta iota.
  eapply R_trans; [apply (R_inputs g i input Hi) | apply IH].
Qed.

Lemma frames_init_inputs : frames R init_inputs.
Proof. unfold init_inputs. frame_step; [frame_step|]. apply frames_init_inputs_loop. Qed.

Lemma frames_arguments_of_params ps : frames R (arguments_of_params ps).
Proof.
  induction ps as [| p ps IH]; cbn [arguments_of_params]; repeat frame_step.
  exact IH.
Qed.

Lemma frames_arguments_of_inputs ins : frames R (arguments_of_inputs ins).
Proof.
  induction ins as [| i ins IH]; cbn [arguments_of_inputs]; repeat frame_step.
  exact IH.
Qed.

Lemma frames_get_filter_arguments : frames R get_filter_arguments.
Proof.
  unfold get_filter_arguments.
  frame_step; [apply frames_build_params|].
  frame_step; [apply frames_init_inputs|].
  frame_step; [frame_step|].
  frame_step; [apply frames_arguments_of_params|].
  frame_step; [frame_step|].
  frame_step; [apply frames_arguments_of_inputs|].
  frame_step.
Qed.

Lemma frames_collect_values entries : ∀ results,
  frames R (collect_values entries results).
Proof.
  induction entries as [| kv entries IH]; intros results;
    cbn [collect_values]; repeat frame_step. apply IH.
Qed.

Lemma frames_get_generator_param_values : frames R get_generator_param_values.
Proof.
  unfold get_generator_param_values.
  frame_step; [apply frames_build_params|].
  frame_step; [frame_step|]. apply frames_collect_values.
Qed.

Lemma frames_call_build_pipeline : frames R call_build_pipeline.
Proof.
  intros g. rewrite run_call_build_pipeline. cbn [snd].
  eapply R_trans; [apply (R_trace g build_pipeline_call)|].
  apply (R_params (set_log (log g ++ [build_pipeline_call]) g)). simpl.
  apply build_pipeline_layout.
Qed.

Lemma frames_get_filter_output_types : frames R get_filter_output_types.
Proof.
  unfold get_filter_output_types.
  frame_step; [apply frames_call_build_pipeline | frame_step].
Qed.

Lemma frames_build_module fn linkage : frames R (build_module fn linkage).
Proof.
  unfold build_module.
  frame_step; [apply frames_build_params|].
  frame_step; [apply frames_call_build_pipeline|].
  frame_step; [frame_step|].
  frame_step; [destruct (bool_decide _); [apply frames_rebuild_params | frame_step]|].
  frame_step; [apply frames_get_filter_arguments|].
  repeat frame_step.
Qed.

Lemma frames_set_one_value key value : frames R (set_one_value key value).
Proof.
  intros g. unfold set_one_value. rewrite run_bind. unfold gets at 1.
  cbn beta iota. destruct (generator_params g !! key) as [ptr |]; [| apply R_refl].
  unfold deref. rewrite !run_bind. unfold gets at 1. cbn beta iota. unfold id.
  destruct (mem_gparams g !! ptr) as [gp |] eqn:Hgp; [| apply R_refl].
  rewrite run_ret. destruct (from_string (gp_value gp) value); [apply R_refl|].
  apply (R_gparams g ptr gp). exact Hgp.
Qed.

Lemma frames_set_values entries : frames R (set_values entries).
Proof.
  induction entries as [| kv entries IH]; cbn [set_values]; [frame_step|].
  frame_step; [apply frames_set_one_value | exact IH].
Qed.

Lemma frames_set_generator_param_values params :
  frames R (set_generator_param_values params).
Proof.
  unfold set_generator_param_values.
  frame_step; [apply frames_build_params | apply frames_set_values].
Qed.

End Frame.


Lemma init_internals_name i : input_name (init_internals i) = input_name i.
Proof.
  unfold init_internals, input_name.
  destruct (is_buffer (parameter_ i)); [| reflexivity].
  destruct (type_param i), (dimension_param i); reflexivity.
Qed.

Lemma init_internals_signature i :
  input_signature (init_internals i) = input_signature i.
Proof.
  unfold input_signature. rewrite init_internals_name. f_equal.
  unfold init_internals.
  destruct (is_buffer (parameter_ i)) eqn:Hb; [| exact Hb].
  destruct (type_param i), (dimension_param i); simpl; try reflexivity.
  exact Hb.
Qed.

Lemma members_kept_refl g : members_kept g g.
Proof. repeat split. Qed.

Lemma members_kept_trans g1 g2 g3 :
  members_kept g1 g2 → members_kept g2 g3 → members_kept g1 g3.
Proof.
  intros (Hp1 & Hi1 & Hg1) (Hp2 & Hi2 & Hg2).
  split; [congruence|]. split; congruence.
Qed.

Lemma members_kept_bookkeeping g g' :
  mem_params g' = mem_params g → mem_inputs g' = mem_inputs g →
  mem_gparams g' = mem_gparams g → members_kept g g'.
Proof. intros Hp Hi Hg. unfold members_kept. rewrite Hp, Hi, Hg. auto. Qed.

Lemma members_kept_inputs g i input :
  mem_inputs g !! i = Some input →
  members_kept g
    (set_mem_inputs (<[i := init_internals input]> (mem_inputs g)) g).
Proof.
  intros Hi. split; [reflexivity|]. split; [| reflexivity]. simpl.
  rewrite list_fmap_insert, init_internals_signature. apply list_insert_id.
  rewrite list_lookup_fmap, Hi. reflexivity.
Qed.

Lemma members_kept_params g ps' :
  length ps' = length (mem_params g) → members_kept g (set_mem_params ps' g).
Proof. intros Hlen. split; [exact Hlen|]. split; reflexivity. Qed.

Lemma members_kept_gparams g ptr gp v' :
  mem_gparams g !! ptr = Some gp →
  members_kept g
    (set_mem_gparams
       (<[ptr := mkGeneratorParam _ (gp_name gp) v']> (mem_gparams g)) g).
Proof.
  intros Hgp. split; [reflexivity|]. split; [reflexivity|]. simpl.
  apply names_after_write. exact Hgp.
Qed.

Lemma gparams_kept_trans g1 g2 g3 :
  gparams_kept g1 g2 → gparams_kept g2 g3 → gparams_kept g1 g3.
Proof. unfold gparams_kept. congruence. Qed.

(** A relation that the bookkeeping of the discovery cannot disturb is
    kept by every method that writes nothing else it is sensitive to. *)
Lemma frames_methods (R : relation GeneratorBase) :
  (∀ g, R g g) → (∀ g1 g2 g3, R g1 g2 → R g2 g3 → R g1 g3) →
  (∀ g g', mem_params g' = mem_params g → mem_inputs g' = mem_inputs g →
           mem_gparams g' = mem_gparams g → R g g') →
  (∀ g i input, mem_inputs g !! i = Some input →
     R g (set_mem_inputs (<[i := init_internals input]> (mem_inputs g)) g)) →
  (∀ g ps', length ps' = length (mem_params g) → R g (set_mem_params ps' g)) →
  frames R build_params ∧
  frames R rebuild_params ∧
  frames R get_filter_arguments ∧
  frames R get_generator_param_values ∧
  frames R get_filter_output_types ∧
  (∀ fn linkage, frames R (build_module fn linkage)) ∧
  ((∀ g ptr gp v', mem_gparams g !! ptr = Some gp →
      R g (set_mem_gparams
             (<[ptr := mkGeneratorParam _ (gp_name gp) v']> (mem_gparams g))
             g)) →
   ∀ params, frames R (set_generator_param_values params)).
Proof.
  intros Hr Ht Hb Hi Hp.
  assert (∀ g e, R g (set_log (log g ++ [e]) g)) as F1
    by (intros; apply Hb; reflexivity).
  assert (∀ g v, R g (set_filter_params (filter_params g ++ [v]) g)) as F2
    by (intros; apply Hb; reflexivity).
  assert (∀ g v, R g (set_filter_inputs (filter_inputs g ++ [v]) g)) as F3
    by (intros; apply Hb; reflexivity).
  assert (∀ g k v,
            R g (set_generator_params (<[k := v]> (generator_params g)) g))
    as F4 by (intros; apply Hb; reflexivity).
  assert (∀ g, R g (set_params_built true g)) as F5
    by (intros; apply Hb; reflexivity).
  assert (∀ g, R g (reset_params g)) as F6
    by (intros; apply Hb; reflexivity).
  split; [apply frames_build_params; assumption|].
  split; [apply frames_rebuild_params; assumption|].
  split; [apply frames_get_filter_arguments; assumption|].
  split; [apply frames_get_generator_param_values; assumption|].
  split; [apply frames_get_filter_output_types; assumption|].
  split; [intros fn linkage; apply frames_build_module; assumption|].
  intros Hg params. apply frames_set_generator_param_values; assumption.
Qed.

Lemma members_kept_frames :
  frames members_kept build_params ∧
  frames members_kept rebuild_params ∧
  frames members_kept get_filter_arguments ∧
  frames members_kept get_generator_param_values ∧
  (∀ params, frames members_kept (set_generator_param_values params)) ∧
  frames members_kept get_filter_output_types ∧
  (∀ fn linkage, frames members_kept (build_module fn linkage)).
Proof.
  destruct (frames_methods members_kept members_kept_refl members_kept_trans
              members_kept_bookkeeping members_kept_inputs members_kept_params)
    as (F1 & F2 & F3 & F4 & F5 & F6 & F7).
  specialize (F7 members_kept_gparams). auto 10.
Qed.

Lemma members_in_place_frames :
  frames members_in_place build_params ∧
  frames members_in_place rebuild_params ∧
  frames members_in_place get_filter_arguments ∧
  frames members_in_place get_generator_param_values ∧
  (∀ params, frames members_in_place (set_generator_param_values params)).
Proof.
  assert (∀ g, members_in_place g g) as Hr by (intros g; repeat split).
  assert (∀ g1 g2 g3, members_in_place g1 g2 → members_in_place g2 g3 →
            members_in_place g1 g3) as Ht.
  { intros g1 g2 g3 (Hp1 & Hi1 & Hg1) (Hp2 & Hi2 & Hg2).
    split; [congruence|]. split; congruence. }
  assert (∀ g g', mem_params g' = mem_params g → mem_inputs g' = mem_inputs g →
            mem_gparams g' = mem_gparams g → members_in_place g g') as Hb.
  { intros g g' Hp Hi Hg. unfold members_in_place. rewrite Hp, Hi, Hg. auto. }
  assert (∀ g e, members_in_place g (set_log (log g ++ [e]) g)) as F1
    by (intros; apply Hb; reflexivity).
  assert (∀ g v, members_in_place g
                   (set_filter_params (filter_params g ++ [v]) g)) as F2
    by (intros; apply Hb; reflexivity).
  assert (∀ g v, members_in_place g
                   (set_filter_inputs (filter_inputs g ++ [v]) g)) as F3
    by (intros; apply Hb; reflexivity).
  assert (∀ g k v, members_in_place g
                     (set_generator_params (<[k := v]> (generator_params g)) g))
    as F4 by (intros; apply Hb; reflexivity).
  assert (∀ g, members_in_place g (set_params_built true g)) as F5
    by (intros; apply Hb; reflexivity).
  assert (∀ g, members_in_place g (reset_params g)) as F6
    by (intros; apply Hb; reflexivity).
  assert (∀ g i input, mem_inputs g !! i = Some input →
            members_in_place g
              (set_mem_inputs (<[i := init_internals input]> (mem_inputs g)) g))
    as Hi.
  { intros g i input Hin. split; [reflexivity|].
    exact (proj2 (members_kept_inputs g i input Hin)). }
  assert (∀ g ptr gp v', mem_gparams g !! ptr = Some gp →
            members_in_place g
              (set_mem_gparams
                 (<[ptr := mkGeneratorParam _ (gp_name gp) v']> (mem_gparams g))
                 g)) as Hg.
  { intros g ptr gp v' Hgp. split; [reflexivity|].
    exact (proj2 (members_kept_gparams g ptr gp v' Hgp)). }
  split; [apply frames_build_params; assumption|].
  split; [apply frames_rebuild_params; assumption|].
  split; [apply frames_get_filter_arguments; assumption|].
  split; [apply frames_get_generator_param_values; assumption|].
  intros params. apply frames_set_generator_param_values; assumption.
Qed.

(** X11.  The methods that do not run the pipeline builder create, remove
    and rename no member object: after [build_params], [rebuild_params],
    [get_filter_arguments], [get_generator_param_values] or
    [set_generator_param_values], however the call ends, the free
    parameters are the objects they were, the inputs are the same by name
    and kind ([init_internals] keeps both), and the configuration
    parameters are the same by name ([from_string] writes values only). *)
Theorem methods_keep_members g :
  members_in_place g (build_params g).2 ∧
  members_in_place g (rebuild_params g).2 ∧
  members_in_place g (get_filter_arguments g).2 ∧
  members_in_place g (get_generator_param_values g).2 ∧
  (∀ params, members_in_place g (set_generator_param_values params g).2).
Proof.
  destruct members_in_place_frames as (F1 & F2 & F3 & F4 & F5).
  split; [apply F1|]. split; [apply F2|]. split; [apply F3|].
  split; [apply F4|]. intros params. apply F5.
Qed.

Lemma gparams_kept_frames :
  frames gparams_kept build_params ∧
  frames gparams_kept rebuild_params ∧
  frames gparams_kept get_filter_arguments ∧
  frames gparams_kept get_generator_param_values ∧
  frames gparams_kept get_filter_output_types ∧
  (∀ fn linkage, frames gparams_kept (build_module fn linkage)).
Proof.
  destruct (frames_methods gparams_kept) as (F1 & F2 & F3 & F4 & F5 & F6 & _);
    try (intros; reflexivity); [| | auto 10].
  - exact gparams_kept_trans.
  - intros g g' _ _ Hg. exact Hg.
Qed.

Lemma gparams_kept_discovery :
  frames gparams_kept build_params ∧
  frames gparams_kept rebuild_params ∧
  frames gparams_kept get_filter_arguments ∧
  frames gparams_kept get_generator_param_values.
Proof.
  assert (∀ g, gparams_kept g g) as Hr by reflexivity.
  pose proof gparams_kept_trans as Ht.
  split; [apply frames_build_params; try assumption; intros; reflexivity|].
  split; [apply frames_rebuild_params; try assumption; intros; reflexivity|].
  split; [apply frames_get_filter_arguments; try assumption; intros;
          reflexivity|].
  apply frames_get_generator_param_values; try assumption; intros; reflexivity.
Qed.

(** X12.  Among the methods that do not run the pipeline builder, only
    [set_generator_param_values] writes a configuration parameter:
    [build_params], [rebuild_params], [get_filter_arguments] and
    [get_generator_param_values] leave every configuration parameter with
    the value it had, whether they return or raise. *)
Theorem only_set_writes_configuration g :
  mem_gparams (build_params g).2 = mem_gparams g ∧
  mem_gparams (rebuild_params g).2 = mem_gparams g ∧
  mem_gparams (get_filter_arguments g).2 = mem_gparams g ∧
  mem_gparams (get_generator_param_values g).2 = mem_gparams g.
Proof.
  destruct gparams_kept_discovery as (F1 & F2 & F3 & F4).
  split; [apply F1|]. split; [apply F2|]. split; [apply F3|]. apply F4.
Qed.

(** What the module of a successful [build_module] is compiled for. *)
Lemma build_module_request fn linkage g m g' :
  build_module fn linkage g = (inr m, g') →
  module_name m = fn ∧ module_linkage m = linkage ∧
  module_target m = get_target (mem_gparams g).
Proof.
  destruct gparams_kept_frames as (H1 & H2 & H3 & _ & _ & _).
  assert (frames gparams_kept call_build_pipeline) as Hcall.
  { intros g0. rewrite run_call_build_pipeline. reflexivity. }
  unfold build_module. rewrite run_bind.
  pose proof (H1 g) as Hk0.
  destruct (build_params g) as [[e | []] g0]; [discriminate|].
  rewrite run_bind. pose proof (Hcall g0) as Hk1.
  destruct (call_build_pipeline g0) as [[e | pipeline] g1]; [discriminate|].
  rewrite run_bind. unfold gets at 1. cbn beta iota. rewrite run_bind.
  set (step := if bool_decide (0 < length (filter_params g1))
               then rebuild_params else mret tt).
  assert (gparams_kept g1 (step g1).2) as Hk2.
  { subst step. destruct (bool_decide _); [apply H2 | reflexivity]. }
  destruct (step g1) as [[e | []] g2]; [discriminate|].
  rewrite run_bind. pose proof (H3 g2) as Hk3.
  destruct (get_filter_arguments g2) as [[e | args] g3]; [discriminate|].
  rewrite run_bind. unfold gets at 1. cbn beta iota. rewrite run_ret.
  intros [= <- <-]. simpl in *. unfold gparams_kept in *.
  split; [reflexivity|]. split; [reflexivity|]. congruence.
Qed.

(** *** Names of the arguments *)

Lemma arg_name_to_argument p : arg_name (to_argument p) = name p.
Proof. unfold to_argument. destruct (negb (is_buffer p)); reflexivity. Qed.

Lemma arg_kind_to_argument p : arg_kind (to_argument p) ≠ OutputBuffer.
Proof.
  unfold to_argument. destruct (negb (is_buffer p)), (is_buffer p); discriminate.
Qed.

Lemma filter_arguments_of_names ps inputs :
  arg_name <$> filter_arguments_of ps inputs =
  (name <$> ps) ++ (input_name <$> inputs).
Proof.
  unfold filter_arguments_of. rewrite fmap_app, <- !list_fmap_compose.
  f_equal; apply list_fmap_ext; intros i x _; simpl.
  - apply arg_name_to_argument.
  - rewrite arg_name_to_argument. apply init_internals_name.
Qed.

Lemma input_names_of_signatures (l l' : list GeneratorInputBase) :
  input_signature <$> l' = input_signature <$> l →
  input_name <$> l' = input_name <$> l.
Proof.
  intros Heq. apply (f_equal (fmap fst)) in Heq.
  rewrite <- !list_fmap_compose in Heq. exact Heq.
Qed.

(** A discovery that has to run and returns has validated the names. *)
Lemma build_params_fresh_success g g' :
  wf g → params_built g = false → build_params g = (inr tt, g') →
  names_validated g ∧ (mem_params g = [] ∨ mem_inputs g = []) ∧
  mem_params g' = mem_params g ∧ mem_inputs g' = mem_inputs g ∧
  mem_gparams g' = mem_gparams g ∧
  filter_params g = [] ∧ filter_inputs g = [] ∧
  generator_params g ⊆ generator_params g'.
Proof.
  intros Hwf Hb Hrun.
  destruct (build_params_unbuilt g Hb (wf_params g Hwf) (wf_inputs g Hwf)
              (wf_sound g Hwf))
    as (r & b & fp' & fi' & m' & ev & Hrun' & _ & _ & _ & Hcases).
  rewrite Hrun in Hrun'. injection Hrun' as <- ->.
  destruct Hcases as [(_ & (e & Hf & _) & _) | [(_ & _ & (e & Hf & _) & _) |
    [(_ & _ & _ & _ & Hf & _) | (Hp1 & Hp2 & Hone & _ & _ & Hsub & _)]]];
    try discriminate Hf.
  pose proof (params_pass_no_junk g _ (wf_params g Hwf) Hp1) as Hfp.
  pose proof (inputs_pass_no_junk g _ (wf_inputs g Hwf) Hp2) as Hfi.
  rewrite Hfp in Hp1, Hone. rewrite Hfi in Hp2, Hone. simpl in Hone.
  apply params_pass_fresh in Hp1 as [Hv1 Hn1].
  apply inputs_pass_fresh in Hp2 as [Hv2 Hn2].
  split; [repeat split; assumption|].
  split; [| simpl; auto 10].
  destruct Hone as [Hz | Hz]; [left | right]; apply seq_nil_length; exact Hz.
Qed.

Lemma keeps_validated_build_params : keeps_validated build_params.
Proof.
  intros g Hwf Hinv. destruct (params_built g) eqn:Hb.
  { rewrite (build_params_built g Hb). exact Hinv. }
  destruct (build_params g) as [[e | []] g'] eqn:Hrun.
  - destruct (build_params_unbuilt g Hb (wf_params g Hwf) (wf_inputs g Hwf)
                (wf_sound g Hwf))
      as (r & b & fp' & fi' & m' & ev & Hrun' & _ & _ & _ & Hcases).
    rewrite Hrun in Hrun'. injection Hrun' as <- ->. simpl. intros Hb'.
    simpl in Hb'. subst b.
    destruct Hcases as [(_ & _ & Hf & _) | [(_ & _ & _ & Hf & _) |
      [(_ & _ & _ & _ & _ & Hf & _) |
       (_ & _ & _ & _ & _ & _ & _ & Hend)]]]; try discriminate Hf.
    destruct Hend as [(e' & _ & _ & _ & Hf) | (Hf & _)]; discriminate Hf.
  - destruct (build_params_fresh_success g g' Hwf Hb Hrun)
      as ((_ & _ & Hv & Hn) & _ & _ & Hi & _).
    simpl. intros _. rewrite Hi. split; [| exact Hn].
    apply Forall_fmap. exact Hv.
Qed.

(** A method that starts with the discovery keeps the inputs validated. *)
Lemma keeps_validated_after_discovery {A} (k : unit → M A) :
  frames members_kept (build_params ≫= k) →
  keeps_validated (build_params ≫= k).
Proof.
  intros Hframe g Hwf Hinv.
  pose proof (keeps_validated_build_params g Hwf Hinv) as Hinv0.
  destruct members_kept_frames as (Hbp & _).
  pose proof (Hbp g) as (_ & Hsig0 & _). pose proof (Hframe g) as (_ & Hsig & _).
  apply input_names_of_signatures in Hsig0, Hsig.
  revert Hsig. rewrite run_bind.
  destruct (build_params g) as [[e | []] g0] eqn:Hrun; [intros _; exact Hinv0|].
  simpl in Hsig0, Hinv0. intros Hsig _. rewrite Hsig, <- Hsig0.
  apply Hinv0. exact (build_params_success_built g g0 Hrun).
Qed.

Lemma reachable_validated g : reachable g → inputs_validated g.
Proof.
  destruct members_kept_frames as (_ & _ & Hfa & Hgv & Hsv & _ & Hbm).
  induction 1 as [ps inputs gps | g Hg IH | g Hg IH | g Hg IH | g Hg IH
                  | params g Hg IH | g Hg IH | fn linkage g Hg IH].
  - intros Hb. discriminate Hb.
  - exact (keeps_validated_build_params g (reachable_wf g Hg) IH).
  - unfold rebuild_params. rewrite run_bind. unfold modify at 1. cbn beta iota.
    apply keeps_validated_build_params.
    + apply preserves_reset. exact (reachable_wf g Hg).
    + intros Hb. discriminate Hb.
  - exact (keeps_validated_after_discovery _ Hfa g (reachable_wf g Hg) IH).
  - exact (keeps_validated_after_discovery _ Hgv g (reachable_wf g Hg) IH).
  - exact (keeps_validated_after_discovery _ (Hsv params) g
             (reachable_wf g Hg) IH).
  - unfold get_filter_output_types. rewrite run_bind, run_call_build_pipeline.
    destruct (build_pipeline _ _ _).1; exact IH.
  - exact (keeps_validated_after_discovery _ (Hbm fn linkage) g
             (reachable_wf g Hg) IH).
Qed.


(** X13.  The Argument list a module is compiled against has pairwise
    distinct, valid names: whenever [build_module] returns, whatever the
    pipeline builder did to the free parameters. *)
Theorem build_module_argument_names g fn linkage m g' :
  reachable g → build_module fn linkage g = (inr m, g') →
  NoDup (arg_name <$> module_args m) ∧
  Forall (λ n, is_valid_name n = true) (arg_name <$> module_args m).
Proof.
  intros Hreach. pose proof (reachable_wf g Hreach) as Hwf.
  pose proof (reachable_validated g Hreach) as Hinv.
  unfold build_module. rewrite run_bind.
  pose proof (preserves_build_params g Hwf) as Hwf0.
  pose proof (keeps_validated_build_params g Hwf Hinv) as Hinv0.
  destruct (build_params g) as [[e | []] g0] eqn:Hrun0; [discriminate|].
  simpl in Hwf0, Hinv0.
  pose proof (build_params_success_built g g0 Hrun0) as Hb0.
  rewrite run_bind, run_call_build_pipeline.
  pose proof (build_pipeline_layout (mem_params g0) (mem_inputs g0)
                (mem_gparams g0)) as Hlayout.
  destruct (build_pipeline (mem_params g0) (mem_inputs g0) (mem_gparams g0))
    as [rp ps'] eqn:Hbp. cbn [fst snd] in *.
  set (g1 := set_mem_params ps' (set_log (log g0 ++ [build_pipeline_call]) g0)).
  assert (wf g1) as Hwf1.
  { apply (wf_transfer g0); try reflexivity; [exact Hlayout | exact Hwf0]. }
  destruct rp as [e | pipeline]; [discriminate|].
  rewrite run_bind. unfold gets at 1. cbn beta iota.
  destruct (wf_built g0 Hwf0 Hb0) as (Hfp0 & _ & Hone & _).
  change (filter_params g1) with (filter_params g0).
  rewrite Hfp0, length_seq, run_bind.
  destruct (mem_params g0) as [| p0 ps] eqn:Hps.
  - cbn [length]. rewrite bool_decide_eq_false_2 by lia.
    rewrite run_ret, run_bind.
    rewrite (get_filter_arguments_built g1 Hwf1 Hb0).
    rewrite run_bind. unfold gets at 1. cbn beta iota. rewrite run_ret.
    intros [= <- _]. cbn [module_args]. rewrite filter_arguments_of_names.
    subst g1. cbn [mem_params mem_inputs set_mem_params set_log].
    destruct ps'; [| discriminate Hlayout]. simpl.
    destruct (Hinv0 Hb0) as [Hv Hn]. split; assumption.
  - cbn [length]. rewrite bool_decide_eq_true_2 by lia.
    unfold rebuild_params. rewrite !run_bind. unfold modify at 1.
    cbn beta iota.
    assert (wf (reset_params g1)) as Hwfr by (apply preserves_reset; exact Hwf1).
    pose proof (preserves_build_params _ Hwfr) as Hwf2.
    destruct (build_params (reset_params g1)) as [[e | []] g2] eqn:Hrun2;
      [discriminate|].
    simpl in Hwf2.
    destruct (build_params_fresh_success (reset_params g1) g2 Hwfr eq_refl Hrun2)
      as ((Hv & Hn & _ & _) & _ & Hps2 & Hins2 & _).
    cbn beta iota. rewrite ?run_bind.
    rewrite (get_filter_arguments_built g2 Hwf2
               (build_params_success_built _ g2 Hrun2)).
    rewrite run_bind. unfold gets at 1. cbn beta iota. rewrite run_ret.
    intros [= <- _]. cbn [module_args]. rewrite filter_arguments_of_names.
    rewrite Hps2, Hins2. subst g1.
    cbn [mem_params mem_inputs set_mem_params set_log reset_params
         set_generator_params set_filter_params set_filter_inputs
         set_params_built] in *.
    destruct Hone as [Hz | Hz]; [discriminate Hz|]. rewrite Hz. simpl.
    rewrite app_nil_r. split; [exact Hn|].
    apply Forall_fmap. eapply Forall_impl; [exact Hv|]. intros q [_ Hq].
    exact Hq.
Qed.

(** X14.  When [get_filter_arguments] returns, its list names the free
    parameters and then the inputs, in declaration order, each as an input
    scalar or input buffer; if the discovery ran in this call, or the
    instance has no free parameter, the names are valid and pairwise
    distinct. *)
Theorem get_filter_arguments_names g args g' :
  reachable g → get_filter_arguments g = (inr args, g') →
  arg_name <$> args = (name <$> mem_params g) ++ (input_name <$> mem_inputs g) ∧
  Forall (λ a, arg_kind a ≠ OutputBuffer) args ∧
  (params_built g = false ∨ mem_params g = [] →
   NoDup (arg_name <$> args) ∧
   Forall (λ n, is_valid_name n = true) (arg_name <$> args)).
Proof.
  intros Hreach. pose proof (reachable_wf g Hreach) as Hwf.
  pose proof (reachable_validated g Hreach) as Hinv.
  pose proof (preserves_build_params g Hwf) as Hwf0.
  destruct (build_params_summary g Hwf)
    as (r0 & g0 & ev0 & Hrun0 & Hps0 & Hins0 & _ & _ & _ & Hr0).
  rewrite Hrun0 in Hwf0. simpl in Hwf0.
  destruct r0 as [e | []];
    [unfold get_filter_arguments; rewrite run_bind, Hrun0; discriminate|].
  destruct Hr0 as [Hb0 _].
  unfold get_filter_arguments. rewrite (method_after_discovery _ g g0 Hrun0).
  pose proof (get_filter_arguments_built g0 Hwf0 Hb0) as Hrun.
  unfold get_filter_arguments in Hrun. rewrite Hrun. intros [= <- _].
  rewrite filter_arguments_of_names, Hps0, Hins0.
  split; [reflexivity|]. split.
  { unfold filter_arguments_of. apply Forall_app. split; apply Forall_fmap;
      apply Forall_true; intros x; apply arg_kind_to_argument. }
  intros [Hb | Hnone].
  - destruct (build_params_fresh_success g g0 Hwf Hb Hrun0)
      as ((Hv1 & Hn1 & Hv2 & Hn2) & Hone & _).
    destruct Hone as [-> | ->]; simpl; rewrite ?app_nil_r.
    + split; [exact Hn2 | apply Forall_fmap; exact Hv2].
    + split; [exact Hn1|]. apply Forall_fmap.
      eapply Forall_impl; [exact Hv1|]. intros q [_ Hq]. exact Hq.
  - rewrite Hnone. simpl.
    pose proof (keeps_validated_build_params g Hwf Hinv) as Hinv0.
    rewrite Hrun0 in Hinv0. simpl in Hinv0.
    destruct (Hinv0 Hb0) as [Hv Hn]. rewrite Hins0 in Hv, Hn.
    split; assumption.
Qed.

Lemma init_internals_idempotent i :
  init_internals (init_internals i) = init_internals i.
Proof.
  destruct i as [p tp dp b]. unfold init_internals, input_name, input_type.
  simpl. destruct (is_buffer p) eqn:Hb.
  - destruct tp, dp; simpl; rewrite ?Hb; reflexivity.
  - simpl. rewrite Hb. reflexivity.
Qed.

(** X15.  [get_filter_arguments] can be repeated: once it has returned, a
    second call returns the same list and leaves the instance as the first
    call left it. *)
Theorem get_filter_arguments_repeatable g args g1 :
  reachable g → get_filter_arguments g = (inr args, g1) →
  get_filter_arguments g1 = (inr args, g1).
Proof.
  intros Hreach Hrun. pose proof (reachable_wf g Hreach) as Hwf.
  assert (wf g1) as Hwf1.
  { pose proof (preserves_get_filter_arguments g Hwf) as H1.
    rewrite Hrun in H1. exact H1. }
  pose proof (preserves_build_params g Hwf) as Hwf0.
  destruct (build_params_summary g Hwf)
    as (r0 & g0 & ev0 & Hrun0 & _ & _ & _ & _ & _ & Hr0).
  rewrite Hrun0 in Hwf0. simpl in Hwf0.
  destruct r0 as [e | []];
    [unfold get_filter_arguments in Hrun; rewrite run_bind, Hrun0 in Hrun;
     discriminate|].
  destruct Hr0 as [Hb0 _].
  unfold get_filter_arguments in Hrun.
  rewrite (method_after_discovery _ g g0 Hrun0) in Hrun.
  pose proof (get_filter_arguments_built g0 Hwf0 Hb0) as Hfirst.
  unfold get_filter_arguments in Hfirst. rewrite Hfirst in Hrun.
  injection Hrun as <- <-.
  rewrite get_filter_arguments_built; [| exact Hwf1 | exact Hb0].
  cbn [mem_params mem_inputs set_mem_inputs].
  assert (init_internals <$> (init_internals <$> mem_inputs g0) =
          init_internals <$> mem_inputs g0) as Hidem.
  { rewrite <- list_fmap_compose. apply list_fmap_ext. intros i x _.
    apply init_internals_idempotent. }
  rewrite Hidem. f_equal. f_equal. unfold filter_arguments_of. f_equal.
  rewrite <- list_fmap_compose. apply list_fmap_ext. intros i x _. simpl.
  rewrite init_internals_idempotent. reflexivity.
Qed.


(** *** When the discovery succeeds *)

(** The third loop of [build_params] returns exactly when the objects it
    visits have valid names that are neither in the index nor repeated. *)
Lemma scan_generator_params_accepts vg : ∀ g,
  in_bounds (mem_gparams g) vg →
  (scan_generator_params vg g).1 = inr tt ↔
  Forall (λ n, is_valid_name n = true ∧ generator_params g !! n = None)
    (omap (λ p, gp_name <$> mem_gparams g !! p) vg) ∧
  NoDup (omap (λ p, gp_name <$> mem_gparams g !! p) vg).
Proof.
  induction vg as [| v vg IH]; intros g Hvg.
  { simpl. split; [intros _; split; constructor | reflexivity]. }
  apply Forall_cons in Hvg as [Hv Hvg].
  destruct (lookup_lt_is_Some_2 _ _ Hv) as [q Hq].
  cbn [scan_generator_params omap list_omap]. rewrite Hq. cbn [fmap option_fmap option_map].
  rewrite run_bind, (run_deref _ _ _ _ Hq), run_bind, run_user_assert.
  rewrite Forall_cons, NoDup_cons.
  destruct (is_valid_name (gp_name q)) eqn:Hval.
  2:{ simpl. split; [discriminate|]. intros [[[Hf _] _] _]. discriminate Hf. }
  rewrite run_bind. unfold gets at 1. cbn beta iota.
  rewrite run_bind, run_user_assert.
  destruct (bool_decide (generator_params g !! gp_name q = None)) eqn:Hnew.
  2:{ simpl. apply bool_decide_eq_false in Hnew. split; [discriminate|].
      intros [[[_ Hf] _] _]. contradiction. }
  apply bool_decide_eq_true in Hnew.
  rewrite run_bind. unfold modify at 1. cbn beta iota.
  set (g1 := set_generator_params (<[gp_name q := v]> (generator_params g)) g).
  rewrite (IH g1 Hvg). subst g1.
  cbn [mem_gparams generator_params set_generator_params].
  set (names := omap (λ p, gp_name <$> mem_gparams g !! p) vg).
  rewrite !Forall_forall. split.
  - intros [Hall Hnd]. split; [split; [auto|] | split; [| exact Hnd]].
    + intros n Hn. destruct (Hall n Hn) as [Hvn Hidx].
      apply lookup_insert_None in Hidx as [Hidx _]. auto.
    + intros Hn. destruct (Hall _ Hn) as [_ Hidx].
      rewrite lookup_insert_eq in Hidx. discriminate Hidx.
  - intros [[_ Hall] [Hnot Hnd]]. split; [| exact Hnd].
    intros n Hn. destruct (Hall n Hn) as [Hvn Hidx]. split; [exact Hvn|].
    apply lookup_insert_None. split; [exact Hidx|]. intros <-. contradiction.
Qed.

(** [build_params] on an instance with empty lists, once the first two
    loops and the exclusion test are known to pass: what is left is the
    third loop. *)
Lemma build_params_third_loop g :
  params_built g = false → filter_params g = [] → filter_inputs g = [] →
  names_validated g → (mem_params g = [] ∨ mem_inputs g = []) →
  ∃ g3, mem_gparams g3 = mem_gparams g ∧
    generator_params g3 = generator_params g ∧
    (build_params g).1 =
    (scan_generator_params (seq 0 (length (mem_gparams g))) g3).1.
Proof.
  intros Hb Hfp Hfi (Hv1 & Hn1 & Hv2 & Hn2) Hone.
  assert (params_pass g [] (seq 0 (length (mem_params g)))) as Hp1
    by (apply params_pass_fresh; split; assumption).
  assert (inputs_pass g [] (seq 0 (length (mem_inputs g)))) as Hp2
    by (apply inputs_pass_fresh; split; assumption).
  unfold build_params. rewrite run_bind. unfold gets at 1. cbn beta iota.
  rewrite Hb. cbn [negb].
  rewrite run_bind, run_instances_in_range.
  set (g1 := set_log _ g).
  rewrite run_bind.
  destruct (scan_filter_params_spec (seq 0 (length (mem_params g))) g1)
    as (r1 & fp1 & Hrun1 & _ & Hr1).
  { apply in_bounds_seq. }
  { subst g1. simpl. rewrite Hfp. constructor. }
  rewrite Hrun1.
  change (filter_params g1) with (filter_params g) in Hr1.
  change (params_pass g1) with (params_pass g) in Hr1. rewrite Hfp in Hr1.
  destruct r1 as [e1 | []]; [destruct Hr1 as (_ & _ & Hnot); contradiction|].
  destruct Hr1 as [-> _].
  rewrite run_bind, run_instances_in_range.
  set (g2 := set_log _ _).
  rewrite run_bind.
  destruct (scan_inputs_spec (seq 0 (length (mem_inputs g))) g2)
    as (r2 & fi2 & Hrun2 & _ & Hr2).
  { apply in_bounds_seq. }
  { subst g2 g1. simpl. rewrite Hfi. constructor. }
  change (length (mem_inputs (set_filter_params
            ([] ++ seq 0 (length (mem_params g))) g1)))
    with (length (mem_inputs g)).
  rewrite Hrun2.
  change (filter_inputs g2) with (filter_inputs g) in Hr2.
  change (inputs_pass g2) with (inputs_pass g) in Hr2. rewrite Hfi in Hr2.
  destruct r2 as [e2 | []]; [destruct Hr2 as (_ & _ & Hnot); contradiction|].
  destruct Hr2 as [-> _].
  rewrite run_bind. unfold gets at 1. cbn beta iota. rewrite run_bind.
  unfold id.
  change (filter_params (set_filter_inputs _ g2))
    with ([] ++ seq 0 (length (mem_params g))).
  change (filter_inputs (set_filter_inputs ?l g2)) with l.
  cbn [app]. rewrite !length_seq.
  assert (bool_decide (0 < length (mem_params g)) &&
          bool_decide (0 < length (mem_inputs g)) = false) as ->.
  { destruct Hone as [-> | ->]; simpl; [reflexivity | apply andb_false_r]. }
  rewrite run_ret, run_bind, run_instances_in_range.
  set (g3 := set_log _ _).
  change (length (mem_gparams (set_filter_inputs _ g2)))
    with (length (mem_gparams g)).
  exists g3. split; [reflexivity|]. split; [reflexivity|].
  rewrite run_bind.
  destruct (scan_generator_params (seq 0 (length (mem_gparams g))) g3)
    as [[e | []] g4]; reflexivity.
Qed.

(** With empty lists and valid names, the discovery returns exactly when
    the third loop accepts the configuration parameters. *)
Lemma build_params_third_loop_accepts g :
  params_built g = false → filter_params g = [] → filter_inputs g = [] →
  names_validated g → (mem_params g = [] ∨ mem_inputs g = []) →
  (build_params g).1 = inr tt ↔
  Forall (λ n, is_valid_name n = true ∧ generator_params g !! n = None)
    (gp_name <$> mem_gparams g) ∧
  NoDup (gp_name <$> mem_gparams g).
Proof.
  intros Hb Hfp Hfi Hnv Hone.
  destruct (build_params_third_loop g Hb Hfp Hfi Hnv Hone)
    as (g3 & Hm3 & Hg3 & ->).
  rewrite scan_generator_params_accepts by (rewrite Hm3; apply in_bounds_seq).
  rewrite Hm3, Hg3.
  rewrite <- (list_fmap_omap (λ p, mem_gparams g !! p) gp_name),
    omap_lookup_seq.
  reflexivity.
Qed.

(** X16.  On an instance whose containers are empty (a new instance, or
    one that [rebuild_params] has just reset), the discovery returns
    exactly when: the free parameters are explicitly and validly named and
    the inputs validly named, no name occurs twice among the free
    parameters nor among the inputs, free parameters and inputs are not
    both present, and the configuration parameters have valid, pairwise
    distinct names. *)
Theorem discovery_accepts g :
  discovered g = (false, [], [], ∅) →
  (build_params g).1 = inr tt ↔
  names_validated g ∧ (mem_params g = [] ∨ mem_inputs g = []) ∧
  Forall (λ n, is_valid_name n = true) (gp_name <$> mem_gparams g) ∧
  NoDup (gp_name <$> mem_gparams g).
Proof.
  intros Hd. unfold discovered in Hd. injection Hd as Hb Hfp Hfi Hgp.
  assert (wf g) as Hwf.
  { split; [rewrite Hfp; constructor | rewrite Hfi; constructor | |
            rewrite Hb; discriminate].
    rewrite Hgp. intros k i Hk. rewrite lookup_empty in Hk. discriminate Hk. }
  assert (names_validated g → (mem_params g = [] ∨ mem_inputs g = []) →
          (build_params g).1 = inr tt ↔
          Forall (λ n, is_valid_name n = true) (gp_name <$> mem_gparams g) ∧
          NoDup (gp_name <$> mem_gparams g)) as Hthird.
  { intros Hnv Hone.
    rewrite (build_params_third_loop_accepts g Hb Hfp Hfi Hnv Hone), Hgp.
    rewrite !Forall_forall. split.
    - intros [Hall Hnd]. split; [| exact Hnd]. intros n Hn. apply Hall, Hn.
    - intros [Hall Hnd]. split; [| exact Hnd]. intros n Hn.
      split; [apply Hall, Hn | apply lookup_empty]. }
  split.
  - intros Hok. destruct (build_params g) as [r g'] eqn:Hrun. simpl in Hok.
    subst r.
    destruct (build_params_fresh_success g g' Hwf Hb Hrun)
      as (Hnv & Hone & _).
    split; [exact Hnv|]. split; [exact Hone|].
    apply (Hthird Hnv Hone). reflexivity.
  - intros (Hnv & Hone & Hgps). apply (Hthird Hnv Hone). exact Hgps.
Qed.

(** *** A failed discovery *)

Lemma containers_grow_frames : frames containers_grow build_params.
Proof.
  apply frames_build_params.
  - intros g. split; reflexivity.
  - intros g1 g2 g3 [Hp1 Hi1] [Hp2 Hi2]. split; etransitivity; eassumption.
  - intros g e. split; reflexivity.
  - intros g v. split; [apply prefix_app_r | ]; reflexivity.
  - intros g v. split; [| apply prefix_app_r]; reflexivity.
  - intros g k v. split; reflexivity.
  - intros g. split; reflexivity.
Qed.

(** X17.  [build_params] does not clean up after itself: once it has
    raised, calling it again on the instance raises again (a user error),
    whatever was found before the failure staying in the containers.  Only
    [rebuild_params], which empties them first, starts afresh. *)
Theorem failed_discovery_stays_failed g e g' :
  reachable g → build_params g = (inl e, g') →
  ∃ e', (build_params g').1 = inl e' ∧ is_user_error e'.
Proof.
  intros Hreach Hrun. pose proof (reachable_wf g Hreach) as Hwf.
  assert (wf g') as Hwf'.
  { pose proof (preserves_build_params g Hwf) as Hp. rewrite Hrun in Hp.
    exact Hp. }
  destruct (build_params_summary g' Hwf')
    as (r' & g'' & ev' & Hrun' & _ & _ & _ & _ & _ & Hr').
  rewrite Hrun'. destruct r' as [e' | []]; [exists e'; split; [reflexivity | exact Hr']|].
  exfalso.
  assert (params_built g = false) as Hb.
  { destruct (params_built g) eqn:Hb; [| reflexivity].
    rewrite (build_params_built g Hb) in Hrun. discriminate Hrun. }
  pose proof (containers_grow_frames g) as [Hgp Hgi]. rewrite Hrun in Hgp, Hgi.
  cbn [snd] in Hgp, Hgi.
  destruct (build_params_unbuilt g Hb (wf_params g Hwf) (wf_inputs g Hwf)
              (wf_sound g Hwf))
    as (r & b & fp' & fi' & m' & ev & Hrun0 & _ & _ & _ & Hcases).
  rewrite Hrun in Hrun0. injection Hrun0 as <- Hg'.
  assert (mem_params g' = mem_params g ∧ mem_inputs g' = mem_inputs g ∧
          mem_gparams g' = mem_gparams g ∧ params_built g' = b ∧
          filter_params g' = fp' ∧ filter_inputs g' = fi' ∧
          generator_params g' = m')
    as (Hps & Hins & Hgps & Hb' & Hfp' & Hfi' & Hm')
    by (rewrite Hg'; repeat split).
  clear Hg'.
  assert (b = false) as ->.
  { destruct Hcases as [(_ & _ & Hf & _) | [(_ & _ & _ & Hf & _) |
      [(_ & _ & _ & _ & _ & Hf & _) |
       (_ & _ & _ & _ & _ & _ & _ & Hend)]]]; try exact Hf.
    destruct Hend as [(e0 & _ & _ & _ & Hf) | (Hf & _)];
      [exact Hf | discriminate Hf]. }
  destruct (build_params_fresh_success g' g'' Hwf' Hb' Hrun')
    as (Hnv' & Hone' & _ & _ & _ & Hfp0 & Hfi0 & _).
  rewrite Hfp0 in Hfp'. rewrite Hfi0 in Hfi'. subst fp' fi'.
  rewrite Hfp0 in Hgp. rewrite Hfi0 in Hgi.
  apply prefix_nil_inv in Hgp, Hgi.
  assert (names_validated g) as Hnv.
  { unfold names_validated in *. rewrite Hps, Hins in Hnv'. exact Hnv'. }
  assert (mem_params g = [] ∨ mem_inputs g = []) as Hone
    by (rewrite <- Hps, <- Hins; exact Hone').
  assert (params_pass g [] (seq 0 (length (mem_params g)))) as Hp1
    by (apply params_pass_fresh; split; apply Hnv).
  assert (inputs_pass g [] (seq 0 (length (mem_inputs g)))) as Hp2
    by (apply inputs_pass_fresh; split; apply Hnv).
  rewrite Hgp, Hgi in Hcases. cbn [app] in Hcases.
  destruct Hcases as [(Hnot & _) | [(_ & Hnot & _) |
    [(_ & _ & Hne1 & Hne2 & _) | (_ & _ & _ & _ & _ & Hsub & _)]]];
    try contradiction.
  { destruct Hone as [Hz | Hz]; rewrite Hz in *; simpl in *; congruence. }
  pose proof (build_params_third_loop_accepts g Hb Hgp Hgi Hnv Hone) as Hfirst.
  pose proof (build_params_third_loop_accepts g' Hb' Hfp0 Hfi0 Hnv' Hone')
    as Hsecond.
  rewrite Hrun in Hfirst. rewrite Hrun' in Hsecond.
  cbn [fst] in Hfirst, Hsecond. rewrite Hgps, Hm' in Hsecond.
  destruct (proj1 Hsecond eq_refl) as [Hall Hnd].
  assert (@inl error unit e = inr tt) as Habs; [| discriminate Habs].
  apply Hfirst. split; [| exact Hnd].
  eapply Forall_impl; [exact Hall|]. intros n [Hvn Hidx]. split; [exact Hvn|].
  exact (lookup_weaken_None _ _ _ Hidx Hsub).
Qed.

End Facts.
End GeneratorExtras.

Module RegistryExtras.
Import Halide NameValidator ArtifactPlanner Generator Driver.

Section Facts.
Context `{!ParamCodec} `{!PipelineBuilder} `{!Platform}.

Lemma key_le_total {V} : Total (@key_le V).
Proof.
  intros x y. unfold key_le.
  destruct (String.leb_total x.1 y.1) as [Hle | Hle]; rewrite Hle; auto.
Qed.

Lemma enumerate_registered (registry : gmap string GeneratorFactory) name :
  name ∈ enumerate registry ↔ is_Some (registry !! name).
Proof.
  unfold enumerate, in_order. rewrite merge_sort_Permutation. split.
  - intros ([k f] & -> & Hin)%list_elem_of_fmap.
    apply elem_of_map_to_list in Hin. eauto.
  - intros [f Hf]. apply list_elem_of_fmap. exists (name, f).
    split; [reflexivity|]. apply elem_of_map_to_list. exact Hf.
Qed.

(** X18.  [enumerate] lists exactly the registered names, each once, in
    increasing byte order. *)
Theorem enumerate_sorted_names (registry : gmap string GeneratorFactory) :
  (∀ name, name ∈ enumerate registry ↔ is_Some (registry !! name)) ∧
  NoDup (enumerate registry) ∧
  Sorted (λ a b, String.leb a b = true) (enumerate registry).
Proof.
  split; [apply enumerate_registered|]. split.
  - unfold enumerate, in_order. rewrite merge_sort_Permutation.
    apply NoDup_fst_map_to_list.
  - unfold enumerate, in_order.
    apply (Sorted_fmap fst key_le).
    + intros x y Hxy. unfold key_le in Hxy. apply Is_true_true. exact Hxy.
    + apply Sorted_merge_sort. apply key_le_total.
Qed.

(** X19.  [register_factory] checks the name before it looks at the
    registry: an invalid name is a user error whatever is registered, a
    valid name that is taken is an internal error, and otherwise the call
    succeeds. *)
Theorem register_factory_outcome name factory
    (registry : gmap string GeneratorFactory) :
  match register_factory name factory registry with
  | inl e =>
      (is_valid_name name = false ∧
       e = user_error ("Invalid Generator name: " +:+ name)) ∨
      (is_valid_name name = true ∧ is_Some (registry !! name) ∧
       e = internal_error ("Duplicate Generator name: " +:+ name))
  | inr registry' =>
      is_valid_name name = true ∧ registry !! name = None ∧
      registry' = <[name := factory]> registry
  end.
Proof.
  unfold register_factory. destruct (is_valid_name name); cbn [negb].
  - case_bool_decide as Hfree; cbn [negb].
    + auto.
    + right. split; [reflexivity|]. split; [| reflexivity].
      destruct (registry !! name); [eauto | contradiction].
  - left. auto.
Qed.

Lemma register_factory_success name factory
    (registry registry' : gmap string GeneratorFactory) :
  register_factory name factory registry = inr registry' →
  is_valid_name name = true ∧ registry !! name = None ∧
  registry' = <[name := factory]> registry.
Proof.
  unfold register_factory. destruct (is_valid_name name); cbn [negb];
    [| discriminate].
  case_bool_decide as Hfree; cbn [negb]; [| discriminate].
  intros [= <-]. auto.
Qed.

(** X20.  After a successful [register_factory], creating under the new
    name calls the new factory, creating under any other name is as
    before, [enumerate] has gained exactly the new name, registering the
    name again is an internal error, and [unregister_factory] gives the
    old registry back. *)
Theorem register_factory_round_trip name factory
    (registry registry' : gmap string GeneratorFactory) :
  register_factory name factory registry = inr registry' →
  (∀ params, registry_create registry' name params = create factory params) ∧
  (∀ other params, other ≠ name →
     registry_create registry' other params =
     registry_create registry other params) ∧
  enumerate registry' ≡ₚ name :: enumerate registry ∧
  (∀ factory', register_factory name factory' registry' =
     inl (internal_error ("Duplicate Generator name: " +:+ name))) ∧
  unregister_factory name registry' = inr registry.
Proof.
  intros Hreg.
  destruct (register_factory_success _ _ _ _ Hreg) as (Hvalid & Hfree & ->).
  split; [| split; [| split; [| split]]].
  - intros params. unfold registry_create. rewrite lookup_insert_eq. reflexivity.
  - intros other params Hne. unfold registry_create.
    rewrite lookup_insert_ne by congruence. reflexivity.
  - unfold enumerate, in_order. rewrite !merge_sort_Permutation.
    rewrite (map_to_list_insert _ _ _ Hfree). reflexivity.
  - intros factory'. unfold register_factory. rewrite Hvalid. cbn [negb].
    rewrite bool_decide_eq_false_2; [reflexivity|].
    rewrite lookup_insert_eq. discriminate.
  - unfold unregister_factory. rewrite bool_decide_eq_false_2.
    + rewrite (delete_insert_id _ _ _ Hfree). reflexivity.
    + rewrite lookup_insert_eq. discriminate.
Qed.

(** X21.  [unregister_factory] fails with an internal error exactly when
    the name is not registered; when it succeeds the name can no longer be
    created (a user error), every other name is created as before, and the
    name is free to be registered again. *)
Theorem unregister_factory_outcome name
    (registry : gmap string GeneratorFactory) :
  match unregister_factory name registry with
  | inl e =>
      registry !! name = None ∧
      e = internal_error ("Generator not found: " +:+ name)
  | inr registry' =>
      is_Some (registry !! name) ∧
      (∀ params, registry_create registry' name params =
         inl (user_error ("Generator not found: " +:+ name))) ∧
      (∀ other params, other ≠ name →
         registry_create registry' other params =
         registry_create registry other params) ∧
      (∀ k, k ∈ enumerate registry' ↔ k ∈ enumerate registry ∧ k ≠ name)
  end.
Proof.
  unfold unregister_factory. case_bool_decide as Hfree; [auto|].
  split; [destruct (registry !! name); [eauto | contradiction]|].
  split; [| split].
  - intros params. unfold registry_create. rewrite lookup_delete_eq.
    reflexivity.
  - intros other params Hne. unfold registry_create.
    rewrite lookup_delete_ne by congruence. reflexivity.
  - intros k. rewrite !enumerate_registered.
    rewrite <- !elem_of_dom, dom_delete. set_solver.
Qed.

End Facts.
End RegistryExtras.

Module DriverExtras.
Import Halide NameValidator ArtifactPlanner PlannerTerms Generator GeneratorTerms
  GeneratorFacts GeneratorExtras Driver DriverTerms DriverFacts.

Section Facts.
Context `{!ParamCodec} `{!PipelineBuilder} `{!Platform}.

(** *** [emit_filter] *)

(** X22.  When [emit_filter] returns, it has built the module under the
    given function name with external linkage, for the target the
    instance holds, and has asked it for the files [compute_outputs] plans
    for that same target under the base path of its three name
    arguments. *)
Theorem emit_filter_request output_dir function_name file_base_name options
    g m output_files g' :
  emit_filter output_dir function_name file_base_name options g
    = (inr (m, output_files), g') →
  build_module function_name External g = (inr m, g') ∧
  module_name m = function_name ∧ module_linkage m = External ∧
  module_target m = get_target (mem_gparams g) ∧
  output_files =
    compute_outputs (get_target (mem_gparams g))
      (compute_base_path output_dir function_name file_base_name) options.
Proof.
  unfold emit_filter. rewrite run_bind.
  destruct (build_module function_name External g) as [[e | m0] g0] eqn:Hrun;
    [discriminate|].
  rewrite run_ret. unfold compile_module_to_filter. intros [= <- <- <-].
  destruct (build_module_request _ _ _ _ _ Hrun) as (Hn & Hl & Ht).
  split; [reflexivity|]. split; [exact Hn|]. split; [exact Hl|].
  split; [exact Ht|]. rewrite Ht. reflexivity.
Qed.

(** *** The [-e] and [-x] options *)

Lemma bind_value {A B} (m : Run A) (k : A → Run B) a :
  m.1 = inr a → (m ≫= k).1 = (k a).1.
Proof.
  rewrite driver_bind. destruct m as [[o | a'] acts]; simpl; [discriminate|].
  intros [= ->]. destruct (k a). reflexivity.
Qed.

Lemma apply_emit_flag_result opt o :
  ∃ o', (apply_emit_flag opt o).1 = inr o' ∧
    emit_assembly o' = emit_assembly o || bool_decide (opt = "assembly") ∧
    emit_bitcode o' = emit_bitcode o || bool_decide (opt = "bitcode") ∧
    emit_stmt o' = emit_stmt o || bool_decide (opt = "stmt") ∧
    emit_stmt_html o' = emit_stmt_html o || bool_decide (opt = "html") ∧
    emit_cpp o' = emit_cpp o || bool_decide (opt = "cpp") ∧
    emit_o o' = emit_o o || bool_decide (opt = "o") ∧
    emit_h o' = emit_h o || bool_decide (opt = "h") ∧
    emit_static_library o' =
      emit_static_library o || bool_decide (opt = "static_library") ∧
    extensions o' = extensions o.
Proof.
  unfold apply_emit_flag.
  repeat lazymatch goal with
  | |- ∃ o', (if bool_decide (opt = ?s) then _ else _).1 = _ ∧ _ =>
      let Hne := fresh "Hne" in
      destruct (decide (opt = s)) as [? | Hne];
      [ subst opt; rewrite (bool_decide_eq_true_2 (s = s) eq_refl);
        rewrite ?bool_decide_eq_false_2 by discriminate;
        eexists; split; [reflexivity|]; cbn;
        rewrite ?orb_true_r, ?orb_false_r; repeat split
      | rewrite !(bool_decide_eq_false_2 (opt = s) Hne); cbv iota ]
  end.
  rewrite !orb_false_r.
  destruct (negb (bool_decide (opt = ""))); (eexists; split; [reflexivity|]);
    repeat split.
Qed.

Lemma bool_decide_elem_of_cons (x opt : string) rest :
  bool_decide (x ∈ opt :: rest) = bool_decide (opt = x) || bool_decide (x ∈ rest).
Proof.
  apply eq_true_iff_eq.
  rewrite orb_true_iff, !bool_decide_eq_true, elem_of_cons.
  split; intros [Heq | Hin]; auto.
Qed.

Lemma apply_emit_flags_result emit_flags : ∀ o,
  ∃ o', (apply_emit_flags emit_flags o).1 = inr o' ∧
    emit_assembly o' = emit_assembly o || bool_decide ("assembly" ∈ emit_flags) ∧
    emit_bitcode o' = emit_bitcode o || bool_decide ("bitcode" ∈ emit_flags) ∧
    emit_stmt o' = emit_stmt o || bool_decide ("stmt" ∈ emit_flags) ∧
    emit_stmt_html o' = emit_stmt_html o || bool_decide ("html" ∈ emit_flags) ∧
    emit_cpp o' = emit_cpp o || bool_decide ("cpp" ∈ emit_flags) ∧
    emit_o o' = emit_o o || bool_decide ("o" ∈ emit_flags) ∧
    emit_h o' = emit_h o || bool_decide ("h" ∈ emit_flags) ∧
    emit_static_library o' =
      emit_static_library o || bool_decide ("static_library" ∈ emit_flags) ∧
    extensions o' = extensions o.
Proof.
  induction emit_flags as [| opt rest IH]; intros o.
  { exists o. split; [reflexivity|].
    rewrite !bool_decide_eq_false_2 by (intros Hin; inversion Hin).
    rewrite !orb_false_r. repeat split. }
  destruct (apply_emit_flag_result opt o)
    as (o1 & Hrun1 & E1 & E2 & E3 & E4 & E5 & E6 & E7 & E8 & E9).
  destruct (IH o1) as (o' & Hrun & G1 & G2 & G3 & G4 & G5 & G6 & G7 & G8 & G9).
  exists o'. cbn [apply_emit_flags]. rewrite (bind_value _ _ _ Hrun1).
  split; [exact Hrun|].
  rewrite !bool_decide_elem_of_cons, !orb_assoc.
  rewrite G1, G2, G3, G4, G5, G6, G7, G8, G9, E1, E2, E3, E4, E5, E6, E7, E8, E9.
  repeat split.
Qed.

Lemma parse_emit_options_returns e_flag :
  ∃ o, (parse_emit_options e_flag).1 = inr o.
Proof.
  unfold parse_emit_options. destruct (_ || _); [eexists; reflexivity|].
  destruct (apply_emit_flags_result (split_string e_flag ",")
              (mkEmitOptions (emit_o EmitOptions_default) false
                 (emit_cpp EmitOptions_default)
                 (emit_assembly EmitOptions_default)
                 (emit_bitcode EmitOptions_default)
                 (emit_stmt EmitOptions_default)
                 (emit_stmt_html EmitOptions_default) false
                 (extensions EmitOptions_default)))
    as (o & Hrun & _).
  exists o. exact Hrun.
Qed.

(** X23.  The [-e] block never ends the run.  An empty value stands for
    the default, static library and header; otherwise a kind is requested
    exactly when its name is one of the comma-separated words, words that
    name no kind being skipped; the extension table is left empty. *)
Theorem parse_emit_options_result e_flag :
  let words := split_string e_flag "," in
  ∃ o, (parse_emit_options e_flag).1 = inr o ∧
    if bool_decide (words = []) || bool_decide (words = [""])
    then o = EmitOptions_default
    else
      emit_assembly o = bool_decide ("assembly" ∈ words) ∧
      emit_bitcode o = bool_decide ("bitcode" ∈ words) ∧
      emit_stmt o = bool_decide ("stmt" ∈ words) ∧
      emit_stmt_html o = bool_decide ("html" ∈ words) ∧
      emit_cpp o = bool_decide ("cpp" ∈ words) ∧
      emit_o o = bool_decide ("o" ∈ words) ∧
      emit_h o = bool_decide ("h" ∈ words) ∧
      emit_static_library o = bool_decide ("static_library" ∈ words) ∧
      extensions o = ∅.
Proof.
  intros words. unfold parse_emit_options. fold words.
  destruct (bool_decide (words = []) || bool_decide (words = [""])).
  - eexists. split; reflexivity.
  - destruct (apply_emit_flags_result words
                (mkEmitOptions (emit_o EmitOptions_default) false
                   (emit_cpp EmitOptions_default)
                   (emit_assembly EmitOptions_default)
                   (emit_bitcode EmitOptions_default)
                   (emit_stmt EmitOptions_default)
                   (emit_stmt_html EmitOptions_default) false
                   (extensions EmitOptions_default)))
      as (o & Hrun & E1 & E2 & E3 & E4 & E5 & E6 & E7 & E8 & E9).
    exists o. split; [exact Hrun|]. simpl in *. auto 10.
Qed.


Lemma parse_extensions_flags extension_flags : ∀ o o',
  (parse_extensions extension_flags o).1 = inr o' →
  without_overrides o' = without_overrides o ∧
  (∀ k, (∀ x new, x ∈ extension_flags → x ≠ "" →
           split_string x "=" ≠ [k; new]) →
        extensions o' !! k = extensions o !! k) ∧
  Forall (λ x, x = "" ∨ ∃ old new, split_string x "=" = [old; new])
    extension_flags.
Proof.
  induction extension_flags as [| x rest IH]; intros o o'.
  { intros [= <-]. split; [reflexivity|]. split; [reflexivity | constructor]. }
  cbn [parse_extensions]. case_bool_decide as Hx.
  { intros Hrun. destruct (IH o o' Hrun) as (Hf & Ht & Hall).
    split; [exact Hf|]. split; [| constructor; [left; exact Hx | exact Hall]].
    intros k Hk. apply Ht. intros y new Hy. apply Hk.
    apply list_elem_of_further. exact Hy. }
  destruct (split_string x "=") as [| old [| new [| ? ?]]] eqn:Hsplit;
    try discriminate.
  intros Hrun. destruct (IH _ o' Hrun) as (Hf & Ht & Hall).
  split; [exact Hf|]. split.
  - intros k Hk. rewrite Ht.
    + simpl. apply lookup_insert_ne. intros <-.
      apply (Hk x new); [apply list_elem_of_here | exact Hx | exact Hsplit].
    + intros y new' Hy. apply Hk. apply list_elem_of_further. exact Hy.
  - constructor; [right; eauto | exact Hall].
Qed.

Lemma parse_extensions_failure extension_flags : ∀ o out,
  (parse_extensions extension_flags o).1 = inl out →
  usage_failure (parse_extensions extension_flags o) ∧
  Exists (λ x, x ≠ "" ∧ ∀ old new, split_string x "=" ≠ [old; new])
    extension_flags.
Proof.
  induction extension_flags as [| x rest IH]; intros o out; [discriminate|].
  cbn [parse_extensions]. case_bool_decide as Hx.
  { intros Hrun. destruct (IH o out Hrun) as [Hu Hex].
    split; [exact Hu | apply Exists_cons_tl; exact Hex]. }
  destruct (split_string x "=") as [| old [| new [| ? ?]]] eqn:Hsplit;
    try (intros _; split;
         [apply usage_failure_after_cerr, usage_error_failure
         | apply Exists_cons_hd; split;
           [exact Hx | intros ? ?; rewrite Hsplit; discriminate]]).
  intros Hrun. destruct (IH _ out Hrun) as [Hu Hex].
  split; [exact Hu | apply Exists_cons_tl; exact Hex].
Qed.

(** X24.  The [-x] loop only ever writes the extension table.  It skips
    empty pieces; a non-empty piece that does not split at ["="] into
    exactly two parts ends the run as a usage error; otherwise the loop
    returns with the emit flags as they were, and with every key that no
    piece names mapped as before. *)
Theorem parse_extensions_result extension_flags o :
  match (parse_extensions extension_flags o).1 with
  | inr o' =>
      without_overrides o' = without_overrides o ∧
      (∀ k, (∀ x new, x ∈ extension_flags → x ≠ "" →
               split_string x "=" ≠ [k; new]) →
            extensions o' !! k = extensions o !! k) ∧
      Forall (λ x, x = "" ∨ ∃ old new, split_string x "=" = [old; new])
        extension_flags
  | inl _ =>
      usage_failure (parse_extensions extension_flags o) ∧
      Exists (λ x, x ≠ "" ∧ ∀ old new, split_string x "=" ≠ [old; new])
        extension_flags
  end.
Proof.
  destruct (parse_extensions extension_flags o).1 as [out | o'] eqn:Hrun.
  - exact (parse_extensions_failure _ _ _ Hrun).
  - exact (parse_extensions_flags _ _ _ Hrun).
Qed.

(** *** What a run builds, and from what *)

Lemma guard_passed (failed : bool) text u :
  ((if failed then perform (cerr text);; usage_error else mret tt)
     : Run unit).1 = inr u →
  failed = false.
Proof. destruct failed; [discriminate | reflexivity]. Qed.

Lemma options_of_flags (flags_info : gmap string string) options0 options :
  (parse_emit_options (flags_info !!! "-e")).1 = inr options0 →
  (parse_extensions (split_string (flags_info !!! "-x") ",") options0).1
    = inr options →
  (parse_emit_options (flags_info !!! "-e")
     ≫= parse_extensions (split_string (flags_info !!! "-x") ",")).1
    = inr options.
Proof. intros Hemit Hext. rewrite (bind_value _ _ _ Hemit). exact Hext. Qed.

(** Anything a run does besides writing to the error stream is done by one
    of the two closing blocks of [main], after every check has passed. *)
Lemma main_after_parse_work (registry : gmap string GeneratorFactory)
    (flags_info generator_args : gmap string string) x :
  x ∈ (main_after_parse registry flags_info generator_args).2 → ¬ is_cerr x →
  ∃ generator_name options targets,
    (resolve_generator_name (enumerate registry) (flags_info !!! "-g")
       (flags_info !!! "-r")).1 = inr generator_name ∧
    flags_info !!! "-o" ≠ "" ∧
    is_Some (generator_args !! "target") ∧
    (parse_emit_options (flags_info !!! "-e")
       ≫= parse_extensions (split_string (flags_info !!! "-x") ",")).1
      = inr options ∧
    (parse_targets (split_string (generator_args !!! "target") ",")).1
      = inr targets ∧
    (x ∈ (build_runtime (flags_info !!! "-r") (flags_info !!! "-o") options
            targets).2 ∨
     (build_runtime (flags_info !!! "-r") (flags_info !!! "-o") options
        targets).1 = inr tt ∧
     x ∈ (build_generator registry generator_name
            (function_name_of flags_info generator_name)
            (flags_info !!! "-o") (flags_info !!! "-n") generator_args
            options targets).2).
Proof.
  unfold main_after_parse. intros Hx Hnot.
  apply bind_actions in Hx as [Hx | ([] & _ & Hx)];
    [apply guard_actions in Hx; contradiction|].
  apply bind_actions in Hx as [Hx | (generator_name & Hname & Hx)];
    [apply resolve_generator_name_actions in Hx; contradiction|].
  apply bind_actions in Hx as [Hx | ([] & Hout & Hx)];
    [apply guard_actions in Hx; contradiction|].
  apply guard_passed in Hout. apply bool_decide_eq_false in Hout.
  apply bind_actions in Hx as [Hx | ([] & Htarget & Hx)];
    [apply guard_actions in Hx; contradiction|].
  apply guard_passed in Htarget. apply bool_decide_eq_false in Htarget.
  apply bind_actions in Hx as [Hx | (options0 & Hemit & Hx)];
    [apply parse_emit_options_actions in Hx; contradiction|].
  apply bind_actions in Hx as [Hx | (options & Hext & Hx)];
    [apply parse_extensions_actions in Hx; contradiction|].
  apply bind_actions in Hx as [Hx | (targets & Htargets & Hx)];
    [rewrite parse_targets_silent in Hx; inversion Hx|].
  exists generator_name, options, targets.
  split; [exact Hname|]. split; [exact Hout|].
  split; [destruct (generator_args !! "target"); [eauto | contradiction]|].
  split; [exact (options_of_flags _ _ _ Hemit Hext)|].
  split; [exact Htargets|].
  apply bind_actions in Hx as [Hx | ([] & Hrt & Hx)];
    [left; exact Hx | right; split; [exact Hrt | exact Hx]].
Qed.

(** What a run does besides writing to the error stream, it does after the
    argument loop has returned. *)
Lemma work_after_parse
    (registry : gmap string GeneratorFactory) (argv : list string) x :
  x ∈ (generate_filter_main registry argv).2 → ¬ is_cerr x →
  ∃ flags_info generator_args,
    parse_args (tail argv) flags_info_init ∅
      = (inr (flags_info, generator_args), []) ∧
    x ∈ (main_after_parse registry flags_info generator_args).2.
Proof.
  intros Hx Hnot.
  destruct (action_after_parse registry argv x Hx Hnot)
    as (flags_info0 & generator_args0 & Hflags & _).
  destruct (flag_value_parsed argv "-o" _ (Hflags "-o"))
    as (flags_info & generator_args & Hparse & _).
  exists flags_info, generator_args. split; [exact Hparse|].
  assert (x ∈ (generate_filter_main_body registry argv).2) as Hbody.
  { unfold generate_filter_main in Hx.
    destruct (generate_filter_main_body registry argv) as [[? | ?] ?];
      exact Hx. }
  unfold generate_filter_main_body in Hbody.
  rewrite (bind_silent _ _ _ Hparse) in Hbody. exact Hbody.
Qed.

(** X25.  A run never builds anything without an output directory and a
    target: whatever it does besides writing to the error stream, the
    argument loop has returned, the [-o] value is not empty and a
    [target=] argument was given. *)
Theorem main_builds_only_with_output_and_target
    (registry : gmap string GeneratorFactory) (argv : list string) x :
  x ∈ (generate_filter_main registry argv).2 → ¬ is_cerr x →
  ∃ output_dir flags_info generator_args,
    parse_args (tail argv) flags_info_init ∅
      = (inr (flags_info, generator_args), []) ∧
    flag_value argv "-o" = Some output_dir ∧ output_dir ≠ "" ∧
    is_Some (generator_args !! "target").
Proof.
  intros Hx Hnot.
  destruct (work_after_parse registry argv x Hx Hnot)
    as (flags_info & generator_args & Hparse & Hin).
  destruct (main_after_parse_work _ _ _ _ Hin Hnot)
    as (n & options & targets & _ & Hout & Htarget & _).
  exists (flags_info !!! "-o"), flags_info, generator_args.
  split; [exact Hparse|]. split; [| split; assumption].
  unfold flag_value. rewrite Hparse. reflexivity.
Qed.

(** X26.  A standalone runtime is compiled only for a non-empty [-r]
    value and a target list of exactly one target; its files are planned
    for that target under the output directory and the runtime name, the
    [-n] value playing no part. *)
Theorem standalone_runtime_request
    (registry : gmap string GeneratorFactory) (argv : list string)
    output_files t :
  compile_standalone_runtime output_files t
    ∈ (generate_filter_main registry argv).2 →
  ∃ flags_info generator_args options,
    parse_args (tail argv) flags_info_init ∅
      = (inr (flags_info, generator_args), []) ∧
    flags_info !!! "-r" ≠ "" ∧
    (parse_targets (split_string (generator_args !!! "target") ",")).1
      = inr [t] ∧
    (parse_emit_options (flags_info !!! "-e")
       ≫= parse_extensions (split_string (flags_info !!! "-x") ",")).1
      = inr options ∧
    output_files =
      compute_outputs t
        (compute_base_path (flags_info !!! "-o") (flags_info !!! "-r") "")
        options.
Proof.
  intros Hx.
  assert (¬ is_cerr (compile_standalone_runtime output_files t)) as Hnot
    by (intros [? Heq]; discriminate Heq).
  destruct (work_after_parse registry argv _ Hx Hnot)
    as (flags_info & generator_args & Hparse & Hin).
  destruct (main_after_parse_work _ _ _ _ Hin Hnot)
    as (n & options & targets & _ & _ & _ & Hopts & Htargets & Hwhere).
  exists flags_info, generator_args, options.
  split; [exact Hparse|].
  destruct Hwhere as [Hrt | [_ Hgen]].
  - unfold build_runtime in Hrt.
    destruct (bool_decide (flags_info !!! "-r" = "")) eqn:Hr; cbn [negb] in Hrt;
      [inversion Hrt|].
    apply bool_decide_eq_false in Hr. split; [exact Hr|].
    destruct targets as [| t0 [| t1 rest]]; simpl in Hrt;
      apply list_elem_of_singleton in Hrt; try discriminate Hrt.
    injection Hrt as -> ->. split; [exact Htargets|]. split; [exact Hopts|].
    reflexivity.
  - exfalso. unfold build_generator in Hgen.
    destruct (negb (bool_decide (n = ""))); [| inversion Hgen].
    destruct targets as [| t0 rest]; [inversion Hgen|].
    destruct (bool_decide (1 < length (t0 :: rest))).
    + apply list_elem_of_singleton in Hgen. discriminate Hgen.
    + apply bind_actions in Hgen as [Hgen | (m & _ & Hgen)].
      * apply module_producer_actions in Hgen as [[? Hgen] | (? & Hgen)];
          discriminate Hgen.
      * apply list_elem_of_singleton in Hgen. discriminate Hgen.
Qed.


Lemma bind_returns {A B} (m : Run A) (k : A → Run B) b :
  (m ≫= k).1 = inr b → ∃ a, m.1 = inr a ∧ (k a).1 = inr b.
Proof.
  rewrite driver_bind. destruct m as [[o | a] acts]; simpl; [discriminate|].
  destruct (k a) as [r acts'] eqn:Hk. simpl. intros ->.
  exists a. rewrite Hk. split; reflexivity.
Qed.

Lemma or_throw_returns {A} (r : error + A) a :
  (or_throw r).1 = inr a → r = inr a.
Proof. destruct r; [discriminate|]. simpl. congruence. Qed.

(** X27.  With a single target, the module handed to [Module::compile]
    comes from the generator the registry created under the settled name,
    with the [target] argument replaced by the printed form of the parsed
    target and every other generator argument as given; it is built under
    the function name with external linkage, and its files are planned for
    the command-line target under the output directory and the [-n] value
    (or the function name). *)
Theorem single_target_module_request
    (registry : gmap string GeneratorFactory) (argv : list string)
    m output_files :
  module_compile m output_files ∈ (generate_filter_main registry argv).2 →
  ∃ flags_info generator_args generator_name options t0 g,
    parse_args (tail argv) flags_info_init ∅
      = (inr (flags_info, generator_args), []) ∧
    (resolve_generator_name (enumerate registry) (flags_info !!! "-g")
       (flags_info !!! "-r")).1 = inr generator_name ∧
    generator_name ≠ "" ∧
    (parse_targets (split_string (generator_args !!! "target") ",")).1
      = inr [t0] ∧
    (parse_emit_options (flags_info !!! "-e")
       ≫= parse_extensions (split_string (flags_info !!! "-x") ",")).1
      = inr options ∧
    registry_create registry generator_name
      (<["target" := Target_to_string t0]> generator_args) = inr (Some g) ∧
    (build_module (function_name_of flags_info generator_name) External g).1
      = inr m ∧
    output_files =
      compute_outputs t0
        (compute_base_path (flags_info !!! "-o")
           (function_name_of flags_info generator_name)
           (flags_info !!! "-n"))
        options.
Proof.
  intros Hx.
  assert (¬ is_cerr (module_compile m output_files)) as Hnot
    by (intros [? Heq]; discriminate Heq).
  destruct (work_after_parse registry argv _ Hx Hnot)
    as (flags_info & generator_args & Hparse & Hin).
  destruct (main_after_parse_work _ _ _ _ Hin Hnot)
    as (n & options & targets & Hname & _ & _ & Hopts & Htargets & Hwhere).
  exists flags_info, generator_args, n, options.
  destruct Hwhere as [Hrt | [_ Hgen]].
  { exfalso. apply build_runtime_actions in Hrt as [[? Hrt] | (? & ? & Hrt)];
      discriminate Hrt. }
  unfold build_generator in Hgen.
  destruct (bool_decide (n = "")) eqn:Hn; cbn [negb] in Hgen; [inversion Hgen|].
  apply bool_decide_eq_false in Hn.
  destruct targets as [| t0 rest]; [inversion Hgen|].
  destruct (bool_decide (1 < length (t0 :: rest))) eqn:Hmulti.
  { apply list_elem_of_singleton in Hgen. discriminate Hgen. }
  apply bool_decide_eq_false in Hmulti.
  destruct rest as [| t1 rest]; [| simpl in Hmulti; lia].
  apply bind_actions in Hgen as [Hgen | (m' & Hprod & Hgen)].
  { apply module_producer_actions in Hgen as [[? Hgen] | (? & Hgen)];
      discriminate Hgen. }
  apply list_elem_of_singleton in Hgen. injection Hgen as -> ->.
  unfold module_producer in Hprod.
  apply bind_returns in Hprod as ([] & _ & Hprod).
  apply bind_returns in Hprod as (gen & Hcreate & Hprod).
  apply or_throw_returns in Hcreate.
  destruct gen as [g |]; [| discriminate Hprod].
  apply or_throw_returns in Hprod.
  exists t0, g. split; [exact Hparse|]. split; [exact Hname|].
  split; [exact Hn|]. split; [exact Htargets|]. split; [exact Hopts|].
  split; [exact Hcreate|]. split; [exact Hprod | reflexivity].
Qed.

(** X28.  A hand-over to the multi-target service and a standalone
    runtime exclude each other: [compile_multitarget] is only reached when
    the [-r] value is empty, since a runtime name with more than one target
    ends the run before. *)
Theorem multitarget_excludes_runtime
    (registry : gmap string GeneratorFactory) (argv : list string)
    fn o ts n c :
  compile_multitarget fn o ts n c ∈ (generate_filter_main registry argv).2 →
  flag_value argv "-r" = Some "" ∧ n ≠ "" ∧
  ∀ output_files t,
    compile_standalone_runtime output_files t
      ∉ (generate_filter_main registry argv).2.
Proof.
  intros Hx.
  assert (¬ is_cerr (compile_multitarget fn o ts n c)) as Hnot
    by (intros [? Heq]; discriminate Heq).
  destruct (work_after_parse registry argv _ Hx Hnot)
    as (flags_info & generator_args & Hparse & Hin).
  destruct (main_after_parse_work _ _ _ _ Hin Hnot)
    as (name & options & targets & _ & _ & _ & _ & Htargets & Hwhere).
  destruct Hwhere as [Hrt | [Hrt Hgen]].
  { exfalso. apply build_runtime_actions in Hrt as [[? Hrt] | (? & ? & Hrt)];
      discriminate Hrt. }
  unfold build_generator in Hgen.
  destruct (bool_decide (name = "")) eqn:Hn; cbn [negb] in Hgen;
    [inversion Hgen|].
  apply bool_decide_eq_false in Hn.
  destruct targets as [| t0 rest]; [inversion Hgen|].
  destruct (bool_decide (1 < length (t0 :: rest))) eqn:Hmulti.
  2:{ apply bind_actions in Hgen as [Hgen | (m & _ & Hgen)].
      - apply module_producer_actions in Hgen as [[? Hgen] | (? & Hgen)];
          discriminate Hgen.
      - apply list_elem_of_singleton in Hgen. discriminate Hgen. }
  apply bool_decide_eq_true in Hmulti.
  apply list_elem_of_singleton in Hgen. injection Hgen as -> -> -> -> ->.
  assert (flags_info !!! "-r" = "") as Hr.
  { unfold build_runtime in Hrt.
    destruct (bool_decide (flags_info !!! "-r" = "")) eqn:Hr;
      [apply bool_decide_eq_true in Hr; exact Hr|].
    cbn [negb] in Hrt. destruct rest as [| t1 rest]; [simpl in Hmulti; lia|].
    discriminate Hrt. }
  split; [unfold flag_value; rewrite Hparse, Hr; reflexivity|].
  split; [exact Hn|].
  intros output_files t Hin'.
  assert (¬ is_cerr (compile_standalone_runtime output_files t)) as Hnot'
    by (intros [? Heq]; discriminate Heq).
  destruct (work_after_parse registry argv _ Hin' Hnot')
    as (flags_info' & generator_args' & Hparse' & Hin2).
  rewrite Hparse in Hparse'. injection Hparse' as <- <-.
  destruct (main_after_parse_work _ _ _ _ Hin2 Hnot')
    as (name' & options' & targets' & _ & _ & _ & _ & _ & Hwhere').
  destruct Hwhere' as [Hrt' | [_ Hgen']].
  - unfold build_runtime in Hrt'. rewrite Hr in Hrt'. inversion Hrt'.
  - unfold build_generator in Hgen'.
    destruct (negb (bool_decide (name' = ""))); [| inversion Hgen'].
    destruct targets' as [| t0' rest']; [inversion Hgen'|].
    destruct (bool_decide (1 < length (t0' :: rest'))).
    + apply list_elem_of_singleton in Hgen'. discriminate Hgen'.
    + apply bind_actions in Hgen' as [Hgen' | (m & _ & Hgen')].
      * apply module_producer_actions in Hgen' as [[? Hgen'] | (? & Hgen')];
          discriminate Hgen'.
      * apply list_elem_of_singleton in Hgen'. discriminate Hgen'.
Qed.

(** *** The exit status *)

Lemma exits_bind {A B} (m : Run A) (k : A → Run B) :
  exits_after_cerr m → (∀ a, exits_after_cerr (k a)) →
  exits_after_cerr (m ≫= k).
Proof.
  intros Hm Hk status. rewrite driver_bind.
  destruct m as [[o | a] acts]; simpl.
  { intros [= ->]. exact (Hm status eq_refl). }
  specialize (Hk a status). destruct (k a) as [r acts'] eqn:Hka. simpl in *.
  intros Hr. destruct (Hk Hr) as (-> & pre & text & ->).
  split; [reflexivity|]. exists (acts ++ pre), text. apply app_assoc.
Qed.

Lemma exits_never {A} (m : Run A) :
  (∀ status, m.1 ≠ inl (Exit status)) → exits_after_cerr m.
Proof. intros Hm status Hst. destruct (Hm status Hst). Qed.

Lemma exits_usage_failure {A} (m : Run A) :
  usage_failure m → exits_after_cerr m.
Proof.
  intros [Ho (acts & Hacts & _)] status. rewrite Ho. intros [= <-].
  split; [reflexivity|]. eauto.
Qed.

Lemma exits_guard (failed : bool) text :
  exits_after_cerr
    ((if failed then perform (cerr text);; usage_error else mret tt)
       : Run unit).
Proof.
  destruct failed; [| apply exits_never; discriminate].
  apply exits_usage_failure, usage_failure_after_cerr, usage_error_failure.
Qed.

Lemma exits_or_throw {A} (r : error + A) : exits_after_cerr (or_throw r).
Proof. apply exits_never. destruct r; discriminate. Qed.

Lemma exits_parse_targets target_strings :
  exits_after_cerr (parse_targets target_strings).
Proof.
  induction target_strings as [| s rest IH]; cbn [parse_targets].
  - apply exits_never. discriminate.
  - apply exits_bind; [apply exits_or_throw|]. intros t.
    apply exits_bind; [exact IH|]. intros ts. apply exits_never. discriminate.
Qed.

Lemma exits_main_after_parse (registry : gmap string GeneratorFactory)
    (flags_info generator_args : gmap string string) :
  exits_after_cerr (main_after_parse registry flags_info generator_args).
Proof.
  unfold main_after_parse.
  apply exits_bind; [apply exits_guard|]. intros _.
  apply exits_bind.
  { unfold resolve_generator_name.
    destruct (_ && _); [| apply exits_never; discriminate].
    destruct (bool_decide _).
    - apply exits_usage_failure, usage_failure_after_cerr.
      rewrite list_names_run.
      split; [reflexivity|]. eexists. split; [reflexivity|].
      apply Forall_fmap, Forall_true. intros n. eexists. reflexivity.
    - destruct (enumerate registry); apply exits_never; discriminate. }
  intros generator_name.
  apply exits_bind; [apply exits_guard|]. intros _.
  apply exits_bind; [apply exits_guard|]. intros _.
  apply exits_bind.
  { apply exits_never. intros status.
    destruct (parse_emit_options_returns (flags_info !!! "-e")) as [o ->].
    discriminate. }
  intros options0. apply exits_bind.
  { intros status Hst. apply exits_usage_failure; [| exact Hst].
    exact (proj1 (parse_extensions_failure _ _ _ Hst)). }
  intros options. apply exits_bind; [apply exits_parse_targets|].
  intros targets. apply exits_bind.
  { unfold build_runtime. destruct (negb _); [| apply exits_never; discriminate].
    destruct targets as [| t0 [| t1 rest]];
      try (apply exits_never; discriminate);
      intros status [= <-]; (split; [reflexivity|]); exists [];
      eexists; reflexivity. }
  intros _. unfold build_generator.
  destruct (negb _); [| apply exits_never; discriminate].
  destruct targets as [| t0 rest]; [apply exits_never; discriminate|].
  destruct (bool_decide _); [apply exits_never; discriminate|].
  apply exits_bind; [| intros m; apply exits_never; discriminate].
  unfold module_producer.
  apply exits_bind; [apply exits_never; discriminate|]. intros _.
  apply exits_bind; [apply exits_or_throw|]. intros [g |].
  - apply exits_or_throw.
  - intros status [= <-]. split; [reflexivity|]. exists []. eexists.
    reflexivity.
Qed.

(** X29.  A run that ends with a status ends with 0 or 1, and with 1
    only right after a message on the error stream: the last thing such a
    run did was to write there. *)
Theorem exit_status_discipline
    (registry : gmap string GeneratorFactory) (argv : list string) status :
  (generate_filter_main registry argv).1 = Exit status →
  status = 0%Z ∨
  status = 1%Z ∧
    ∃ acts text, (generate_filter_main registry argv).2 = acts ++ [cerr text].
Proof.
  assert (exits_after_cerr (generate_filter_main_body registry argv)) as Hbody.
  { unfold generate_filter_main_body. apply exits_bind.
    - destruct (parse_args_cases (tail argv) flags_info_init ∅)
        as [[parsed Hrun] | Hfail].
      + rewrite Hrun. apply exits_never. discriminate.
      + apply exits_usage_failure. exact Hfail.
    - intros [flags_info generator_args]. apply exits_main_after_parse. }
  unfold generate_filter_main.
  destruct (generate_filter_main_body registry argv) as [[o | []] acts];
    simpl.
  - intros ->. right. apply (Hbody status). reflexivity.
  - intros [= <-]. left. reflexivity.
Qed.

End Facts.
End DriverExtras.

(* ===================================================================== *)
(** * The order of work in [build_module] and the runs of [main] *)
(* ===================================================================== *)

Module BuildModuleFacts.
Import Halide NameValidator Generator GeneratorTerms GeneratorFacts
  GeneratorExtras.

Section Facts.
Context `{!ParamCodec} `{!PipelineBuilder}.

(** *** Validated configuration parameters *)

(** A discovery that has to run and returns has validated the names of the
    configuration parameters. *)
Lemma build_params_validates_gparams g g' :
  wf g → params_built g = false → build_params g = (inr tt, g') →
  Forall (λ n, is_valid_name n = true) (gp_name <$> mem_gparams g).
Proof.
  intros Hwf Hb Hrun.
  destruct (build_params_fresh_success g g' Hwf Hb Hrun)
    as (Hnv & Hone & _ & _ & _ & Hfp & Hfi & _).
  pose proof (build_params_third_loop_accepts g Hb Hfp Hfi Hnv Hone) as Hacc.
  rewrite Hrun in Hacc. destruct (proj1 Hacc eq_refl) as [Hall _].
  eapply Forall_impl; [exact Hall|]. intros n [Hn _]. exact Hn.
Qed.

Lemma gparams_validated_build_params g :
  wf g → gparams_validated g → gparams_validated (build_params g).2.
Proof.
  intros Hwf Hinv. destruct (params_built g) eqn:Hb.
  { rewrite (build_params_built g Hb). exact Hinv. }
  destruct gparams_kept_frames as (Hkept & _).
  pose proof (Hkept g) as Hgps. unfold gparams_kept in Hgps.
  destruct (build_params g) as [[e | []] g'] eqn:Hrun.
  - destruct (build_params_unbuilt g Hb (wf_params g Hwf) (wf_inputs g Hwf)
                (wf_sound g Hwf))
      as (r & b & fp' & fi' & m' & ev & Hrun' & _ & _ & _ & Hcases).
    rewrite Hrun in Hrun'. injection Hrun' as <- ->. simpl. intros Hb'.
    simpl in Hb'. subst b.
    destruct Hcases as [(_ & _ & Hf & _) | [(_ & _ & _ & Hf & _) |
      [(_ & _ & _ & _ & _ & Hf & _) |
       (_ & _ & _ & _ & _ & _ & _ & Hend)]]]; try discriminate Hf.
    destruct Hend as [(e' & _ & _ & _ & Hf) | (Hf & _)]; discriminate Hf.
  - simpl in *. intros _. rewrite Hgps.
    exact (build_params_validates_gparams g g' Hwf Hb Hrun).
Qed.

Lemma gparams_validated_after_discovery {A} (k : unit → M A) :
  frames members_kept (build_params ≫= k) →
  ∀ g, wf g → gparams_validated g → gparams_validated ((build_params ≫= k) g).2.
Proof.
  intros Hframe g Hwf Hinv.
  pose proof (gparams_validated_build_params g Hwf Hinv) as Hinv0.
  destruct members_kept_frames as (Hbp & _).
  pose proof (Hbp g) as (_ & _ & Hn0). pose proof (Hframe g) as (_ & _ & Hn).
  revert Hn. rewrite run_bind.
  destruct (build_params g) as [[e | []] g0] eqn:Hrun; [intros _; exact Hinv0|].
  simpl in Hn0, Hinv0. intros Hn _. rewrite Hn, <- Hn0.
  apply Hinv0. exact (build_params_success_built g g0 Hrun).
Qed.

Lemma reachable_gparams_validated g : reachable g → gparams_validated g.
Proof.
  destruct members_kept_frames as (_ & _ & Hfa & Hgv & Hsv & _ & Hbm).
  induction 1 as [ps inputs gps | g Hg IH | g Hg IH | g Hg IH | g Hg IH
                  | params g Hg IH | g Hg IH | fn linkage g Hg IH].
  - intros Hb. discriminate Hb.
  - exact (gparams_validated_build_params g (reachable_wf g Hg) IH).
  - unfold rebuild_params. rewrite run_bind. unfold modify at 1. cbn beta iota.
    apply gparams_validated_build_params.
    + apply preserves_reset. exact (reachable_wf g Hg).
    + intros Hb. discriminate Hb.
  - exact (gparams_validated_after_discovery _ Hfa g (reachable_wf g Hg) IH).
  - exact (gparams_validated_after_discovery _ Hgv g (reachable_wf g Hg) IH).
  - exact (gparams_validated_after_discovery _ (Hsv params) g
             (reachable_wf g Hg) IH).
  - unfold get_filter_output_types. rewrite run_bind, run_call_build_pipeline.
    destruct (build_pipeline _ _ _).1; exact IH.
  - exact (gparams_validated_after_discovery _ (Hbm fn linkage) g
             (reachable_wf g Hg) IH).
Qed.

(** What the rediscovery in [build_module] decides on: on an instance with
    empty containers, no input and validly, distinctly named configuration
    parameters, the discovery returns exactly when the free parameters
    pass the first loop. *)
Lemma rediscovery_accepts gr :
  wf gr → discovered gr = (false, [], [], ∅) → mem_inputs gr = [] →
  Forall (λ n, is_valid_name n = true) (gp_name <$> mem_gparams gr) →
  NoDup (gp_name <$> mem_gparams gr) →
  (build_params gr).1 = inr tt ↔ params_validated (mem_params gr).
Proof.
  intros Hwf Hd Hins Hgv Hgn. unfold discovered in Hd.
  injection Hd as Hb Hfp Hfi Hgp. split.
  - intros Hok. destruct (build_params gr) as [r g'] eqn:Hrun. simpl in Hok.
    subst r.
    destruct (build_params_fresh_success gr g' Hwf Hb Hrun)
      as ((Hv & Hn & _ & _) & _). split; assumption.
  - intros [Hv Hn].
    assert (names_validated gr) as Hnv.
    { unfold names_validated. rewrite Hins.
      split; [exact Hv|]. split; [exact Hn|]. split; constructor. }
    apply (build_params_third_loop_accepts gr Hb Hfp Hfi Hnv).
    { right. exact Hins. }
    split; [| exact Hgn].
    eapply Forall_impl; [exact Hgv|]. intros n Hvn.
    split; [exact Hvn | rewrite Hgp; apply lookup_empty].
Qed.

(** C5.  [build_module] runs the discovery first and stops there if it
    raises.  Otherwise it calls the pipeline builder on the members as
    they are, and stops there if the builder raises.  Otherwise it
    discovers again if and only if the instance has at least one free
    parameter, never on account of its inputs: without a free parameter it
    returns at once; with one, the second discovery runs on the free
    parameters as the builder left them, and the call returns exactly when
    they pass it.  Whenever it returns, the module is the pipeline compiled
    against the Argument list of the members as the builder left them, the
    function name, the instance's target and the linkage, and the calls
    made are exactly the schedule. *)
Theorem build_module_order g fn linkage :
  reachable g →
  let built := build_pipeline (mem_params g) (mem_inputs g) (mem_gparams g) in
  let module_of (pipeline : Pipeline) :=
    compile_to_module pipeline
      (filter_arguments_of built.2 (mem_inputs g))
      fn (get_target (mem_gparams g)) linkage in
  ∃ r g' ev,
    build_module fn linkage g = (r, g') ∧ log g' = log g ++ ev ∧
    ((∃ e, (build_params g).1 = inl e ∧
           r = inl e ∧ g' = (build_params g).2 ∧
           ev `prefix_of` discovery_events g)
     ∨
     (∃ e, (build_params g).1 = inr tt ∧ built.1 = inl e ∧
           r = inl e ∧ mem_params g' = built.2 ∧
           ev = discovery_events g ++ [build_pipeline_call])
     ∨
     (∃ pipeline, (build_params g).1 = inr tt ∧ built.1 = inr pipeline ∧
           mem_params g = [] ∧
           r = inr (module_of pipeline) ∧ mem_params g' = built.2 ∧
           ev = discovery_events g ++ [build_pipeline_call] ∧
           ev = build_module_schedule g)
     ∨
     (∃ pipeline, (build_params g).1 = inr tt ∧ built.1 = inr pipeline ∧
           mem_params g ≠ [] ∧ params_validated built.2 ∧
           r = inr (module_of pipeline) ∧ mem_params g' = built.2 ∧
           ev = discovery_events g ++ [build_pipeline_call] ++ scans ∧
           ev = build_module_schedule g)
     ∨
     (∃ pipeline e, (build_params g).1 = inr tt ∧ built.1 = inr pipeline ∧
           mem_params g ≠ [] ∧ ¬ params_validated built.2 ∧
           r = inl e ∧ is_user_error e ∧ mem_params g' = built.2 ∧
           ∃ ev2, ev = discovery_events g ++ [build_pipeline_call] ++
                       instances_in_range_call FilterParam :: ev2 ∧
                  instances_in_range_call FilterParam :: ev2
                    `prefix_of` scans)).
Proof.
  intros Hreach built module_of.
  pose proof (reachable_wf g Hreach) as Hwf.
  pose proof (reachable_gparams_validated g Hreach) as Hgv.
  unfold build_module, build_module_schedule.
  destruct (build_params_summary g Hwf)
    as (r0 & g0 & ev0 & Hrun0 & Hps0 & Hins0 & Hgps0 & Hlog0 & Hpre0 & Hr0).
  pose proof (preserves_build_params g Hwf) as Hwf0.
  pose proof (gparams_validated_build_params g Hwf Hgv) as Hgv0.
  rewrite Hrun0 in Hwf0, Hgv0. simpl in Hwf0, Hgv0.
  rewrite run_bind, Hrun0. cbn [fst snd].
  destruct r0 as [e | []].
  { exists (inl e), g0, ev0. split; [reflexivity|]. split; [exact Hlog0|].
    left. exists e. auto. }
  destruct Hr0 as [Hb0 ->].
  rewrite run_bind, run_call_build_pipeline, Hps0, Hins0, Hgps0.
  pose proof (build_pipeline_layout (mem_params g) (mem_inputs g)
                (mem_gparams g)) as Hlayout.
  fold built in Hlayout |- *.
  destruct built as [rp ps'] eqn:Hbp. cbn [fst snd] in *.
  set (g1 := set_mem_params ps' (set_log (log g0 ++ [build_pipeline_call]) g0)).
  assert (wf g1) as Hwf1.
  { apply (wf_transfer g0); try reflexivity; [| exact Hwf0].
    subst g1. simpl. rewrite Hlayout, Hps0. reflexivity. }
  destruct rp as [e | pipeline].
  { exists (inl e), g1, (discovery_events g ++ [build_pipeline_call]).
    split; [reflexivity|]. split.
    { subst g1. simpl. rewrite Hlog0, <- app_assoc. reflexivity. }
    right. left. exists e. auto. }
  rewrite run_bind. unfold gets at 1. cbn beta iota.
  destruct (wf_built g0 Hwf0 Hb0) as (Hfp0 & _ & Hone0 & _).
  change (filter_params g1) with (filter_params g0).
  rewrite Hfp0, length_seq, Hps0, run_bind.
  destruct (mem_params g) as [| p0 ps] eqn:Hps.
  - (* no free parameter: no second discovery *)
    cbn [length]. rewrite bool_decide_eq_false_2 by lia.
    rewrite run_ret, run_bind.
    rewrite (get_filter_arguments_built g1 Hwf1 Hb0).
    rewrite run_bind. unfold gets at 1. cbn beta iota. rewrite run_ret.
    eexists _, _, (discovery_events g ++ [build_pipeline_call]).
    split; [reflexivity|]. split.
    { subst g1. simpl. rewrite Hlog0, <- app_assoc. reflexivity. }
    right. right. left. exists pipeline.
    split; [reflexivity|]. split; [reflexivity|]. split; [reflexivity|].
    split.
    { subst g1 module_of. simpl. rewrite Hins0, Hgps0. reflexivity. }
    split; [reflexivity|]. split; [reflexivity|].
    rewrite bool_decide_eq_true_2 by reflexivity. rewrite app_nil_r.
    reflexivity.
  - (* a free parameter: the discovery runs again *)
    cbn [length]. rewrite bool_decide_eq_true_2 by lia.
    rewrite (bool_decide_eq_false_2 (_ :: _ = [])) by discriminate.
    assert (mem_inputs g0 = []) as Hnoin.
    { destruct Hone0 as [Hz | Hz]; [| exact Hz].
      rewrite Hps0 in Hz. discriminate Hz. }
    unfold rebuild_params. rewrite !run_bind. unfold modify at 1.
    cbn beta iota.
    assert (wf (reset_params g1)) as Hwfr.
    { apply preserves_reset. exact Hwf1. }
    assert (NoDup (gp_name <$> mem_gparams g0)) as Hgn.
    { destruct (wf_built g0 Hwf0 Hb0) as (_ & _ & _ & Hcomplete).
      pose proof (proj1 (gp_complete_names _ _) Hcomplete) as Hc.
      apply NoDup_alt. intros i j k Hi Hj.
      pose proof (Hc i k Hi) as Hik. pose proof (Hc j k Hj) as Hjk.
      congruence. }
    pose proof (rediscovery_accepts (reset_params g1) Hwfr eq_refl Hnoin
                  (Hgv0 Hb0) Hgn) as Hacc.
    change (mem_params (reset_params g1)) with ps' in Hacc.
    destruct (build_params_unbuilt (reset_params g1) eq_refl
                (wf_params _ Hwfr) (wf_inputs _ Hwfr) (wf_sound _ Hwfr))
      as (r2 & b2 & fp2 & fi2 & m2 & ev2 & Hrun2 & _ & _ & _ & Hcases).
    pose proof (preserves_build_params _ Hwfr) as Hwf2.
    rewrite Hrun2 in Hwf2, Hacc. cbn [fst snd] in Hwf2, Hacc.
    set (FP := instances_in_range_call FilterParam) in *.
    assert (∃ rest, ev2 = FP :: rest ∧ ev2 `prefix_of` scans ∧
                    (∀ e, r2 = inl e → is_user_error e) ∧
                    (r2 = inr tt → ev2 = scans))
      as (rest2 & Hev2 & Hpre2 & Herr2 & Hok2).
    { destruct Hcases as [(_ & (e & -> & Hu & _) & _ & _ & _ & ->) |
        [(_ & _ & (e & -> & Hu & _) & _ & _ & _ & ->) |
         [(_ & _ & _ & _ & -> & _ & _ & _ & _ & ->) |
          (_ & _ & _ & _ & _ & _ & -> & Hend)]]];
        eexists; (split; [reflexivity|]).
      - split; [exists (tail scans); reflexivity|].
        split; [intros ? [= <-]; exact Hu | discriminate].
      - split; [exists [instances_in_range_call GeneratorParam]; reflexivity|].
        split; [intros ? [= <-]; exact Hu | discriminate].
      - split; [exists [instances_in_range_call GeneratorParam]; reflexivity|].
        split; [intros ? [= <-]; eexists; reflexivity | discriminate].
      - split; [reflexivity|]. split; [| reflexivity].
        destruct Hend as [(e & -> & Hu & _) | (-> & _)];
          [intros ? [= <-]; exact Hu | discriminate]. }
    rewrite Hrun2.
    set (g2 := mkGeneratorBase _ _ _ b2 fp2 fi2 m2 _) in *.
    assert (log g2 = log g ++ discovery_events g ++ [build_pipeline_call] ++ ev2)
      as Hlog.
    { subst g2 g1. simpl. rewrite Hlog0, <- !app_assoc. reflexivity. }
    destruct r2 as [e | []].
    { exists (inl e), g2, (discovery_events g ++ [build_pipeline_call] ++ ev2).
      split; [reflexivity|]. split; [exact Hlog|].
      right. right. right. right. exists pipeline, e.
      split; [reflexivity|]. split; [reflexivity|]. split; [discriminate|].
      split; [intros Hval; apply Hacc in Hval; discriminate Hval|].
      split; [reflexivity|]. split; [apply Herr2; reflexivity|].
      split; [reflexivity|]. exists rest2. rewrite <- Hev2.
      split; [reflexivity | exact Hpre2]. }
    rewrite (Hok2 eq_refl) in *.
    assert (params_built g2 = true) as Hb2
      by exact (build_params_success_built _ _ Hrun2).
    cbn beta iota. rewrite ?run_bind.
    rewrite (get_filter_arguments_built g2 Hwf2 Hb2).
    rewrite run_bind. unfold gets at 1. cbn beta iota. rewrite run_ret.
    eexists _, _, (discovery_events g ++ [build_pipeline_call] ++ scans).
    split; [reflexivity|]. split; [simpl; exact Hlog|].
    right. right. right. left. exists pipeline.
    split; [reflexivity|]. split; [reflexivity|]. split; [discriminate|].
    split; [apply Hacc; reflexivity|].
    split.
    { subst g2 g1 module_of. simpl. rewrite Hins0, Hgps0. reflexivity. }
    split; [reflexivity|]. split; reflexivity.
Qed.

End Facts.
End BuildModuleFacts.

Module RunFacts.
Import Halide NameValidator ArtifactPlanner PlannerTerms Generator GeneratorTerms
  GeneratorFacts Driver DriverTerms DriverFacts DriverExtras.

Section Facts.
Context `{!ParamCodec} `{!PipelineBuilder} `{!Platform}.

(** *** Runs that get through the checks *)

Lemma driver_bind_assoc {A B C} (m : Run A) (f : A → Run B) (k : B → Run C) :
  (m ≫= f) ≫= k = m ≫= (λ a, f a ≫= k).
Proof.
  rewrite !driver_bind. destruct m as [[o | a] acts]; [reflexivity|].
  rewrite !driver_bind. destruct (f a) as [[o | b] acts']; [reflexivity|].
  destruct (k b) as [r acts'']. rewrite app_assoc. reflexivity.
Qed.

Lemma resolve_generator_name_returns names g_flag runtime_name n :
  (resolve_generator_name names g_flag runtime_name).1 = inr n →
  resolve_generator_name names g_flag runtime_name = (inr n, []).
Proof.
  unfold resolve_generator_name.
  destruct (bool_decide (g_flag = "") && bool_decide (runtime_name = ""));
    [| intros [= ->]; reflexivity].
  destruct (bool_decide (1 < length names)).
  - rewrite list_names_run. discriminate.
  - destruct names; [discriminate | intros [= ->]; reflexivity].
Qed.

Lemma parse_targets_returns target_strings targets :
  (parse_targets target_strings).1 = inr targets →
  parse_targets target_strings = (inr targets, []).
Proof.
  intros Hrun. pose proof (parse_targets_silent target_strings) as Hsilent.
  destruct (parse_targets target_strings) as [r acts]. simpl in *.
  subst. reflexivity.
Qed.

(** [main] from the end of the argument loop on, when every check passes:
    the warnings of the [-e] block, then the two closing blocks. *)
Lemma main_after_parse_run (registry : gmap string GeneratorFactory)
    (flags_info generator_args : gmap string string)
    n options warnings targets :
  enumerate registry ≠ [] ∨ flags_info !!! "-r" ≠ "" →
  (resolve_generator_name (enumerate registry) (flags_info !!! "-g")
     (flags_info !!! "-r")).1 = inr n →
  flags_info !!! "-o" ≠ "" →
  is_Some (generator_args !! "target") →
  parse_emit_options (flags_info !!! "-e")
    ≫= parse_extensions (split_string (flags_info !!! "-x") ",")
    = (inr options, warnings) →
  (parse_targets (split_string (generator_args !!! "target") ",")).1
    = inr targets →
  main_after_parse registry flags_info generator_args =
  let '(r, acts) :=
    build_runtime (flags_info !!! "-r") (flags_info !!! "-o") options targets
    ≫= λ _, build_generator registry n (function_name_of flags_info n)
              (flags_info !!! "-o") (flags_info !!! "-n") generator_args
              options targets in
  (r, warnings ++ acts).
Proof.
  intros Hreg Hname Hout Htarget Hopts Htargets. unfold main_after_parse.
  assert (bool_decide (length (enumerate registry) = 0) &&
          bool_decide (flags_info !!! "-r" = "") = false) as ->.
  { apply andb_false_iff. destruct Hreg as [Hne | Hne]; [left | right];
      apply bool_decide_eq_false_2; [| exact Hne].
    destruct (enumerate registry); [contradiction | discriminate]. }
  rewrite (bind_silent (mret tt) _ tt) by reflexivity.
  rewrite (bind_silent _ _ n (resolve_generator_name_returns _ _ _ _ Hname)).
  rewrite (bool_decide_eq_false_2 _ Hout).
  rewrite (bind_silent (mret tt) _ tt) by reflexivity.
  rewrite (bool_decide_eq_false_2 (generator_args !! "target" = None))
    by (destruct Htarget as [? Ht]; rewrite Ht; discriminate).
  rewrite (bind_silent (mret tt) _ tt) by reflexivity.
  rewrite <- driver_bind_assoc, Hopts, driver_bind.
  rewrite (bind_silent _ _ targets (parse_targets_returns _ _ Htargets)).
  reflexivity.
Qed.

Lemma body_after_parse (registry : gmap string GeneratorFactory) argv
    flags_info generator_args :
  parse_args (tail argv) flags_info_init ∅
    = (inr (flags_info, generator_args), []) →
  generate_filter_main_body registry argv =
  main_after_parse registry flags_info generator_args.
Proof.
  intros Hparse. unfold generate_filter_main_body.
  rewrite (bind_silent _ _ _ Hparse). reflexivity.
Qed.

(** With several targets and no runtime name, a run that gets through the
    checks hands over to the multi-target service and returns 0. *)
Lemma multitarget_run (registry : gmap string GeneratorFactory) argv
    flags_info generator_args n options warnings t0 rest :
  parse_args (tail argv) flags_info_init ∅
    = (inr (flags_info, generator_args), []) →
  enumerate registry ≠ [] → flags_info !!! "-r" = "" →
  (resolve_generator_name (enumerate registry) (flags_info !!! "-g")
     (flags_info !!! "-r")).1 = inr n →
  n ≠ "" → flags_info !!! "-o" ≠ "" →
  is_Some (generator_args !! "target") →
  parse_emit_options (flags_info !!! "-e")
    ≫= parse_extensions (split_string (flags_info !!! "-x") ",")
    = (inr options, warnings) →
  (parse_targets (split_string (generator_args !!! "target") ",")).1
    = inr (t0 :: rest) →
  rest ≠ [] →
  generate_filter_main registry argv =
  (Exit 0,
   warnings ++
   [compile_multitarget (function_name_of flags_info n)
      (compute_outputs t0
         (compute_base_path (flags_info !!! "-o")
            (function_name_of flags_info n) (flags_info !!! "-n"))
         options)
      (t0 :: rest) n generator_args]).
Proof.
  intros Hparse Hreg Hr Hname Hn Hout Htarget Hopts Htargets Hrest.
  unfold generate_filter_main.
  rewrite (body_after_parse _ _ _ _ Hparse).
  rewrite (main_after_parse_run registry flags_info generator_args n options
             warnings (t0 :: rest)); auto.
  unfold build_runtime. rewrite Hr.
  rewrite (bool_decide_eq_true_2 ("" = "")) by reflexivity. cbn [negb].
  rewrite (bind_silent (mret tt) _ tt) by reflexivity.
  unfold build_generator. rewrite (bool_decide_eq_false_2 _ Hn). cbn [negb].
  rewrite bool_decide_eq_true_2; [reflexivity|].
  destruct rest; [contradiction | simpl; lia].
Qed.

(** *** Choosing the generator *)

(** C6.  When neither [-g] nor [-r] is given: with more than one generator
    registered, or none, the run is a usage error with status 1.  With
    exactly one registered, that generator is selected: unless the argument
    loop already ended the run as a usage error, the name settled on is its
    name, the run is the one that names this generator with [-g], and once
    the remaining checks pass, what the run does after the warnings of the
    [-e] block is what the generator block of [main] does for this name:
    with one target it creates this generator, with several it hands this
    name to the multi-target service and returns 0.  No other name is ever
    created or handed over. *)
Theorem generator_selection_without_flags
    (registry : gmap string GeneratorFactory) (argv : list string) :
  not_given argv "-g" → not_given argv "-r" →
  (1 < length (enumerate registry) →
     usage_exit (generate_filter_main registry argv)) ∧
  (enumerate registry = [] →
     usage_exit (generate_filter_main registry argv)) ∧
  (∀ name, enumerate registry = [name] →
     (∀ n params,
        registry_create_call n params
          ∈ (generate_filter_main registry argv).2 → n = name) ∧
     (∀ fn o ts n c,
        compile_multitarget fn o ts n c
          ∈ (generate_filter_main registry argv).2 → n = name) ∧
     (flag_value argv "-g" = None ∧
        usage_exit (generate_filter_main registry argv)
      ∨
      ∃ flags_info generator_args,
        parse_args (tail argv) flags_info_init ∅
          = (inr (flags_info, generator_args), []) ∧
        resolve_generator_name (enumerate registry) (flags_info !!! "-g")
          (flags_info !!! "-r") = (inr name, []) ∧
        (argv ≠ [] →
           generate_filter_main registry argv =
           generate_filter_main registry (argv ++ ["-g"; name])) ∧
        ∀ options warnings targets,
          flags_info !!! "-o" ≠ "" →
          is_Some (generator_args !! "target") →
          parse_emit_options (flags_info !!! "-e")
            ≫= parse_extensions (split_string (flags_info !!! "-x") ",")
            = (inr options, warnings) →
          (parse_targets (split_string (generator_args !!! "target") ",")).1
            = inr targets →
          let fn := function_name_of flags_info name in
          let output_files t0 :=
            compute_outputs t0
              (compute_base_path (flags_info !!! "-o") fn
                 (flags_info !!! "-n"))
              options in
          generate_filter_main_body registry argv =
            (let '(r, acts) :=
               build_generator registry name fn (flags_info !!! "-o")
                 (flags_info !!! "-n") generator_args options targets in
             (r, warnings ++ acts)) ∧
          (name ≠ "" → ∀ t0, targets = [t0] →
             ∃ acts,
               (generate_filter_main registry argv).2 =
               warnings ++
               registry_create_call name
                 (<["target" := Target_to_string t0]> generator_args)
               :: acts) ∧
          (name ≠ "" → ∀ t0 t1 rest, targets = t0 :: t1 :: rest →
             generate_filter_main registry argv =
             (Exit 0,
              warnings ++
              [compile_multitarget fn (output_files t0) targets name
                 generator_args])))).
Proof.
  intros Hg Hr.
  assert (∀ name x, enumerate registry = [name] →
            x ∈ (generate_filter_main registry argv).2 → ¬ is_cerr x →
            ∃ flags_info generator_args,
              x ∈ (main_after_parse registry flags_info generator_args).2 ∧
              (resolve_generator_name (enumerate registry)
                 (flags_info !!! "-g") (flags_info !!! "-r")).1
                = inr name) as Hsettled.
  { intros name x Hone Hx Hnot.
    destruct (action_after_parse _ _ _ Hx Hnot)
      as (flags_info & generator_args & Hflags & Hin).
    exists flags_info, generator_args. split; [exact Hin|].
    rewrite (Hg _ (Hflags "-g")), (Hr _ (Hflags "-r")), Hone. reflexivity. }
  assert (∀ name, enumerate registry = [name] →
     (∀ n params,
        registry_create_call n params
          ∈ (generate_filter_main registry argv).2 → n = name) ∧
     (∀ fn o ts n c,
        compile_multitarget fn o ts n c
          ∈ (generate_filter_main registry argv).2 → n = name)) as Honly.
  { intros name Hone. split.
    - intros n params Hx.
      destruct (Hsettled name _ Hone Hx) as (fi & ga & Hin & Hres);
        [intros [? Heq]; discriminate Heq|].
      apply registry_create_origin in Hin. congruence.
    - intros fn o ts n c Hx.
      destruct (Hsettled name _ Hone Hx) as (fi & ga & Hin & Hres);
        [intros [? Heq]; discriminate Heq|].
      apply multitarget_origin in Hin
        as (gname & _ & _ & _ & Hname & _ & _ & _ & _ & -> & _).
      congruence. }
  destruct (parse_args_cases (tail argv) flags_info_init ∅)
    as [[[flags_info generator_args] Hrun] | Hfail].
  2:{ assert (usage_exit (generate_filter_main registry argv)) as Hexit.
      { apply usage_failure_exit. unfold generate_filter_main_body.
        apply usage_failure_bind. exact Hfail. }
      split; [intros _; exact Hexit|]. split; [intros _; exact Hexit|].
      intros name Hone. destruct (Honly name Hone) as [Hc Hm].
      split; [exact Hc|]. split; [exact Hm|].
      left. split; [| exact Hexit].
      unfold flag_value. destruct Hfail as [Ho _].
      destruct (parse_args (tail argv) flags_info_init ∅)
        as [[o | [? ?]] acts]; [reflexivity | discriminate Ho]. }
  assert (flags_info !!! "-g" = "") as Hgv.
  { apply Hg. unfold flag_value. rewrite Hrun. reflexivity. }
  assert (flags_info !!! "-r" = "") as Hrv.
  { apply Hr. unfold flag_value. rewrite Hrun. reflexivity. }
  pose proof (body_after_parse registry argv _ _ Hrun) as Hbody.
  split; [| split].
  - intros Hmany. apply usage_failure_exit. rewrite Hbody.
    apply after_parse_many_generators; assumption.
  - intros Hnone. apply usage_failure_exit. rewrite Hbody.
    apply after_parse_no_generators; assumption.
  - intros name Hone. destruct (Honly name Hone) as [Hc Hm].
    split; [exact Hc|]. split; [exact Hm|].
    right. exists flags_info, generator_args. split; [exact Hrun|].
    assert (resolve_generator_name (enumerate registry) (flags_info !!! "-g")
              (flags_info !!! "-r") = (inr name, [])) as Hres
      by (rewrite Hgv, Hrv, Hone; reflexivity).
    split; [exact Hres|]. split.
    { intros Hargv. unfold generate_filter_main. rewrite Hbody.
      unfold generate_filter_main_body.
      destruct argv as [| prog args]; [contradiction|]. cbn [tail app] in *.
      rewrite (parse_args_app _ _ _ _ _ Hrun). cbn [fst snd parse_args].
      change (is_flag "-g") with true. cbn [negb].
      destruct (parse_args_keeps_keys _ _ _ _ _ "-g" Hrun) as [old Hold];
        [eexists; reflexivity|].
      simpl in Hold. rewrite Hold.
      rewrite (bind_silent _ _ (<["-g" := name]> flags_info, generator_args))
        by reflexivity.
      rewrite (after_parse_single_generator registry flags_info generator_args
                 name Hone Hgv Hrv).
      reflexivity. }
    intros options warnings targets Hout Htarget Hopts Htargets fn output_files.
    assert (generate_filter_main_body registry argv =
            (let '(r, acts) :=
               build_generator registry name fn (flags_info !!! "-o")
                 (flags_info !!! "-n") generator_args options targets in
             (r, warnings ++ acts))) as Hgen.
    { rewrite Hbody.
      rewrite (main_after_parse_run registry flags_info generator_args name
                 options warnings targets); auto.
      - unfold build_runtime. rewrite Hrv.
        rewrite (bool_decide_eq_true_2 ("" = "")) by reflexivity. cbn [negb].
        rewrite (bind_silent (mret tt) _ tt) by reflexivity. reflexivity.
      - left. rewrite Hone. discriminate.
      - rewrite Hres. reflexivity. }
    split; [exact Hgen|]. split.
    + intros Hname t0 ->. unfold generate_filter_main. rewrite Hgen.
      unfold build_generator, module_producer.
      rewrite (bool_decide_eq_false_2 _ Hname). cbn [negb length].
      rewrite bool_decide_eq_false_2 by lia.
      rewrite !driver_bind_assoc.
      rewrite driver_bind. cbn [perform].
      match goal with
      | |- context [let '(r, acts') := ?k in (r, [?a] ++ acts')] =>
          destruct k as [r acts']
      end.
      exists acts'. destruct r; reflexivity.
    + intros Hname t0 t1 rest ->.
      apply (multitarget_run registry argv flags_info generator_args name
               options warnings t0 (t1 :: rest)); auto;
        first [ rewrite Hone; discriminate
              | rewrite Hres; reflexivity
              | discriminate ].
Qed.

(** *** The files of a multi-target build *)

(** C9.  What is handed to [compile_multitarget] is exactly this: the
    parsed target list, which has at least two entries, and the Outputs
    [compute_outputs] plans for its first entry under the base path and
    the options read from the flags; later targets appear nowhere in it.
    Conversely, a command line with two or more targets and a generator
    name that gets through the checks does hand over, exactly this, and
    returns 0.  So two runs with the same flags and the same first target
    hand over the same Outputs, whatever targets follow. *)
Theorem multitarget_outputs_from_first_target
    (registry : gmap string GeneratorFactory) (argv : list string) :
  (∀ fn o ts n c,
     compile_multitarget fn o ts n c
       ∈ (generate_filter_main registry argv).2 →
     ∃ flags_info generator_args options t0 rest,
       parse_args (tail argv) flags_info_init ∅
         = (inr (flags_info, generator_args), []) ∧
       (parse_emit_options (flags_info !!! "-e")
          ≫= parse_extensions (split_string (flags_info !!! "-x") ",")).1
         = inr options ∧
       (parse_targets (split_string (generator_args !!! "target") ",")).1
         = inr (t0 :: rest) ∧
       rest ≠ [] ∧ ts = t0 :: rest ∧ c = generator_args ∧
       (resolve_generator_name (enumerate registry) (flags_info !!! "-g")
          (flags_info !!! "-r")).1 = inr n ∧
       fn = function_name_of flags_info n ∧
       o = compute_outputs t0
             (compute_base_path (flags_info !!! "-o") fn
                (flags_info !!! "-n"))
             options) ∧
  (∀ flags_info generator_args n options warnings t0 rest,
     parse_args (tail argv) flags_info_init ∅
       = (inr (flags_info, generator_args), []) →
     enumerate registry ≠ [] → flags_info !!! "-r" = "" →
     (resolve_generator_name (enumerate registry) (flags_info !!! "-g")
        (flags_info !!! "-r")).1 = inr n →
     n ≠ "" → flags_info !!! "-o" ≠ "" →
     is_Some (generator_args !! "target") →
     parse_emit_options (flags_info !!! "-e")
       ≫= parse_extensions (split_string (flags_info !!! "-x") ",")
       = (inr options, warnings) →
     (parse_targets (split_string (generator_args !!! "target") ",")).1
       = inr (t0 :: rest) →
     rest ≠ [] →
     generate_filter_main registry argv =
     (Exit 0,
      warnings ++
      [compile_multitarget (function_name_of flags_info n)
         (compute_outputs t0
            (compute_base_path (flags_info !!! "-o")
               (function_name_of flags_info n) (flags_info !!! "-n"))
            options)
         (t0 :: rest) n generator_args])) ∧
  (∀ argv' fn o ts n c fn' o' ts' n' c',
     compile_multitarget fn o ts n c
       ∈ (generate_filter_main registry argv).2 →
     compile_multitarget fn' o' ts' n' c'
       ∈ (generate_filter_main registry argv').2 →
     (∀ flag, flag_value argv' flag = flag_value argv flag) →
     head ts' = head ts → o' = o).
Proof.
  assert (∀ argv fn o ts n c,
    compile_multitarget fn o ts n c ∈ (generate_filter_main registry argv).2 →
    ∃ flags_info generator_args options t0 rest,
      parse_args (tail argv) flags_info_init ∅
        = (inr (flags_info, generator_args), []) ∧
      (parse_emit_options (flags_info !!! "-e")
         ≫= parse_extensions (split_string (flags_info !!! "-x") ",")).1
        = inr options ∧
      (parse_targets (split_string (generator_args !!! "target") ",")).1
        = inr (t0 :: rest) ∧
      rest ≠ [] ∧ ts = t0 :: rest ∧ c = generator_args ∧
      (resolve_generator_name (enumerate registry) (flags_info !!! "-g")
         (flags_info !!! "-r")).1 = inr n ∧
      fn = function_name_of flags_info n ∧
      o = compute_outputs t0
            (compute_base_path (flags_info !!! "-o") fn (flags_info !!! "-n"))
            options) as Hexact.
  { clear argv. intros argv fn o ts n c Hx.
    assert (¬ is_cerr (compile_multitarget fn o ts n c)) as Hnot
      by (intros [? Heq]; discriminate Heq).
    destruct (work_after_parse registry argv _ Hx Hnot)
      as (flags_info & generator_args & Hparse & Hin).
    destruct (multitarget_origin _ _ _ _ _ _ _ _ Hin)
      as (gname & options & t0 & rest & Hname & Hopts & Htargets & Hrest &
          -> & -> & -> & Hfn & Ho).
    exists flags_info, generator_args, options, t0, rest.
    split; [exact Hparse|]. split; [exact Hopts|]. split; [exact Htargets|].
    split; [exact Hrest|]. split; [reflexivity|]. split; [reflexivity|].
    split; [exact Hname|]. split; [exact Hfn | exact Ho]. }
  split; [exact (Hexact argv)|]. split.
  { intros flags_info generator_args n options warnings t0 rest.
    apply multitarget_run. }
  intros argv' fn o ts n c fn' o' ts' n' c' Hx Hx' Hsame Hhead.
  destruct (Hexact _ _ _ _ _ _ Hx)
    as (fi & ga & options & t0 & rest & Hparse & Hopts & _ & _ & -> & _ &
        Hname & -> & ->).
  destruct (Hexact _ _ _ _ _ _ Hx')
    as (fi' & ga' & options' & t0' & rest' & Hparse' & Hopts' & _ & _ & -> & _ &
        Hname' & -> & ->).
  simpl in Hhead. injection Hhead as ->.
  assert (∀ flag, fi' !!! flag = fi !!! flag) as Heq.
  { intros flag. specialize (Hsame flag). unfold flag_value in Hsame.
    rewrite Hparse, Hparse' in Hsame. congruence. }
  unfold function_name_of in *.
  rewrite !Heq in *.
  assert (n' = n) as -> by congruence.
  assert (options' = options) as -> by congruence.
  reflexivity.
Qed.

End Facts.
End RunFacts.

(* ===================================================================== *)
(** * The theorems on the sample generators *)
(* ===================================================================== *)

Module Instances.
Import Halide NameValidator ArtifactPlanner Generator Driver.
Import GeneratorTerms DriverTerms.
Import Sample SampleDriver GeneratorFacts DriverFacts BuildModuleFacts RunFacts.

#[local] Existing Instance decimal_codec.
#[local] Existing Instance still_builder.
#[local] Existing Instance sample_platform.

(** C3, counterexample.  With parameters ["a"] and ["w"] and the values
    [{"a" -> "5", "z" -> "1"}], the key ["a"] is visited first and written;
    the call then raises at ["z"], and ["a"] holds 5 instead of 1. *)
Lemma set_generator_param_values_not_atomic :
  ¬ (∀ (g : GeneratorBase) (params : gmap string string),
       reachable g →
       (∃ k, is_Some (params !! k) ∧ k ∉ gp_name <$> mem_gparams g) →
       ∃ e g', set_generator_param_values params g = (inl e, g') ∧
               is_user_error e ∧ mem_gparams g' = mem_gparams g).
Proof.
  intros Hclaim.
  destruct (Hclaim two_params (<["z" := "1"]> (<["a" := "5"]> ∅)))
    as (e & g' & Hrun & _ & Hsame).
  - constructor.
  - exists "z". split; [eexists; reflexivity|].
    apply (bool_decide_unpack _). vm_compute. exact I.
  - vm_compute in Hrun. injection Hrun as _ <-.
    vm_compute in Hsame. discriminate Hsame.
Qed.

Example set_generator_param_values_partial :
  (set_generator_param_values (<["z" := "1"]> (<["a" := "5"]> ∅)) two_params).1
    = inl (no_such_param_error "z") ∧
  mem_gparams
    (set_generator_param_values (<["z" := "1"]> (<["a" := "5"]> ∅))
       two_params).2
    = [int_param "a" 5; int_param "w" 3].
Proof. split; vm_compute; reflexivity. Qed.

Lemma set_generator_param_values_unknown_key_witness :
  reachable two_params ∧
  (∃ k, is_Some ((<["z" := "1"]> (<["a" := "5"]> ∅) : gmap string string) !! k)
        ∧ k ∉ gp_name <$> mem_gparams two_params) ∧
  ∃ pre key value post e g',
    in_order (<["z" := "1"]> (<["a" := "5"]> ∅)) = pre ++ (key, value) :: post ∧
    Forall (λ kv, kv.1 ∈ gp_name <$> mem_gparams two_params) pre ∧
    (key ∉ gp_name <$> mem_gparams two_params) ∧
    set_generator_param_values (<["z" := "1"]> (<["a" := "5"]> ∅)) two_params
      = (inl e, g') ∧
    user_or_codec_error e ∧
    ((∀ v s e', from_string v s = inl e' → is_user_error e') →
     is_user_error e) ∧
    gp_name <$> mem_gparams g' = gp_name <$> mem_gparams two_params ∧
    (∀ i gp, mem_gparams two_params !! i = Some gp → gp_name gp ∉ pre.*1 →
             mem_gparams g' !! i = Some gp) ∧
    (∀ g1, (build_params ≫= λ _, set_values pre) two_params = (inr tt, g1) →
           e = no_such_param_error key ∧ g' = g1).
Proof.
  assert (∃ k, is_Some ((<["z" := "1"]> (<["a" := "5"]> ∅)
                          : gmap string string) !! k)
               ∧ k ∉ gp_name <$> mem_gparams two_params) as Hunknown.
  { exists "z". split; [eexists; reflexivity|].
    apply (bool_decide_unpack _). vm_compute. exact I. }
  split; [constructor|]. split; [exact Hunknown|].
  apply (set_generator_param_values_unknown_key two_params
           (<["z" := "1"]> (<["a" := "5"]> ∅)));
    [constructor | exact Hunknown].
Defined.

Lemma build_params_rejects_params_with_inputs_witness :
  reachable mixed ∧ mem_params mixed ≠ [] ∧ mem_inputs mixed ≠ [] ∧
  ∃ e g',
    build_params mixed = (inl e, g') ∧ is_user_error e ∧
    generator_params g' = generator_params mixed ∧
    params_built g' = false ∧
    (∃ ev, log g' = log mixed ++ ev ∧
           instances_in_range_call GeneratorParam ∉ ev) ∧
    get_filter_arguments mixed = (inl e, g') ∧
    (e = inputs_with_params_error → names_validated mixed) ∧
    (filter_params mixed = [] → filter_inputs mixed = [] →
     names_validated mixed → e = inputs_with_params_error).
Proof.
  split; [constructor|]. split; [discriminate|]. split; [discriminate|].
  apply (build_params_rejects_params_with_inputs mixed);
    [constructor | discriminate | discriminate].
Defined.

Lemma build_module_order_witness :
  reachable params_only ∧
  mem_params params_only ≠ [] ∧
  ∃ g',
    build_module "f" External params_only
      = (inr (compile_to_module (tt : Pipeline)
                (filter_arguments_of [scalar_param "a"] []) "f" host_target
                External), g') ∧
    mem_params g' = [scalar_param "a"] ∧
    log g' = scans ++ [build_pipeline_call] ++ scans.
Proof.
  split; [constructor|]. split; [discriminate|].
  assert (reachable params_only) as Hreach by constructor.
  assert (discovery_events params_only = scans) as Hev
    by (vm_compute; reflexivity).
  assert ((build_params params_only).1 = inr tt) as Hfirst
    by (vm_compute; reflexivity).
  assert ((build_module "f" External params_only).1
            = inr (compile_to_module (tt : Pipeline)
                     (filter_arguments_of [scalar_param "a"] []) "f"
                     host_target External)) as Hresult
    by (vm_compute; reflexivity).
  destruct (build_module_order params_only "f" External Hreach)
    as (r & g' & ev & Hrun & Hlog & Hcases).
  rewrite Hrun in Hresult. simpl in Hresult. subst r.
  exists g'. split; [exact Hrun|].
  destruct Hcases as [(e & Hp & _) | [(e & _ & Hb & _) | [(p & _ & _ & Hn & _)
    | [(p & _ & _ & _ & _ & _ & Hmem & Hevents & _)
    | (p & e & _ & _ & _ & _ & Hr & _)]]]].
  - rewrite Hfirst in Hp. discriminate Hp.
  - discriminate Hb.
  - discriminate Hn.
  - split; [exact Hmem|]. rewrite Hlog, Hevents, Hev. reflexivity.
  - discriminate Hr.
Defined.

Example build_module_with_inputs_only :
  log (build_module "f" External two_params).2
    = scans ++ [build_pipeline_call].
Proof. vm_compute. reflexivity. Qed.

Example build_module_with_a_free_parameter :
  log (build_module "f" External params_only).2
    = scans ++ [build_pipeline_call] ++ scans.
Proof. vm_compute. reflexivity. Qed.

Example build_params_on_mixed :
  (build_params mixed).1 = inl inputs_with_params_error ∧
  generator_params (build_params mixed).2 = ∅.
Proof. split; vm_compute; reflexivity. Qed.

Lemma discovery_idempotent_witness :
  build_params two_params = (inr tt, (build_params two_params).2) ∧
  (∀ g2, rtc call_without_reset (build_params two_params).2 g2 →
     build_params g2 = (inr tt, g2) ∧
     discovered g2 = discovered (build_params two_params).2) ∧
  (∀ g2,
     rebuild_params g2 = build_params (reset_params g2) ∧
     discovered (reset_params g2) = (false, [], [], ∅) ∧
     ∃ ev, log (rebuild_params g2).2 =
           log g2 ++ instances_in_range_call FilterParam :: ev).
Proof.
  assert (build_params two_params = (inr tt, (build_params two_params).2))
    as Hrun by (vm_compute; reflexivity).
  split; [exact Hrun|].
  apply (discovery_idempotent two_params _ Hrun).
Defined.

Lemma generator_selection_without_flags_witness :
  not_given plain_argv "-g" ∧ not_given plain_argv "-r" ∧
  enumerate one_generator = ["myfilt"] ∧
  (∀ n params,
     registry_create_call n params
       ∈ (generate_filter_main one_generator plain_argv).2 → n = "myfilt") ∧
  ∃ flags_info generator_args,
    parse_args (tail plain_argv) flags_info_init ∅
      = (inr (flags_info, generator_args), []) ∧
    resolve_generator_name (enumerate one_generator) (flags_info !!! "-g")
      (flags_info !!! "-r") = (inr "myfilt", []) ∧
    generate_filter_main one_generator plain_argv =
      generate_filter_main one_generator (plain_argv ++ ["-g"; "myfilt"]) ∧
    generate_filter_main_body one_generator plain_argv =
      (let '(r, acts) :=
         build_generator one_generator "myfilt"
           (function_name_of flags_info "myfilt") (flags_info !!! "-o")
           (flags_info !!! "-n") generator_args EmitOptions_default
           [host_target] in
       (r, [] ++ acts)) ∧
    ∃ acts,
      (generate_filter_main one_generator plain_argv).2 =
      [] ++ registry_create_call "myfilt"
              (<["target" := Target_to_string host_target]> generator_args)
            :: acts.
Proof.
  assert (not_given plain_argv "-g") as Hg.
  { apply absent_flag_not_given; [| reflexivity].
    apply (bool_decide_unpack _). vm_compute. exact I. }
  assert (not_given plain_argv "-r") as Hr.
  { apply absent_flag_not_given; [| reflexivity].
    apply (bool_decide_unpack _). vm_compute. exact I. }
  assert (enumerate one_generator = ["myfilt"]) as Hone
    by (vm_compute; reflexivity).
  split; [exact Hg|]. split; [exact Hr|]. split; [exact Hone|].
  destruct (generator_selection_without_flags one_generator plain_argv Hg Hr)
    as (_ & _ & Hsel).
  destruct (Hsel "myfilt" Hone) as (Hcreate & _ & [[Hnone _] | Hrun]).
  { vm_compute in Hnone. discriminate Hnone. }
  split; [exact Hcreate|].
  destruct Hrun as (flags_info & generator_args & Hparse & Hres & Hsame & Hbuild).
  exists flags_info, generator_args.
  split; [exact Hparse|]. split; [exact Hres|].
  split; [apply Hsame; discriminate|].
  assert (parse_args (tail plain_argv) flags_info_init ∅ =
          (inr (<["-o" := "/tmp"]> flags_info_init,
                <["target" := "host"]> (∅ : gmap string string)), []))
    as Hconcrete by (vm_compute; reflexivity).
  rewrite Hconcrete in Hparse. injection Hparse as <- <-.
  destruct (Hbuild EmitOptions_default [] [host_target])
    as (Hgen & Hsingle & _).
  - apply (bool_decide_unpack _). vm_compute. exact I.
  - eexists. reflexivity.
  - vm_compute. reflexivity.
  - vm_compute. reflexivity.
  - split; [exact Hgen|].
    apply (Hsingle ltac:(discriminate) host_target eq_refl).
Defined.

Example two_generators_need_a_flag :
  generate_filter_main two_generators plain_argv =
  (Exit 1,
   [ cerr ("-g must be specified if multiple generators are registered:" +:+ nl);
     cerr ("    myfilt" +:+ nl); cerr ("    other" +:+ nl); cerr kUsage ]).
Proof. vm_compute. reflexivity. Qed.

Example one_generator_is_built :
  (generate_filter_main one_generator plain_argv).1 = Exit 0 ∧
  registry_create_call "myfilt" (<["target" := "host"]> ∅)
    ∈ (generate_filter_main one_generator plain_argv).2.
Proof. split; [vm_compute; reflexivity|]. vm_compute. left. Qed.

Lemma multitarget_outputs_from_first_target_witness :
  let flags_info : gmap string string := <["-o" := "/tmp"]> flags_info_init in
  let generator_args : gmap string string :=
    <["target" := "host,windows"]> ∅ in
  parse_args (tail two_target_argv) flags_info_init ∅
    = (inr (flags_info, generator_args), []) ∧
  enumerate one_generator ≠ [] ∧ flags_info !!! "-r" = "" ∧
  (resolve_generator_name (enumerate one_generator) (flags_info !!! "-g")
     (flags_info !!! "-r")).1 = inr "myfilt" ∧
  "myfilt" ≠ "" ∧ flags_info !!! "-o" ≠ "" ∧
  is_Some (generator_args !! "target") ∧
  parse_emit_options (flags_info !!! "-e")
    ≫= parse_extensions (split_string (flags_info !!! "-x") ",")
    = (inr EmitOptions_default, []) ∧
  (parse_targets (split_string (generator_args !!! "target") ",")).1
    = inr [host_target; windows_target] ∧
  [windows_target] ≠ [] ∧
  generate_filter_main one_generator two_target_argv =
  (Exit 0,
   [] ++
   [compile_multitarget (function_name_of flags_info "myfilt")
      (compute_outputs host_target
         (compute_base_path (flags_info !!! "-o")
            (function_name_of flags_info "myfilt") (flags_info !!! "-n"))
         EmitOptions_default)
      [host_target; windows_target] "myfilt" generator_args]) ∧
  compile_multitarget "myfilt"
    (compute_outputs host_target "/tmp/myfilt" EmitOptions_default)
    [host_target; windows_target] "myfilt" generator_args
    ∈ (generate_filter_main one_generator two_target_argv).2 ∧
  ∃ flags_info' generator_args' options t0 rest,
    parse_args (tail two_target_argv) flags_info_init ∅
      = (inr (flags_info', generator_args'), []) ∧
    (parse_emit_options (flags_info' !!! "-e")
       ≫= parse_extensions (split_string (flags_info' !!! "-x") ",")).1
      = inr options ∧
    (parse_targets (split_string (generator_args' !!! "target") ",")).1
      = inr (t0 :: rest) ∧
    rest ≠ [] ∧ [host_target; windows_target] = t0 :: rest ∧
    generator_args = generator_args' ∧
    (resolve_generator_name (enumerate one_generator) (flags_info' !!! "-g")
       (flags_info' !!! "-r")).1 = inr "myfilt" ∧
    "myfilt" = function_name_of flags_info' "myfilt" ∧
    compute_outputs host_target "/tmp/myfilt" EmitOptions_default =
      compute_outputs t0
        (compute_base_path (flags_info' !!! "-o") "myfilt"
           (flags_info' !!! "-n"))
        options.
Proof.
  intros flags_info generator_args.
  assert (parse_args (tail two_target_argv) flags_info_init ∅
            = (inr (flags_info, generator_args), [])) as Hparse
    by (vm_compute; reflexivity).
  assert (enumerate one_generator ≠ []) as Hreg
    by (apply (bool_decide_unpack _); vm_compute; exact I).
  assert (flags_info !!! "-r" = "") as Hr by (vm_compute; reflexivity).
  assert ((resolve_generator_name (enumerate one_generator)
             (flags_info !!! "-g") (flags_info !!! "-r")).1 = inr "myfilt")
    as Hname by (vm_compute; reflexivity).
  assert ("myfilt" ≠ "") as Hn by discriminate.
  assert (flags_info !!! "-o" ≠ "") as Hout
    by (apply (bool_decide_unpack _); vm_compute; exact I).
  assert (is_Some (generator_args !! "target")) as Htarget
    by (eexists; reflexivity).
  assert (parse_emit_options (flags_info !!! "-e")
            ≫= parse_extensions (split_string (flags_info !!! "-x") ",")
            = (inr EmitOptions_default, [])) as Hopts
    by (vm_compute; reflexivity).
  assert ((parse_targets (split_string (generator_args !!! "target") ",")).1
            = inr [host_target; windows_target]) as Htargets
    by (vm_compute; reflexivity).
  assert ([windows_target] ≠ []) as Hrest by discriminate.
  repeat (split; [assumption|]).
  destruct (multitarget_outputs_from_first_target one_generator two_target_argv)
    as (Hexact & Hrun & _).
  split.
  { exact (Hrun flags_info generator_args "myfilt" EmitOptions_default []
             host_target [windows_target]
             Hparse Hreg Hr Hname Hn Hout Htarget Hopts Htargets Hrest). }
  assert (compile_multitarget "myfilt"
            (compute_outputs host_target "/tmp/myfilt" EmitOptions_default)
            [host_target; windows_target] "myfilt" generator_args
            ∈ (generate_filter_main one_generator two_target_argv).2) as Hin
    by (vm_compute; left).
  split; [exact Hin|].
  exact (Hexact _ _ _ _ _ Hin).
Defined.

End Instances.

(* ===================================================================== *)
(** * The further properties on the sample generators *)
(* ===================================================================== *)

Module ExtraInstances.
Import Halide NameValidator ArtifactPlanner Generator Driver.
Import Sample SampleDriver GeneratorFacts DriverFacts.
Import PlannerTerms GeneratorTerms DriverTerms.
Import GeneratorExtras RegistryExtras DriverExtras.

#[local] Existing Instance decimal_codec.
#[local] Existing Instance still_builder.
#[local] Existing Instance sample_platform.

Lemma get_generator_param_values_contents_witness :
  reachable two_params ∧
  get_generator_param_values two_params
    = (inr (<["a" := "1"]> (<["w" := "3"]> ∅)),
       (build_params two_params).2) ∧
  mem_gparams (build_params two_params).2 = mem_gparams two_params ∧
  (∀ gp, gp ∈ mem_gparams two_params →
     (<["a" := "1"]> (<["w" := "3"]> ∅) : gmap string string) !! gp_name gp
       = Some (to_string (gp_value gp))) ∧
  (∀ k, k ∉ gp_name <$> mem_gparams two_params →
     (<["a" := "1"]> (<["w" := "3"]> ∅) : gmap string string) !! k = None).
Proof.
  assert (get_generator_param_values two_params
            = (inr (<["a" := "1"]> (<["w" := "3"]> ∅)),
               (build_params two_params).2)) as Hrun
    by (vm_compute; reflexivity).
  split; [constructor|]. split; [exact Hrun|].
  apply (get_generator_param_values_contents two_params _ _
           (reach_new _ _ _) Hrun).
Defined.

Lemma set_generator_param_values_applies_witness :
  let params : gmap string string := <["a" := "5"]> ∅ in
  reachable two_params ∧ (build_params two_params).1 = inr tt ∧
  (∀ k v, params !! k = Some v →
     ∃ gp v', gp ∈ mem_gparams two_params ∧ gp_name gp = k ∧
              from_string (gp_value gp) v = inr v') ∧
  ∃ g', set_generator_param_values params two_params = (inr tt, g') ∧
    ∀ i gp, mem_gparams two_params !! i = Some gp →
      match params !! gp_name gp with
      | Some v => ∃ v', from_string (gp_value gp) v = inr v' ∧
                        mem_gparams g' !! i =
                          Some (mkGeneratorParam _ (gp_name gp) v')
      | None => mem_gparams g' !! i = Some gp
      end.
Proof.
  intros params.
  assert (∀ k v, params !! k = Some v →
            ∃ gp v', gp ∈ mem_gparams two_params ∧ gp_name gp = k ∧
                     from_string (gp_value gp) v = inr v') as Hall.
  { intros k v Hkv. subst params.
    apply lookup_insert_Some in Hkv as [[<- <-] | [_ Hkv]];
      [| rewrite lookup_empty in Hkv; discriminate Hkv].
    exists (int_param "a" 1), 5%N.
    split; [apply list_elem_of_here|]. split; reflexivity. }
  split; [constructor|]. split; [vm_compute; reflexivity|].
  split; [exact Hall|].
  apply (set_generator_param_values_applies two_params params
           (reach_new _ _ _)); [vm_compute; reflexivity | exact Hall].
Defined.

Lemma set_then_get_generator_param_values_witness :
  let params : gmap string string := <["a" := "5"]> ∅ in
  let g1 := (set_generator_param_values params two_params).2 in
  reachable two_params ∧
  set_generator_param_values params two_params = (inr tt, g1) ∧
  (∀ k v old v', params !! k = Some v → from_string old v = inr v' →
     to_string v' = v) ∧
  ∃ values, get_generator_param_values g1 = (inr values, g1) ∧
    params ⊆ values.
Proof.
  intros params g1.
  assert (set_generator_param_values params two_params = (inr tt, g1)) as Hrun
    by (vm_compute; reflexivity).
  assert (∀ k v old v', params !! k = Some v → from_string old v = inr v' →
            to_string v' = v) as Hcodec.
  { intros k v old v' Hkv. subst params.
    apply lookup_insert_Some in Hkv as [[<- <-] | [_ Hkv]];
      [| rewrite lookup_empty in Hkv; discriminate Hkv].
    vm_compute. intros [= <-]. reflexivity. }
  split; [constructor|]. split; [exact Hrun|]. split; [exact Hcodec|].
  apply (set_then_get_generator_param_values two_params params g1
           (reach_new _ _ _) Hrun Hcodec).
Defined.

Lemma build_module_argument_names_witness :
  let run := build_module "f" External two_params in
  reachable two_params ∧
  (∃ m, run = (inr m, run.2) ∧
     arg_name <$> module_args m = ["input"] ∧
     NoDup (arg_name <$> module_args m) ∧
     Forall (λ n, is_valid_name n = true) (arg_name <$> module_args m)).
Proof.
  intros run. split; [constructor|].
  assert (∃ m, run = (inr m, run.2) ∧ arg_name <$> module_args m = ["input"])
    as (m & Hrun & Hnames).
  { eexists. split; vm_compute; reflexivity. }
  exists m. split; [exact Hrun|]. split; [exact Hnames|].
  apply (build_module_argument_names two_params "f" External m run.2
           (reach_new _ _ _) Hrun).
Defined.

Lemma get_filter_arguments_names_witness :
  let run := get_filter_arguments params_only in
  reachable params_only ∧
  ∃ args, run = (inr args, run.2) ∧
    arg_name <$> args =
      (name <$> mem_params params_only) ++
      (input_name <$> mem_inputs params_only) ∧
    Forall (λ a, arg_kind a ≠ OutputBuffer) args ∧
    (params_built params_only = false ∨ mem_params params_only = [] →
     NoDup (arg_name <$> args) ∧
     Forall (λ n, is_valid_name n = true) (arg_name <$> args)).
Proof.
  intros run. split; [constructor|].
  assert (∃ args, run = (inr args, run.2)) as (args & Hrun)
    by (eexists; vm_compute; reflexivity).
  exists args. split; [exact Hrun|].
  apply (get_filter_arguments_names params_only args run.2
           (reach_new _ _ _) Hrun).
Defined.

Lemma get_filter_arguments_repeatable_witness :
  let run := get_filter_arguments two_params in
  reachable two_params ∧
  ∃ args, run = (inr args, run.2) ∧
    get_filter_arguments run.2 = (inr args, run.2).
Proof.
  intros run. split; [constructor|].
  assert (∃ args, run = (inr args, run.2)) as (args & Hrun)
    by (eexists; vm_compute; reflexivity).
  exists args. split; [exact Hrun|].
  apply (get_filter_arguments_repeatable two_params args run.2
           (reach_new _ _ _) Hrun).
Defined.

Lemma discovery_accepts_witness :
  discovered two_params = (false, [], [], ∅) ∧
  ((build_params two_params).1 = inr tt ↔
   names_validated two_params ∧
   (mem_params two_params = [] ∨ mem_inputs two_params = []) ∧
   Forall (λ n, is_valid_name n = true) (gp_name <$> mem_gparams two_params) ∧
   NoDup (gp_name <$> mem_gparams two_params)).
Proof.
  split; [reflexivity|]. apply (discovery_accepts two_params). reflexivity.
Defined.

Lemma failed_discovery_stays_failed_witness :
  reachable mixed ∧
  build_params mixed = (inl inputs_with_params_error, (build_params mixed).2) ∧
  ∃ e', (build_params (build_params mixed).2).1 = inl e' ∧ is_user_error e'.
Proof.
  assert (build_params mixed
            = (inl inputs_with_params_error, (build_params mixed).2)) as Hrun
    by (vm_compute; reflexivity).
  split; [constructor|]. split; [exact Hrun|].
  apply (failed_discovery_stays_failed mixed _ _ (reach_new _ _ _) Hrun).
Defined.

Lemma register_factory_round_trip_witness :
  register_factory "myfilt" myfilt_factory ∅ = inr one_generator ∧
  (∀ params, registry_create one_generator "myfilt" params
             = create myfilt_factory params) ∧
  (∀ other params, other ≠ "myfilt" →
     registry_create one_generator other params =
     registry_create ∅ other params) ∧
  enumerate one_generator ≡ₚ "myfilt" :: enumerate ∅ ∧
  (∀ factory', register_factory "myfilt" factory' one_generator =
     inl (internal_error ("Duplicate Generator name: " +:+ "myfilt"))) ∧
  unregister_factory "myfilt" one_generator = inr ∅.
Proof.
  assert (register_factory "myfilt" myfilt_factory ∅ = inr one_generator)
    as Hreg by reflexivity.
  split; [exact Hreg|].
  apply (register_factory_round_trip "myfilt" myfilt_factory ∅ one_generator
           Hreg).
Defined.

Lemma emit_filter_request_witness :
  let run := emit_filter "/tmp" "f" "" EmitOptions_default two_params in
  ∃ m output_files,
    run = (inr (m, output_files), run.2) ∧
    build_module "f" External two_params = (inr m, run.2) ∧
    module_name m = "f" ∧ module_linkage m = External ∧
    module_target m = get_target (mem_gparams two_params) ∧
    output_files =
      compute_outputs (get_target (mem_gparams two_params))
        (compute_base_path "/tmp" "f" "") EmitOptions_default.
Proof.
  intros run.
  assert (∃ m output_files, run = (inr (m, output_files), run.2))
    as (m & output_files & Hrun)
    by (eexists _, _; vm_compute; reflexivity).
  exists m, output_files. split; [exact Hrun|].
  apply (emit_filter_request "/tmp" "f" "" EmitOptions_default two_params
           m output_files run.2 Hrun).
Defined.

Lemma main_builds_only_with_output_and_target_witness :
  let x := registry_create_call "myfilt" (<["target" := "host"]> ∅) in
  x ∈ (generate_filter_main one_generator plain_argv).2 ∧ ¬ is_cerr x ∧
  ∃ output_dir flags_info generator_args,
    parse_args (tail plain_argv) flags_info_init ∅
      = (inr (flags_info, generator_args), []) ∧
    flag_value plain_argv "-o" = Some output_dir ∧ output_dir ≠ "" ∧
    is_Some (generator_args !! "target").
Proof.
  intros x.
  assert (x ∈ (generate_filter_main one_generator plain_argv).2) as Hin
    by (vm_compute; left).
  assert (¬ is_cerr x) as Hnot by (intros [? Heq]; discriminate Heq).
  split; [exact Hin|]. split; [exact Hnot|].
  apply (main_builds_only_with_output_and_target one_generator plain_argv x
           Hin Hnot).
Defined.

Lemma standalone_runtime_request_witness :
  let argv := ["gengen"; "-r"; "rt"; "-n"; "base"; "-o"; "/tmp"; "target=host"] in
  let output_files :=
    compute_outputs host_target "/tmp/rt" EmitOptions_default in
  compile_standalone_runtime output_files host_target
    ∈ (generate_filter_main (∅ : gmap string GeneratorFactory) argv).2 ∧
  ∃ flags_info generator_args options,
    parse_args (tail argv) flags_info_init ∅
      = (inr (flags_info, generator_args), []) ∧
    flags_info !!! "-r" ≠ "" ∧
    (parse_targets (split_string (generator_args !!! "target") ",")).1
      = inr [host_target] ∧
    (parse_emit_options (flags_info !!! "-e")
       ≫= parse_extensions (split_string (flags_info !!! "-x") ",")).1
      = inr options ∧
    output_files =
      compute_outputs host_target
        (compute_base_path (flags_info !!! "-o") (flags_info !!! "-r") "")
        options.
Proof.
  intros argv output_files.
  assert (compile_standalone_runtime output_files host_target
            ∈ (generate_filter_main (∅ : gmap string GeneratorFactory) argv).2)
    as Hin by (vm_compute; left).
  split; [exact Hin|].
  apply (standalone_runtime_request ∅ argv output_files host_target Hin).
Defined.

Lemma single_target_module_request_witness :
  ∃ m output_files,
    module_compile m output_files
      ∈ (generate_filter_main one_generator plain_argv).2 ∧
    ∃ flags_info generator_args generator_name options t0 g,
      parse_args (tail plain_argv) flags_info_init ∅
        = (inr (flags_info, generator_args), []) ∧
      (resolve_generator_name (enumerate one_generator) (flags_info !!! "-g")
         (flags_info !!! "-r")).1 = inr generator_name ∧
      generator_name ≠ "" ∧
      (parse_targets (split_string (generator_args !!! "target") ",")).1
        = inr [t0] ∧
      (parse_emit_options (flags_info !!! "-e")
         ≫= parse_extensions (split_string (flags_info !!! "-x") ",")).1
        = inr options ∧
      registry_create one_generator generator_name
        (<["target" := Target_to_string t0]> generator_args) = inr (Some g) ∧
      (build_module (function_name_of flags_info generator_name) External g).1
        = inr m ∧
      output_files =
        compute_outputs t0
          (compute_base_path (flags_info !!! "-o")
             (function_name_of flags_info generator_name)
             (flags_info !!! "-n"))
          options.
Proof.
  assert (∃ m output_files,
            module_compile m output_files
              ∈ (generate_filter_main one_generator plain_argv).2)
    as (m & output_files & Hin).
  { eexists _, _. vm_compute. right. left. }
  exists m, output_files. split; [exact Hin|].
  apply (single_target_module_request one_generator plain_argv m output_files
           Hin).
Defined.

Lemma multitarget_excludes_runtime_witness :
  let fn := "myfilt" in
  let o := compute_outputs host_target "/tmp/myfilt" EmitOptions_default in
  let ts := [host_target; windows_target] in
  let c : gmap string string := <["target" := "host,windows"]> ∅ in
  compile_multitarget fn o ts "myfilt" c
    ∈ (generate_filter_main one_generator two_target_argv).2 ∧
  flag_value two_target_argv "-r" = Some "" ∧ "myfilt" ≠ "" ∧
  ∀ output_files t,
    compile_standalone_runtime output_files t
      ∉ (generate_filter_main one_generator two_target_argv).2.
Proof.
  intros fn o ts c.
  assert (compile_multitarget fn o ts "myfilt" c
            ∈ (generate_filter_main one_generator two_target_argv).2) as Hin
    by (vm_compute; left).
  split; [exact Hin|].
  apply (multitarget_excludes_runtime one_generator two_target_argv
           fn o ts "myfilt" c Hin).
Defined.

Lemma exit_status_discipline_witness :
  (generate_filter_main two_generators plain_argv).1 = Exit 1 ∧
  (1%Z = 0%Z ∨
   1%Z = 1%Z ∧
     ∃ acts text,
       (generate_filter_main two_generators plain_argv).2
         = acts ++ [cerr text]).
Proof.
  assert ((generate_filter_main two_generators plain_argv).1 = Exit 1) as Hrun
    by (vm_compute; reflexivity).
  split; [exact Hrun|].
  apply (exit_status_discipline two_generators plain_argv 1 Hrun).
Defined.

End ExtraInstances.
